(** * Scope manager, module scope and Relax IR builder

    A shallow embedding of [src/ir/scope.h] and [src/relax/ir/ir_builder.cc]:
    the scope stack with its name registry, the module scope that
    deduplicates functions up to structural equality, and the emission
    protocol of the IR builder with its local shape and type propagation.

    Mutable C++ objects become records that are threaded through a state
    and error monad; object identity (the key of [Map<Id, Expr>] and of
    [Map<GlobalVar, BaseFunc>]) is an address drawn from an allocation
    counter. *)

From Stdlib Require Import ZArith String List Lia.
From stdpp Require Import base decidable option list strings pretty
  countable gmap fin_maps fin_map_dom.

Set Warnings "-register-all".

(** ** Runtime objects *)

(** The address of a heap object.  Two references are the same object
    exactly when their addresses agree. *)
Definition addr := nat.

(** [runtime::ObjectRef], as stored in [name2value]: an opaque handle. *)
Definition ObjectRef := addr.

(** [int]: 32-bit two's complement. *)
Definition INT_MAX : Z := 2147483647.

(** Conversion of a [size_t] to [int] (value kept modulo 2^32). *)
Definition int_of_size_t (n : nat) : Z :=
  ((Z.of_nat n + 2147483648) mod 4294967296 - 2147483648)%Z.

(** [std::to_string(int)]: decimal digits, with a leading minus sign for a
    negative number. *)
Definition to_string (i : Z) : string := pretty i.

(** The [k]-th name probed by [GetUniqueName]: [prefix + std::to_string(k)]. *)
Definition candidate (prefix : string) (k : nat) : string :=
  prefix +:+ to_string (Z.of_nat k).

(** The ways an operation aborts.  [LOG(FATAL)], [ICHECK] and [CHECK] raise
    an error that carries the message written at the call site; the
    containers of the runtime raise on an index out of range.  Signed
    overflow of an [int] counter has no defined result and stops the model. *)
Inductive Error : Type :=
  | LOG_FATAL (msg : string)
  | ICHECK_failed (msg : string)
  | CHECK_failed (msg : string)
  | IndexError (msg : string)
  | SignedOverflow.

Inductive Result (A : Type) : Type :=
  | OK (a : A)
  | Throw (e : Error).
Arguments OK {A} a.
Arguments Throw {A} e.

(** ** Expressions, types and bindings (the part the builder reads) *)

(** [relax::Id]: a fresh object per variable; [name_hint] is only a hint. *)
Record Id : Type := mkId { id_addr : addr; name_hint : string }.

(** [GlobalVar]: a fresh object per module-level symbol. *)
Record GlobalVar : Type := mkGlobalVar { gv_addr : addr; gv_name_hint : string }.

#[global] Instance Id_eq_dec : EqDecision Id.
Proof. solve_decision. Defined.
#[global] Instance Id_countable : Countable Id.
Proof.
  refine (inj_countable' (fun i => (id_addr i, name_hint i))
                         (fun p => mkId (fst p) (snd p)) _).
  by intros [].
Defined.

#[global] Instance GlobalVar_eq_dec : EqDecision GlobalVar.
Proof. solve_decision. Defined.
#[global] Instance GlobalVar_countable : Countable GlobalVar.
Proof.
  refine (inj_countable' (fun g => (gv_addr g, gv_name_hint g))
                         (fun p => mkGlobalVar (fst p) (snd p)) _).
  by intros [].
Defined.

(** [runtime::DataType], kept as its printed name ("float32", ...). *)
Definition DataType := string.

(** [PrimExpr]: a dimension of a shape pattern. *)
Inductive PrimExpr : Type :=
  | IntImm (v : Z)
  | tir_Var (name : string).

(** [Type]: the two Relax types the builder inspects, tuple types, and any
    other type node by its type key. *)
Inductive Ty : Type :=
  | ShapeType
  | DynTensorType (rank : Z) (dtype : DataType)
  | TupleType (fields : list Ty)
  | OtherType (type_key : string).

(** [Expr]: every expression node carries the two cached attributes
    [shape_] and [checked_type_] of [RelayExprNode]. *)
Inductive Expr : Type :=
  | mkExpr (node : ExprNode) (shape_ : option Expr) (checked_type_ : option Ty)
with ExprNode : Type :=
  | VarNode (vid : Id)
  | DataflowVarNode (vid : Id)
  | CallNode (op : Expr) (args : list Expr)
  | TupleNode (fields : list Expr)
  | TupleGetItemNode (tuple : Expr) (index : Z)
  | ShapeExprNode (values : list PrimExpr)
  | OpNode (name : string)
  | OtherNode (type_key : string).

Definition expr_node (e : Expr) : ExprNode :=
  let 'mkExpr n _ _ := e in n.
Definition expr_shape_ (e : Expr) : option Expr :=
  let 'mkExpr _ s _ := e in s.
Definition expr_checked_type_ (e : Expr) : option Ty :=
  let 'mkExpr _ _ t := e in t.

(** [Var]: a reference known to point to a [VarNode] or to its subclass
    [DataflowVarNode]; [var_is_dataflow] is the dynamic type. *)
Record Var : Type := mkVar {
  var_is_dataflow : bool;
  vid : Id;
  var_shape_ : option Expr;
  var_checked_type_ : option Ty
}.

(** [Call]: a reference known to point to a [CallNode]. *)
Record Call : Type := mkCall {
  call_op : Expr;
  call_args : list Expr;
  call_shape_ : option Expr;
  call_checked_type_ : option Ty
}.

(** Upcasts to [Expr]. *)
Definition Expr_of_Var (v : Var) : Expr :=
  mkExpr (if var_is_dataflow v then DataflowVarNode (vid v) else VarNode (vid v))
         (var_shape_ v) (var_checked_type_ v).
Definition Expr_of_Call (c : Call) : Expr :=
  mkExpr (CallNode (call_op c) (call_args c)) (call_shape_ c) (call_checked_type_ c).

(** [expr.as<VarNode>()]: succeeds on a [VarNode] and on its subclass. *)
Definition as_VarNode (e : Expr) : option Var :=
  match e with
  | mkExpr (VarNode i) s t => Some (mkVar false i s t)
  | mkExpr (DataflowVarNode i) s t => Some (mkVar true i s t)
  | _ => None
  end.

(** [expr.as<CallNode>()]. *)
Definition as_CallNode (e : Expr) : option Call :=
  match e with
  | mkExpr (CallNode op args) s t => Some (mkCall op args s t)
  | _ => None
  end.

(** [expr.as<TupleGetItemNode>()]: the operand and the index. *)
Definition as_TupleGetItemNode (e : Expr) : option (Expr * Z) :=
  match e with
  | mkExpr (TupleGetItemNode t i) _ _ => Some (t, i)
  | _ => None
  end.

(** [shape_.as<TupleNode>()] on an optional object: the fields of a tuple. *)
Definition as_TupleNode (o : option Expr) : option (list Expr) :=
  match o with
  | Some (mkExpr (TupleNode fs) _ _) => Some fs
  | _ => None
  end.

(** [checked_type_.as<TupleTypeNode>()] on a possibly undefined type. *)
Definition as_TupleTypeNode (o : option Ty) : option (list Ty) :=
  match o with
  | Some (TupleType fs) => Some fs
  | _ => None
  end.

(** [call->op.as<OpNode>()]: the registered operator, by name. *)
Definition as_OpNode (e : Expr) : option string :=
  match e with
  | mkExpr (OpNode n) _ _ => Some n
  | _ => None
  end.

(** [Array::operator[]], declared with the containers of the runtime and
    not in these sources: the element at index [i], and an error when [i]
    is out of the bounds. *)
Definition Array_at {A : Type} (fields : list A) (i : Z) : Result A :=
  if decide (0 <= i)%Z then
    match fields !! Z.to_nat i with
    | Some x => OK x
    | None => Throw (IndexError "indexing out of range of the array")
    end
  else Throw (IndexError "indexing out of range of the array").

(** The index [i] is within the bounds of the tuple, when there is one. *)
Definition tuple_index_ok {A : Type} (o : option (list A)) (i : Z) : Prop :=
  match o with
  | Some fields => (0 <= i < Z.of_nat (length fields))%Z
  | None => True
  end.

(** The field at index [i] of the tuple, when there is one. *)
Definition tuple_field {A : Type} (o : option (list A)) (i : Z) : option A :=
  match o with
  | Some fields => fields !! Z.to_nat i
  | None => None
  end.

(** [ShapeExpr(pattern)]. *)
Definition ShapeExpr (pattern : list PrimExpr) : Expr :=
  mkExpr (ShapeExprNode pattern) None None.

Record VarBinding : Type := mkVarBinding {
  vb_var : Var;
  vb_value : Expr
}.

Record MatchShape : Type := mkMatchShape {
  ms_value : Expr;
  ms_pattern : list PrimExpr;
  ms_var : Var
}.

Inductive Binding : Type :=
  | Binding_VarBinding (b : VarBinding)
  | Binding_MatchShape (b : MatchShape).

(** [DiagnosticContext::Default(IRModule({}, {}))]. *)
Inductive DiagnosticContext : Type :=
  | DiagnosticContext_Default.

(** [BindingBlock] and its subclass [DataflowBlock]. *)
Inductive BindingBlock : Type :=
  | mkBindingBlock (bindings : list Binding)
  | mkDataflowBlock (bindings : list Binding).

(** ** Scopes ([src/ir/scope.h]) *)

(** [runtime::TypedPackedFunc<void()>]: a closure, known by its handle. *)
Definition PackedFunc := nat.

Record Callback : Type := mkCallback { fn : PackedFunc }.

Section Builder.

(** [BaseFunc] and the structural equality of the runtime
    ([StructuralEqual], with the hash [StructuralHash] that agrees with it)
    come from outside these sources. *)
Variable BaseFunc : Type.
Variable StructuralEqual : BaseFunc -> BaseFunc -> bool.

(** The attribute maps [Op::GetAttrMap<FInferShape>("FInferShape")] and
    [Op::GetAttrMap<FInferType>("FInferType")] of the operator registry,
    keyed by operator. *)
Variable FInferShape_map : string -> option (Call -> DiagnosticContext -> option Expr).
Variable FInferType_map : string -> option (Call -> DiagnosticContext -> option Ty).

(** [IRModule] and its constructor from a function table, declared in
    [tvm/ir/module.h] and not in these sources: what the constructor
    checks, and so whether it raises, is not known here. *)
Variable IRModule : Type.
Variable IRModule_new : gmap GlobalVar BaseFunc -> Result IRModule.

(** The fields [IRModuleScopeNode] adds to [BaseScopeNode].
    [func_map] is keyed by the [GlobalVar] object; [structural_map] is an
    [unordered_map] whose key equality is [StructuralEqual], kept here as
    the list of its entries. *)
Record IRModuleScopeNode : Type := mkIRModuleScopeNode {
  func_map : gmap GlobalVar BaseFunc;
  structural_map : list (BaseFunc * GlobalVar)
}.

(** The dynamic type of a scope with the fields of that subclass. *)
Inductive ScopeNode : Type :=
  | BaseScopeNode
  | IRModuleScope_ (m : IRModuleScopeNode)
  | DataflowScopeNode (bindings : list Binding)
  | NonDataflowScopeNode (bindings : list Binding).

(** [BaseScope]: the fields of [BaseScopeNode] and the subclass part. *)
Record BaseScope : Type := mkBaseScope {
  vars : list string;
  callbacks : list Callback;
  node : ScopeNode
}.

(** [BaseScopeNode::AddVar] and [BaseScopeNode::AddCallback]. *)
Definition AddVar (var : string) (s : BaseScope) : BaseScope :=
  mkBaseScope (vars s ++ [var]) (callbacks s) (node s).
Definition AddCallback (cb : Callback) (s : BaseScope) : BaseScope :=
  mkBaseScope (vars s) (callbacks s ++ [cb]) (node s).

(** The constructors [BaseScope()], [IRModuleScope()], [DataflowScope()]
    and [NonDataflowScope()]. *)
Definition BaseScope_new : BaseScope := mkBaseScope [] [] BaseScopeNode.
Definition IRModuleScope_new : BaseScope :=
  mkBaseScope [] [] (IRModuleScope_ (mkIRModuleScopeNode ∅ [])).
Definition DataflowScope_new : BaseScope := mkBaseScope [] [] (DataflowScopeNode []).
Definition NonDataflowScope_new : BaseScope := mkBaseScope [] [] (NonDataflowScopeNode []).

(** [IsInstance<DataflowScopeNode>()] and the like. *)
Definition is_DataflowScope (s : BaseScope) : bool :=
  match node s with DataflowScopeNode _ => true | _ => false end.
Definition is_NonDataflowScope (s : BaseScope) : bool :=
  match node s with NonDataflowScopeNode _ => true | _ => false end.
Definition is_IRModuleScope (s : BaseScope) : bool :=
  match node s with IRModuleScope_ _ => true | _ => false end.

(** The scope is a block: a dataflow block or a binding block. *)
Definition is_block (s : BaseScope) : bool :=
  is_DataflowScope s || is_NonDataflowScope s.

(** [n->bindings.push_back(binding)] on a block scope. *)
Definition bindings_push_back (b : Binding) (s : BaseScope) : BaseScope :=
  match node s with
  | DataflowScopeNode bs => mkBaseScope (vars s) (callbacks s) (DataflowScopeNode (bs ++ [b]))
  | NonDataflowScopeNode bs => mkBaseScope (vars s) (callbacks s) (NonDataflowScopeNode (bs ++ [b]))
  | _ => s
  end.

(** The bindings of a block scope (none for the other scopes). *)
Definition scope_bindings (s : BaseScope) : list Binding :=
  match node s with
  | DataflowScopeNode bs | NonDataflowScopeNode bs => bs
  | _ => []
  end.

(** ** The builder object

    [IRBuilderNode] extends [ScopeManagerNode]: [scopes] and [name2value]
    are the inherited fields, [id2bind] its own.  The last element of
    [scopes] is the innermost scope ([scopes.back()]).  Two more
    components stand for the world around the object: [next_addr] is the
    address the next [Id] or [GlobalVar] object is allocated at, and
    [called] lists the teardown callbacks invoked so far, each with the
    name registry it could observe when it ran. *)
Record IRBuilderNode : Type := mkIRBuilderNode {
  scopes : list BaseScope;
  name2value : gmap string ObjectRef;
  id2bind : gmap Id Expr;
  next_addr : addr;
  called : list (Callback * gmap string ObjectRef)
}.

(** [IRBuilder()]: the freshly constructed builder. *)
Definition IRBuilder_new : IRBuilderNode := mkIRBuilderNode [] ∅ ∅ 0 [].

Definition set_scopes (f : list BaseScope -> list BaseScope) (self : IRBuilderNode) :=
  mkIRBuilderNode (f (scopes self)) (name2value self) (id2bind self)
                  (next_addr self) (called self).
Definition set_name2value (f : gmap string ObjectRef -> gmap string ObjectRef)
    (self : IRBuilderNode) :=
  mkIRBuilderNode (scopes self) (f (name2value self)) (id2bind self)
                  (next_addr self) (called self).
Definition set_id2bind (f : gmap Id Expr -> gmap Id Expr) (self : IRBuilderNode) :=
  mkIRBuilderNode (scopes self) (name2value self) (f (id2bind self))
                  (next_addr self) (called self).
Definition set_next_addr (f : addr -> addr) (self : IRBuilderNode) :=
  mkIRBuilderNode (scopes self) (name2value self) (id2bind self)
                  (f (next_addr self)) (called self).
Definition set_called (f : list (Callback * gmap string ObjectRef) ->
                           list (Callback * gmap string ObjectRef))
    (self : IRBuilderNode) :=
  mkIRBuilderNode (scopes self) (name2value self) (id2bind self)
                  (next_addr self) (f (called self)).

(** ** The monad of methods: the object is threaded through, and a raised
    error leaves with the object as it was when the error was raised. *)
Definition M (A : Type) : Type := IRBuilderNode -> Result A * IRBuilderNode.

Definition ret {A} (a : A) : M A := fun self => (OK a, self).
Definition throw {A} (e : Error) : M A := fun self => (Throw e, self).
Definition bind {A B} (c : M A) (k : A -> M B) : M B :=
  fun self =>
    match c self with
    | (OK a, self') => k a self'
    | (Throw e, self') => (Throw e, self')
    end.
Definition get : M IRBuilderNode := fun self => (OK self, self).
Definition modify (f : IRBuilderNode -> IRBuilderNode) : M unit :=
  fun self => (OK tt, f self).
Definition lift {A} (r : Result A) : M A := fun self => (r, self).

Notation "x <- c ;; k" := (bind c (fun x => k))
  (at level 100, c at next level, right associativity, only parsing).
Notation "c ;; k" := (bind c (fun _ => k))
  (at level 100, right associativity, only parsing).

(** [ICHECK(cond) << msg]. *)
Definition ICHECK (cond : bool) (msg : string) : M unit :=
  if cond then ret tt else throw (ICHECK_failed msg).

(** [Array::back()] and [Array::pop_back()], declared with the containers
    of the runtime and not in these sources ([back] raises on an empty
    array), and a write through the pointer returned by [scopes.back()]. *)
Definition back {A} (l : list A) : Result A :=
  match last l with
  | Some x => OK x
  | None => Throw (IndexError "cannot index an empty array")
  end.
Definition pop_back {A} (l : list A) : list A := removelast l.
Definition alter_back {A} (f : A -> A) (l : list A) : list A :=
  match last l with
  | Some x => removelast l ++ [f x]
  | None => l
  end.

(** *** [ScopeManagerNode] *)

(** The loop of [GetUniqueName], from counter value [i].  The registry is
    finite, so [fuel] probes suffice once [fuel] exceeds its size; the
    increment past [INT_MAX] is the one way the loop has no result. *)
Fixpoint GetUniqueName_loop (name2value : gmap string ObjectRef) (prefix : string)
    (fuel : nat) (i : Z) : Result string :=
  match fuel with
  | O => Throw SignedOverflow
  | S fuel' =>
      let name := prefix +:+ to_string i in
      if decide (name2value !! name = None) then OK name
      else if decide (i = INT_MAX) then Throw SignedOverflow
      else GetUniqueName_loop name2value prefix fuel' (i + 1)
  end.

(** [ScopeManagerNode::GetUniqueName], a [const] method. *)
Definition GetUniqueName (self : IRBuilderNode) (prefix : string) : Result string :=
  GetUniqueName_loop (name2value self) prefix (S (size (name2value self))) 0.

(** Two calls of [GetUniqueName] in a row on the same object. *)
Definition GetUniqueName_twice (prefix : string) : M (string * string) :=
  self <- get ;;
  first <- lift (GetUniqueName self prefix) ;;
  self <- get ;;
  second <- lift (GetUniqueName self prefix) ;;
  ret (first, second).

(** [ScopeManagerNode::GetScope<TScope>]: the index, counted from the
    bottom of the stack, of the innermost scope of the wanted dynamic type.
    The height of the stack is narrowed to an [int]
    ([int n = scopes.size()]) and the loop runs from [n - 1] down to 0: it
    runs over no scope when [n] is not positive.  In [GetScope_loop], [i]
    is one more than the loop counter. *)
Fixpoint GetScope_loop (is_TScope : BaseScope -> bool) (scopes : list BaseScope)
    (i : nat) : option nat :=
  match i with
  | O => None
  | S j =>
      match scopes !! j with
      | Some s => if is_TScope s then Some j else GetScope_loop is_TScope scopes j
      | None => GetScope_loop is_TScope scopes j
      end
  end.
Definition GetScope (is_TScope : BaseScope -> bool) (self : IRBuilderNode) : option nat :=
  let n := int_of_size_t (length (scopes self)) in
  GetScope_loop is_TScope (scopes self) (Z.to_nat n).

(** [ScopeManagerNode::PushScope]. *)
Definition PushScope (scope : BaseScope) : M BaseScope :=
  modify (set_scopes (fun l => l ++ [scope])) ;;
  ret scope.

(** [cb()]: the call of a teardown callback. *)
Definition call_Callback (cb : Callback) : M unit :=
  modify (fun self => set_called (fun l => l ++ [(cb, name2value self)]) self).

(** [for (x : xs) body(x)]. *)
Fixpoint for_each {A} (xs : list A) (body : A -> M unit) : M unit :=
  match xs with
  | [] => ret tt
  | x :: xs' => body x ;; for_each xs' body
  end.

(** [ScopeManagerNode::PopScope]. *)
Definition PopScope : M BaseScope :=
  self <- get ;;
  scope <- lift (back (scopes self)) ;;
  modify (set_scopes pop_back) ;;
  for_each (callbacks scope) call_Callback ;;
  for_each (vars scope) (fun name => modify (set_name2value (delete name))) ;;
  ret scope.

(** [ScopeManagerNode::GetVar]. *)
Definition GetVar (self : IRBuilderNode) (name : string) : option ObjectRef :=
  name2value self !! name.

(** [ScopeManagerNode::AddVars].  The owning scope is given by its index
    in [scopes], counted from the bottom; an index past the top stands for
    a scope object that is not on the stack. *)
Definition AddVars (name : string) (value : ObjectRef) (scope : nat) : M unit :=
  self <- get ;;
  (if decide (name2value self !! name = None) then ret tt
   else throw (LOG_FATAL "Variable already exists: ")) ;;
  modify (set_name2value (insert name value)) ;;
  modify (set_scopes (alter (AddVar name) scope)).

(** *** [IRModuleScopeNode] *)

(** [structural_map.find(func)]. *)
Definition structural_map_find (func : BaseFunc) (m : list (BaseFunc * GlobalVar))
    : option GlobalVar :=
  snd <$> find (fun e => StructuralEqual (fst e) func) m.

(** [structural_map[func] = gv]. *)
Fixpoint structural_map_assign (func : BaseFunc) (gv : GlobalVar)
    (m : list (BaseFunc * GlobalVar)) : list (BaseFunc * GlobalVar) :=
  match m with
  | [] => [(func, gv)]
  | e :: m' =>
      if StructuralEqual (fst e) func then (fst e, gv) :: m'
      else e :: structural_map_assign func gv m'
  end.

(** [IRModuleScopeNode::Add].  [h] is the address the [GlobalVar] object
    is allocated at; the result carries the next free address. *)
Definition Add (name : string) (func : BaseFunc) (h : addr) (self : IRModuleScopeNode)
    : GlobalVar * (addr * IRModuleScopeNode) :=
  match structural_map_find func (structural_map self) with
  | Some gv => (gv, (h, self))
  | None =>
      let gv := mkGlobalVar h name in
      (gv, (S h, mkIRModuleScopeNode (<[gv := func]> (func_map self))
                                     (structural_map_assign func gv (structural_map self))))
  end.

(** A sequence of calls of [Add], each with its name hint and function:
    the symbols returned, the next free address and the table at the end. *)
Fixpoint Add_all (calls : list (string * BaseFunc)) (h : addr) (self : IRModuleScopeNode)
    : list GlobalVar * (addr * IRModuleScopeNode) :=
  match calls with
  | [] => ([], (h, self))
  | (name, func) :: calls' =>
      let '(gv, (h1, self1)) := Add name func h self in
      let '(gvs, r) := Add_all calls' h1 self1 in
      (gv :: gvs, r)
  end.

(** The state of a module scope that [Add] maintains, [h] being the next
    free address: every symbol of the table is an object allocated
    already; no two entries of [structural_map] have structurally equal
    functions or the same symbol; and [func_map] holds the same pairs as
    [structural_map]. *)
Definition IRModuleScope_wf (h : addr) (m : IRModuleScopeNode) : Prop :=
  (forall f g, (f, g) ∈ structural_map m -> gv_addr g < h)
  /\ (forall i j e1 e2,
        structural_map m !! i = Some e1 -> structural_map m !! j = Some e2 ->
        StructuralEqual (fst e1) (fst e2) = true \/ snd e1 = snd e2 -> i = j)
  /\ (forall g f, func_map m !! g = Some f <-> (f, g) ∈ structural_map m).

(** The tables a program can have: the table of a new module scope, and
    what [Add] makes of such a table; other objects may be allocated in
    between. *)
Inductive IRModuleScope_reachable : addr -> IRModuleScopeNode -> Prop :=
  | reachable_new (h : addr) :
      IRModuleScope_reachable h (mkIRModuleScopeNode ∅ [])
  | reachable_alloc (h : addr) (m : IRModuleScopeNode) :
      IRModuleScope_reachable h m -> IRModuleScope_reachable (S h) m
  | reachable_Add (h : addr) (m : IRModuleScopeNode) (name : string) (func : BaseFunc) :
      IRModuleScope_reachable h m ->
      IRModuleScope_reachable (fst (snd (Add name func h m)))
                              (snd (snd (Add name func h m))).

(** [IRModuleScopeNode::AsIRModule]: the module that the constructor
    makes of the function table. *)
Definition AsIRModule (self : IRModuleScopeNode) : Result IRModule :=
  IRModule_new (func_map self).

(** ** The IR builder ([src/relax/ir/ir_builder.cc]) *)

(** [RelayExprNode::checked_type()], declared in [tvm/ir/expr.h] and not
    in these sources: the cached type, checked to be defined. *)
Definition checked_type (e : Expr) : Result Ty :=
  match expr_checked_type_ e with
  | Some t => OK t
  | None =>
      Throw (ICHECK_failed
        "internal error: the type checker has not populated the checked_type field for ")
  end.

(** [InferShape]. *)
Definition InferShape (call : Call) : option Expr :=
  match call_shape_ call with
  | Some s => Some s
  | None =>
      let diag_ctx := DiagnosticContext_Default in
      match as_OpNode (call_op call) with
      | Some op =>
          match FInferShape_map op with
          | Some f => f call diag_ctx
          | None => None
          end
      | None => None
      end
  end.

(** [InferType]; the undefined [Type()] is [None]. *)
Definition InferType (call : Call) : option Ty :=
  match call_checked_type_ call with
  | Some t => Some t
  | None =>
      let diag_ctx := DiagnosticContext_Default in
      match as_OpNode (call_op call) with
      | Some op =>
          match FInferType_map op with
          | Some f => f call diag_ctx
          | None => None
          end
      | None => None
      end
  end.

(** [IRBuilderNode::CurrentBlockIsDataFlow]. *)
Definition CurrentBlockIsDataFlow : M bool :=
  self <- get ;;
  scope <- lift (back (scopes self)) ;;
  ret (is_DataflowScope scope).

(** [IRBuilderNode::LookupBinding]. *)
Definition LookupBinding (id : Id) : M Expr :=
  self <- get ;;
  match id2bind self !! id with
  | None => throw (LOG_FATAL "Cannot find binding for ")
  | Some e => ret e
  end.

(** [IRBuilderNode::BeginDataflowBlock] and [IRBuilderNode::BeginBindingBlock]. *)
Definition BeginDataflowBlock : M unit :=
  modify (set_scopes (fun l => l ++ [DataflowScope_new])).
Definition BeginBindingBlock : M unit :=
  modify (set_scopes (fun l => l ++ [NonDataflowScope_new])).

(** [IRBuilderNode::EndBlock]. *)
Definition EndBlock : M BindingBlock :=
  self <- get ;;
  (match scopes self with
   | [] => throw (CHECK_failed "!scopes.empty()")
   | _ => ret tt
   end) ;;
  scope <- PopScope ;;
  match node scope with
  | DataflowScopeNode bs => ret (mkDataflowBlock bs)
  | NonDataflowScopeNode bs => ret (mkBindingBlock bs)
  | _ => throw (ICHECK_failed "Invalid scope: ")
  end.

(** [IRBuilderNode::AddFuncToContext]. *)
Definition AddFuncToContext (func : BaseFunc) (func_name_hint : string) : M GlobalVar :=
  self <- get ;;
  match GetScope is_IRModuleScope self with
  | Some i =>
      match scopes self !! i with
      | Some (mkBaseScope vs cbs (IRModuleScope_ m)) =>
          let '(gv, (h, m')) := Add func_name_hint func (next_addr self) m in
          modify (set_next_addr (fun _ => h)) ;;
          modify (set_scopes (alter (fun _ => mkBaseScope vs cbs (IRModuleScope_ m')) i)) ;;
          ret gv
      | _ => throw (ICHECK_failed "No IRModuleScope in context")
      end
  | None => throw (ICHECK_failed "No IRModuleScope in context")
  end.

(** [IRBuilderNode::GetContextIRModule]. *)
Definition GetContextIRModule : M IRModule :=
  self <- get ;;
  match GetScope is_IRModuleScope self with
  | Some i =>
      match scopes self !! i with
      | Some (mkBaseScope _ _ (IRModuleScope_ m)) => lift (AsIRModule m)
      | _ => throw (ICHECK_failed "No IRModuleScope in context")
      end
  | None => throw (ICHECK_failed "No IRModuleScope in context")
  end.

(** [IRBuilderNode::Emit(const VarBinding&)]. *)
Definition Emit (binding : VarBinding) : M Var :=
  self <- get ;;
  scope <- lift (back (scopes self)) ;;
  (match node scope with
   | DataflowScopeNode _ =>
       ICHECK (var_is_dataflow (vb_var binding))
         "Emit can only be used for local bindings in a dataflow block, use EmitOutput for output bindings instead" ;;
       modify (set_scopes (alter_back (bindings_push_back (Binding_VarBinding binding))))
   | NonDataflowScopeNode _ =>
       modify (set_scopes (alter_back (bindings_push_back (Binding_VarBinding binding))))
   | _ => throw (LOG_FATAL "Invalid scope: ")
   end) ;;
  modify (set_id2bind (insert (vid (vb_var binding)) (vb_value binding))) ;;
  ret (vb_var binding).

(** [IRBuilderNode::EmitOutput(const VarBinding&)]. *)
Definition EmitOutput (binding : VarBinding) : M Var :=
  self <- get ;;
  scope <- lift (back (scopes self)) ;;
  (match node scope with
   | DataflowScopeNode _ =>
       ICHECK (var_is_dataflow (vb_var binding))
         "EmitOutput has to be called inside dataflow block." ;;
       modify (set_scopes (alter_back (bindings_push_back (Binding_VarBinding binding))))
   | _ => throw (LOG_FATAL "Invalid scope: ")
   end) ;;
  modify (set_id2bind (insert (vid (vb_var binding)) (vb_value binding))) ;;
  ret (vb_var binding).

(** [IRBuilderNode::EmitMatchShape(const MatchShape&)].  The update of
    [id2bind] is commented out in the source. *)
Definition EmitMatchShape (binding : MatchShape) : M Var :=
  self <- get ;;
  scope <- lift (back (scopes self)) ;;
  (match node scope with
   | DataflowScopeNode _ =>
       ICHECK (var_is_dataflow (ms_var binding))
         "EmitMatchShape can only be used for local bindings in a dataflow block." ;;
       modify (set_scopes (alter_back (bindings_push_back (Binding_MatchShape binding))))
   | NonDataflowScopeNode _ =>
       ICHECK (negb (var_is_dataflow (ms_var binding)))
         "cannot emit dataflow vars outside a dataflow block: " ;;
       modify (set_scopes (alter_back (bindings_push_back (Binding_MatchShape binding))))
   | _ => throw (LOG_FATAL "Invalid scope: ")
   end) ;;
  ret (ms_var binding).

(** [Id(name)]: a new [Id] object. *)
Definition Id_new (name : string) : M Id :=
  self <- get ;;
  modify (set_next_addr S) ;;
  ret (mkId (next_addr self) name).

(** [name_hint.value_or(dflt)]. *)
Definition value_or (name_hint : option string) (dflt : string) : string :=
  match name_hint with Some n => n | None => dflt end.

(** [CreateScopedVar]. *)
Definition CreateScopedVar (name_hint : option string) : M Var :=
  self <- get ;;
  scope <- lift (back (scopes self)) ;;
  if is_DataflowScope scope then
    name <- lift (GetUniqueName self (value_or name_hint "lv")) ;;
    id <- Id_new name ;;
    ret (mkVar true id None None)
  else if is_NonDataflowScope scope then
    name <- lift (GetUniqueName self (value_or name_hint "gv")) ;;
    id <- Id_new name ;;
    ret (mkVar false id None None)
  else throw (LOG_FATAL "Invalid scope: ").

Definition set_var_shape_ (s : option Expr) (v : Var) : Var :=
  mkVar (var_is_dataflow v) (vid v) s (var_checked_type_ v).
Definition set_var_checked_type_ (t : option Ty) (v : Var) : Var :=
  mkVar (var_is_dataflow v) (vid v) (var_shape_ v) t.
Definition set_call_shape_ (s : option Expr) (c : Call) : Call :=
  mkCall (call_op c) (call_args c) s (call_checked_type_ c).
Definition set_call_checked_type_ (t : option Ty) (c : Call) : Call :=
  mkCall (call_op c) (call_args c) (call_shape_ c) t.

(** [CreateVarBinding].  [new_call] is the copy of the call node made by
    [make_object<CallNode>]; the binding is built from [expr]. *)
Definition CreateVarBinding (var : Var) (expr : Expr) : Result VarBinding :=
  match as_CallNode expr with
  | Some call =>
      let new_call := mkCall (call_op call) (call_args call)
                             (call_shape_ call) (call_checked_type_ call) in
      let new_call := set_call_shape_ (InferShape call) new_call in
      let var := set_var_shape_ (call_shape_ new_call) var in
      let new_call := set_call_checked_type_ (InferType call) new_call in
      let var := set_var_checked_type_ (call_checked_type_ new_call) var in
      OK (mkVarBinding var expr)
  | None =>
  match as_VarNode expr with
  | Some rhs_var =>
      let var := set_var_shape_ (var_shape_ rhs_var) var in
      let var := set_var_checked_type_ (var_checked_type_ rhs_var) var in
      OK (mkVarBinding var expr)
  | None =>
  match as_TupleGetItemNode expr with
  | Some (tuple, i) =>
      match as_VarNode tuple with
      | None =>
          Throw (ICHECK_failed
            "TypeError: Invalid type as the tuple field of TupleGetItem: ")
      | Some rhs_var =>
          match (match as_TupleNode (var_shape_ rhs_var) with
                 | Some fields =>
                     match Array_at fields i with
                     | OK x => OK (set_var_shape_ (Some x) var)
                     | Throw e => Throw e
                     end
                 | None => OK var
                 end) with
          | Throw e => Throw e
          | OK var =>
              match as_TupleTypeNode (var_checked_type_ rhs_var) with
              | Some fields =>
                  match Array_at fields i with
                  | OK x => OK (mkVarBinding (set_var_checked_type_ (Some x) var) expr)
                  | Throw e => Throw e
                  end
              | None => OK (mkVarBinding var expr)
              end
          end
      end
  | None => OK (mkVarBinding var expr)
  end end end.

(** [IRBuilderNode::Emit(const Expr&, const Optional<String>&)]. *)
Definition Emit_expr (expr : Expr) (name_hint : option string) : M Var :=
  var <- CreateScopedVar name_hint ;;
  binding <- lift (CreateVarBinding var expr) ;;
  Emit binding.

(** [IRBuilderNode::EmitMatchShape(const Expr&, const Array<PrimExpr>&,
    const Optional<String>&)]. *)
Definition EmitMatchShape_expr (value : Expr) (pattern : list PrimExpr)
    (name_hint : option string) : M Var :=
  var <- CreateScopedVar name_hint ;;
  ty <- lift (checked_type value) ;;
  var <- (match ty with
          | ShapeType => ret (set_var_checked_type_ (Some ShapeType) var)
          | DynTensorType _ dtype =>
              let var := set_var_shape_ (Some (ShapeExpr pattern)) var in
              ret (set_var_checked_type_
                     (Some (DynTensorType (int_of_size_t (length pattern)) dtype)) var)
          | _ =>
              throw (LOG_FATAL
                "TypeError: Invalid type of value, must be of DynTensorType or ShapeType: ")
          end) ;;
  EmitMatchShape (mkMatchShape value pattern var).

(** [IRBuilderNode::EmitOutput(const Expr&, const Optional<String>&)].
    It hands the binding to [Emit]. *)
Definition EmitOutput_expr (output : Expr) (name_hint : option string) : M Var :=
  self <- get ;;
  scope <- lift (back (scopes self)) ;;
  if is_DataflowScope scope then
    name <- lift (GetUniqueName self (value_or name_hint "gv")) ;;
    id <- Id_new name ;;
    binding <- lift (CreateVarBinding (mkVar false id None None) output) ;;
    Emit binding
  else throw (LOG_FATAL "Invalid scope: ").

(** ** Sequences of calls *)

(** The calls a client makes on the scope stack. *)
Inductive ScopeOp : Type :=
  | Op_PushScope (scope : BaseScope)
  | Op_PopScope
  | Op_AddVars (name : string) (value : ObjectRef) (scope : nat)
  | Op_AddCallback (scope : nat) (cb : Callback).

Definition run_ScopeOp (op : ScopeOp) : M unit :=
  match op with
  | Op_PushScope scope => PushScope scope ;; ret tt
  | Op_PopScope => PopScope ;; ret tt
  | Op_AddVars name value scope => AddVars name value scope
  | Op_AddCallback scope cb => modify (set_scopes (alter (AddCallback cb) scope))
  end.

Fixpoint run_ScopeOps (ops : list ScopeOp) : M unit :=
  match ops with
  | [] => ret tt
  | op :: ops' => run_ScopeOp op ;; run_ScopeOps ops'
  end.

(** The calls made between the push of the scope at index [d] of the stack
    and the matching pop, [depth] being the height of the stack before the
    first of them: no pop takes the stack down to the scope at index [d],
    the scopes pushed in between are freshly constructed, every name is
    registered to a scope that is on the stack at index [d] or above, and
    at the end the scope at index [d] is the innermost again. *)
Fixpoint nested (d depth : nat) (ops : list ScopeOp) : Prop :=
  match ops with
  | [] => depth = S d
  | Op_PushScope scope :: ops' => vars scope = [] /\ nested d (S depth) ops'
  | Op_PopScope :: ops' => S d < depth /\ nested d (pred depth) ops'
  | Op_AddVars _ _ scope :: ops' => d <= scope < depth /\ nested d depth ops'
  | Op_AddCallback _ _ :: ops' => nested d depth ops'
  end.

(** The names that the calls register to the scope at index [d], and the
    callbacks they register on it, in the order of the calls. *)
Fixpoint added_vars (d : nat) (ops : list ScopeOp) : list string :=
  match ops with
  | [] => []
  | Op_AddVars name _ scope :: ops' =>
      if decide (scope = d) then name :: added_vars d ops' else added_vars d ops'
  | _ :: ops' => added_vars d ops'
  end.
Fixpoint added_callbacks (d : nat) (ops : list ScopeOp) : list Callback :=
  match ops with
  | [] => []
  | Op_AddCallback scope cb :: ops' =>
      if decide (scope = d) then cb :: added_callbacks d ops' else added_callbacks d ops'
  | _ :: ops' => added_callbacks d ops'
  end.

(** The names owned by the scopes at index [d] and above. *)
Definition inner_names (d : nat) (self : IRBuilderNode) : list string :=
  concat (vars <$> drop d (scopes self)).

(** The relation between the registry [R0] before the push of the scope at
    index [d] and the registry now: the names owned at index [d] and above
    are distinct, are registered now and were not registered then; every
    other name is registered now as it was then. *)
Definition registry_extends (d : nat) (R0 : gmap string ObjectRef) (self : IRBuilderNode) : Prop :=
  NoDup (inner_names d self)
  /\ (forall k, k ∈ inner_names d self ->
        R0 !! k = None /\ is_Some (name2value self !! k))
  /\ (forall k, k ∉ inner_names d self -> name2value self !! k = R0 !! k).

(** The calls a client makes on the builder. *)
Inductive BuilderOp : Type :=
  | Op_BeginDataflowBlock
  | Op_BeginBindingBlock
  | Op_EndBlock
  | Op_Emit (binding : VarBinding)
  | Op_EmitOutput (binding : VarBinding)
  | Op_EmitMatchShape (binding : MatchShape)
  | Op_Emit_expr (expr : Expr) (name_hint : option string)
  | Op_EmitOutput_expr (output : Expr) (name_hint : option string)
  | Op_EmitMatchShape_expr (value : Expr) (pattern : list PrimExpr)
      (name_hint : option string).

(** One call; the answer is the variable passed to or made by a
    successful [Emit] or [EmitOutput], and nothing for any other call. *)
Definition run_BuilderOp (op : BuilderOp) (self : IRBuilderNode)
    : option Var * IRBuilderNode :=
  let emitted (r : Result Var * IRBuilderNode) :=
    match r with
    | (OK v, self') => (Some v, self')
    | (Throw _, self') => (None, self')
    end in
  match op with
  | Op_BeginDataflowBlock => (None, snd (BeginDataflowBlock self))
  | Op_BeginBindingBlock => (None, snd (BeginBindingBlock self))
  | Op_EndBlock => (None, snd (EndBlock self))
  | Op_Emit b => emitted (Emit b self)
  | Op_EmitOutput b => emitted (EmitOutput b self)
  | Op_EmitMatchShape b => (None, snd (EmitMatchShape b self))
  | Op_Emit_expr e h => emitted (Emit_expr e h self)
  | Op_EmitOutput_expr e h => emitted (EmitOutput_expr e h self)
  | Op_EmitMatchShape_expr v p h => (None, snd (EmitMatchShape_expr v p h self))
  end.

(** A sequence of calls, a raised error being caught by the client before
    the next call: the identities recorded by [Emit] and [EmitOutput], and
    the builder at the end. *)
Fixpoint run_BuilderOps (ops : list BuilderOp) (self : IRBuilderNode)
    : list Id * IRBuilderNode :=
  match ops with
  | [] => ([], self)
  | op :: ops' =>
      let '(r, self') := run_BuilderOp op self in
      let '(ids, self'') := run_BuilderOps ops' self' in
      (match r with Some v => vid v :: ids | None => ids end, self'')
  end.

(** ** Clients of the builder *)

(** The loop of a client that emits bindings one after the other. *)
Definition Emit_each (bindings : list VarBinding) : M unit :=
  for_each bindings (fun b => Emit b ;; ret tt).

(** A block built from its bindings: the block is opened, the bindings
    are emitted and the block is closed. *)
Definition build_block (dataflow : bool) (bindings : list VarBinding) : M BindingBlock :=
  (if dataflow then BeginDataflowBlock else BeginBindingBlock) ;;
  Emit_each bindings ;;
  EndBlock.

(** The registry holds the names owned by the scopes of the stack, and no
    name is owned twice. *)
Definition registry_owned (self : IRBuilderNode) : Prop :=
  NoDup (inner_names 0 self)
  /\ (forall k, is_Some (name2value self !! k) <-> k ∈ inner_names 0 self).

(** Calls on a stack of height [depth] that push freshly constructed
    scopes and register names to scopes that are on the stack. *)
Fixpoint owners_on_stack (depth : nat) (ops : list ScopeOp) : Prop :=
  match ops with
  | [] => True
  | Op_PushScope scope :: ops' => vars scope = [] /\ owners_on_stack (S depth) ops'
  | Op_PopScope :: ops' => owners_on_stack (pred depth) ops'
  | Op_AddVars _ _ scope :: ops' => scope < depth /\ owners_on_stack depth ops'
  | Op_AddCallback _ _ :: ops' => owners_on_stack depth ops'
  end.

(** A builder that was driven through the methods of [IRBuilderNode]
    only: the scopes are blocks that own no name, and no name is
    registered. *)
Definition only_blocks (self : IRBuilderNode) : Prop :=
  name2value self = ∅
  /\ Forall (fun s => is_block s = true /\ vars s = []) (scopes self).

(** The variable that a binding binds. *)
Definition binding_var (b : Binding) : Var :=
  match b with
  | Binding_VarBinding b => vb_var b
  | Binding_MatchShape b => ms_var b
  end.

(** Every binding of a dataflow scope binds a local variable; and this
    holds of every scope of the stack. *)
Definition local_bindings (s : BaseScope) : Prop :=
  is_DataflowScope s = true ->
  Forall (fun b => var_is_dataflow (binding_var b) = true) (scope_bindings s).
Definition dataflow_local (self : IRBuilderNode) : Prop :=
  Forall local_bindings (scopes self).

End Builder.

Arguments mkIRModuleScopeNode {BaseFunc} _ _.
Arguments func_map {BaseFunc} _.
Arguments structural_map {BaseFunc} _.
Arguments BaseScopeNode {BaseFunc}.
Arguments IRModuleScope_ {BaseFunc} _.
Arguments DataflowScopeNode {BaseFunc} _.
Arguments NonDataflowScopeNode {BaseFunc} _.
Arguments mkBaseScope {BaseFunc} _ _ _.
Arguments vars {BaseFunc} _.
Arguments callbacks {BaseFunc} _.
Arguments node {BaseFunc} _.
Arguments AddVar {BaseFunc} _ _.
Arguments AddCallback {BaseFunc} _ _.
Arguments is_DataflowScope {BaseFunc} _.
Arguments is_NonDataflowScope {BaseFunc} _.
Arguments is_IRModuleScope {BaseFunc} _.
Arguments bindings_push_back {BaseFunc} _ _.
Arguments scope_bindings {BaseFunc} _.
Arguments mkIRBuilderNode {BaseFunc} _ _ _ _ _.
Arguments scopes {BaseFunc} _.
Arguments name2value {BaseFunc} _.
Arguments id2bind {BaseFunc} _.
Arguments next_addr {BaseFunc} _.
Arguments called {BaseFunc} _.
Arguments set_scopes {BaseFunc} _ _.
Arguments set_name2value {BaseFunc} _ _.
Arguments set_id2bind {BaseFunc} _ _.
Arguments set_next_addr {BaseFunc} _ _.
Arguments set_called {BaseFunc} _ _.
Arguments ret {BaseFunc A} _ _.
Arguments throw {BaseFunc A} _ _.
Arguments bind {BaseFunc A B} _ _ _.
Arguments get {BaseFunc} _.
Arguments modify {BaseFunc} _ _.
Arguments lift {BaseFunc A} _ _.
Arguments ICHECK {BaseFunc} _ _ _.
Arguments GetUniqueName {BaseFunc} _ _.
Arguments GetUniqueName_twice {BaseFunc} _ _.
Arguments is_block {BaseFunc} _.
Arguments GetScope {BaseFunc} _ _.
Arguments GetScope_loop {BaseFunc} _ _ _.
Arguments PushScope {BaseFunc} _ _.
Arguments call_Callback {BaseFunc} _ _.
Arguments for_each {BaseFunc A} _ _ _.
Arguments PopScope {BaseFunc} _.
Arguments GetVar {BaseFunc} _ _.
Arguments AddVars {BaseFunc} _ _ _ _.
Arguments structural_map_find {BaseFunc} _ _ _.
Arguments structural_map_assign {BaseFunc} _ _ _ _.
Arguments Add {BaseFunc} _ _ _ _ _.
Arguments AsIRModule {BaseFunc IRModule} _ _.
Arguments Add_all {BaseFunc} _ _ _ _.
Arguments IRModuleScope_wf {BaseFunc} _ _ _.
Arguments IRModuleScope_reachable {BaseFunc} _ _ _.
Arguments CurrentBlockIsDataFlow {BaseFunc} _.
Arguments LookupBinding {BaseFunc} _ _.
Arguments BeginDataflowBlock {BaseFunc} _.
Arguments BeginBindingBlock {BaseFunc} _.
Arguments EndBlock {BaseFunc} _.
Arguments AddFuncToContext {BaseFunc} _ _ _ _.
Arguments GetContextIRModule {BaseFunc IRModule} _ _.
Arguments Emit {BaseFunc} _ _.
Arguments EmitOutput {BaseFunc} _ _.
Arguments EmitMatchShape {BaseFunc} _ _.
Arguments Id_new {BaseFunc} _ _.
Arguments CreateScopedVar {BaseFunc} _ _.
Arguments Emit_expr {BaseFunc} _ _ _ _ _.
Arguments EmitMatchShape_expr {BaseFunc} _ _ _ _.
Arguments EmitOutput_expr {BaseFunc} _ _ _ _ _.
Arguments Op_PushScope {BaseFunc} _.
Arguments Op_PopScope {BaseFunc}.
Arguments Op_AddVars {BaseFunc} _ _ _.
Arguments Op_AddCallback {BaseFunc} _ _.
Arguments run_ScopeOp {BaseFunc} _ _.
Arguments run_ScopeOps {BaseFunc} _ _.
Arguments nested {BaseFunc} _ _ _.
Arguments added_vars {BaseFunc} _ _.
Arguments added_callbacks {BaseFunc} _ _.
Arguments inner_names {BaseFunc} _ _.
Arguments registry_extends {BaseFunc} _ _ _.
Arguments run_BuilderOp {BaseFunc} _ _ _ _.
Arguments run_BuilderOps {BaseFunc} _ _ _ _.
Arguments Emit_each {BaseFunc} _ _.
Arguments build_block {BaseFunc} _ _ _.
Arguments registry_owned {BaseFunc} _.
Arguments owners_on_stack {BaseFunc} _ _.
Arguments only_blocks {BaseFunc} _.
Arguments local_bindings {BaseFunc} _.
Arguments dataflow_local {BaseFunc} _.

(** ** A concrete instance

    A function is an object with a body; structural equality compares the
    bodies and ignores the identity.  One operator, [relax.add], has
    inference functions registered: the result has the shape and the type
    of the first argument. *)
Module Demo.

Record Func : Type := mkFunc { func_addr : addr; func_body : string }.

Definition StructuralEqual (f g : Func) : bool :=
  bool_decide (func_body f = func_body g).

Definition FInferShape_map (op : string)
    : option (Call -> DiagnosticContext -> option Expr) :=
  if bool_decide (op = "relax.add")
  then Some (fun call _ =>
               match call_args call with
               | a :: _ => expr_shape_ a
               | [] => None
               end)
  else None.

Definition FInferType_map (op : string)
    : option (Call -> DiagnosticContext -> option Ty) :=
  if bool_decide (op = "relax.add")
  then Some (fun call _ =>
               match call_args call with
               | a :: _ => expr_checked_type_ a
               | [] => None
               end)
  else None.

(** The module of the instance is its function table, and the
    constructor accepts every table. *)
Definition IRModule : Type := gmap GlobalVar Func.
Definition IRModule_new (functions : gmap GlobalVar Func) : Result IRModule :=
  OK functions.

(** A builder whose client has allocated objects at addresses 0 to 9. *)
Definition start : IRBuilderNode Func :=
  set_next_addr (fun _ => 10) (IRBuilder_new Func).

(** The builder inside a dataflow block, and inside a binding block. *)
Definition in_dataflow : IRBuilderNode Func := snd (BeginDataflowBlock start).
Definition in_binding : IRBuilderNode Func := snd (BeginBindingBlock start).

(** The builder inside a dataflow block, with the name [lv0] registered
    to the block. *)
Definition with_lv0 : IRBuilderNode Func := snd (AddVars "lv0" 0 0 in_dataflow).

(** The builder inside a module scope only. *)
Definition in_module : IRBuilderNode Func :=
  snd (PushScope (IRModuleScope_new Func) start).

(** A global variable [x] : tensor of rank 2, and a local variable [y]. *)
Definition x : Var :=
  mkVar false (mkId 0 "x")
        (Some (ShapeExpr [IntImm 2; IntImm 3]))
        (Some (DynTensorType 2 "float32")).
Definition y : Var := mkVar true (mkId 1 "y") None None.

(** A shape-typed variable and a variable of an unrelated type. *)
Definition s : Var := mkVar false (mkId 2 "s") None (Some ShapeType).
Definition o : Var := mkVar false (mkId 3 "o") None (Some (OtherType "ObjectType")).

(** A tuple-typed variable [t] = ([x], [s]). *)
Definition t : Var :=
  mkVar false (mkId 4 "t")
        (Some (mkExpr (TupleNode [ShapeExpr [IntImm 2; IntImm 3]; ShapeExpr []]) None None))
        (Some (TupleType [DynTensorType 2 "float32"; ShapeType])).

(** A variable whose shape is a tuple although its type is not known. *)
Definition u : Var :=
  mkVar false (mkId 5 "u")
        (Some (mkExpr (TupleNode [ShapeExpr [IntImm 7]]) None None))
        None.

Definition op_add : Expr := mkExpr (OpNode "relax.add") None None.
Definition op_unknown : Expr := mkExpr (OpNode "relax.unknown") None None.

(** [relax.add(x, x)], a call of an operator without inference
    functions, and the same call with a shape cached by an earlier pass. *)
Definition add_x_x : Expr :=
  mkExpr (CallNode op_add [Expr_of_Var x; Expr_of_Var x]) None None.
Definition unknown_x : Expr :=
  mkExpr (CallNode op_unknown [Expr_of_Var x]) None None.
Definition unknown_x_cached : Expr :=
  mkExpr (CallNode op_unknown [Expr_of_Var x])
         (Some (ShapeExpr [IntImm 5])) (Some (DynTensorType 1 "int32")).

(** [t[0]], and a projection out of a tuple literal. *)
Definition t_0 : Expr := mkExpr (TupleGetItemNode (Expr_of_Var t) 0) None None.
Definition u_0 : Expr := mkExpr (TupleGetItemNode (Expr_of_Var u) 0) None None.
Definition tuple_literal_0 : Expr :=
  mkExpr (TupleGetItemNode
            (mkExpr (TupleNode [Expr_of_Var x; Expr_of_Var s]) None None) 0)
         None None.

(** Two functions with the same body, and a third with another body. *)
Definition f1 : Func := mkFunc 6 "return x + 1".
Definition f2 : Func := mkFunc 7 "return x + 1".
Definition f3 : Func := mkFunc 8 "return x * 2".

(** A sequence of calls on the builder: a dataflow block is opened, the
    shape of [x] is matched, and [relax.add(x, x)] is emitted. *)
Definition match_then_emit : list BuilderOp :=
  [Op_BeginDataflowBlock;
   Op_EmitMatchShape_expr (Expr_of_Var x) [tir_Var "n"; tir_Var "m"] None;
   Op_Emit_expr add_x_x None].

(** The builder inside a module scope that owns the name [g]. *)
Definition with_g : IRBuilderNode Func := snd (AddVars "g" 1 0 in_module).

(** Calls made while the scope at index 1 is open: names and callbacks
    are registered on it, around a nested scope with a name and a callback
    of its own. *)
Definition nested_ops : list (ScopeOp Func) :=
  [Op_AddVars "a" 2 1;
   Op_AddCallback 1 (mkCallback 1);
   Op_PushScope (mkBaseScope [] [mkCallback 7] (NonDataflowScopeNode []));
   Op_AddVars "b" 3 2;
   Op_AddCallback 1 (mkCallback 2);
   Op_PopScope;
   Op_AddVars "c" 4 1].

(** The builder inside a dataflow block to which [y] = [x] was emitted. *)
Definition emitted_y : IRBuilderNode Func :=
  snd (Emit (mkVarBinding y (Expr_of_Var x)) in_dataflow).

(** Two more local variables, and three bindings, the last of which binds
    [y] a second time. *)
Definition z : Var := mkVar true (mkId 9 "z") None None.
Definition three_bindings : list VarBinding :=
  [mkVarBinding y (Expr_of_Var x);
   mkVarBinding z add_x_x;
   mkVarBinding y (Expr_of_Var z)].

(** The builder inside a dataflow block inside a module scope. *)
Definition block_in_module : IRBuilderNode Func :=
  snd (BeginDataflowBlock in_module).

(** Calls on the scope stack that open two scopes, register names to
    both, and close them. *)
Definition balanced_ops : list (ScopeOp Func) :=
  [Op_PushScope (IRModuleScope_new Func);
   Op_AddVars "g" 1 0;
   Op_PushScope (DataflowScope_new Func);
   Op_AddVars "a" 2 1;
   Op_AddVars "h" 3 0;
   Op_AddCallback 1 (mkCallback 1);
   Op_PopScope;
   Op_PopScope].

(** The variable that [CreateScopedVar] makes first inside a dataflow
    block. *)
Definition fresh_lv0 : Var := mkVar true (mkId 10 "lv0") None None.

(** The builder after [relax.add(x, x)] was emitted once, and twice,
    inside a dataflow block; and the variable that such a call makes at
    address [a]. *)
Definition emitted_once : IRBuilderNode Func :=
  snd (Emit_expr FInferShape_map FInferType_map add_x_x None in_dataflow).
Definition emitted_twice : IRBuilderNode Func :=
  snd (Emit_expr FInferShape_map FInferType_map add_x_x None emitted_once).
Definition lv (a : addr) : Var :=
  mkVar true (mkId a "lv0")
        (Some (ShapeExpr [IntImm 2; IntImm 3]))
        (Some (DynTensorType 2 "float32")).

(** A dataflow block is opened and [relax.add(x, x)] is emitted twice;
    then the block is ended and a binding block is opened. *)
Definition two_emits : list BuilderOp :=
  [Op_BeginDataflowBlock;
   Op_Emit_expr add_x_x None;
   Op_Emit_expr add_x_x None].
Definition two_blocks : list BuilderOp :=
  two_emits ++ [Op_EndBlock; Op_BeginBindingBlock].

(** A dataflow scope is pushed on a module scope, the name [a] is
    registered to the module scope while the dataflow scope is open, and
    the dataflow scope is popped. *)
Definition outer_name_ops : list (ScopeOp Func) :=
  [Op_PushScope (DataflowScope_new Func);
   Op_AddVars "a" 2 0;
   Op_PopScope].

(** A scope that has owned the name [n]: [PopScope] returns it with the
    name still listed.  And the builder after that scope was pushed, given
    the name and popped, and the name was registered again, to a new
    scope. *)
Definition stale_scope : BaseScope Func := mkBaseScope ["n"] [] (DataflowScopeNode []).
Definition before_repush : IRBuilderNode Func :=
  snd (run_ScopeOps
         [Op_PushScope (DataflowScope_new Func);
          Op_AddVars "n" 1 0;
          Op_PopScope;
          Op_PushScope (NonDataflowScope_new Func);
          Op_AddVars "n" 7 0] start).

End Demo.

(** * Properties *)

(** ** Containers *)

Lemma back_snoc {A} (l : list A) (x : A) : back (l ++ [x]) = OK x.
Proof. unfold back. by rewrite last_snoc. Qed.

Lemma back_OK {A} (l : list A) (x : A) :
  back l = OK x -> l = pop_back l ++ [x].
Proof.
  unfold back, pop_back. destruct (last l) as [y|] eqn:E; [|done].
  intros [= ->]. apply last_Some in E as [l' ->]. by rewrite removelast_last.
Qed.

Lemma back_Throw {A} (l : list A) (e : Error) :
  back l = Throw e -> l = [].
Proof.
  unfold back. destruct (last l) eqn:E; [done|]. intros _. by apply last_None.
Qed.

Lemma alter_back_snoc {A} (f : A -> A) (l : list A) (x : A) :
  alter_back f (l ++ [x]) = l ++ [f x].
Proof. unfold alter_back. by rewrite last_snoc, removelast_last. Qed.

Lemma alter_back_OK {A} (f : A -> A) (l : list A) (x : A) :
  back l = OK x -> alter_back f l = pop_back l ++ [f x].
Proof.
  intros H. rewrite (back_OK _ _ H) at 1.
  rewrite alter_back_snoc. done.
Qed.

Lemma pop_back_snoc {A} (l : list A) (x : A) : pop_back (l ++ [x]) = l.
Proof. apply removelast_last. Qed.

(** ** The monad *)

Ltac unfold_M :=
  unfold ICHECK in *; unfold bind, get, lift, modify, ret, throw in *; simpl in *.

Ltac break_match := repeat (case_match; simplify_eq/=).

Lemma bind_OK {BaseFunc A B} (c : M BaseFunc A) (k : A -> M BaseFunc B)
    (self self' : IRBuilderNode BaseFunc) (a : A) :
  c self = (OK a, self') -> bind c k self = k a self'.
Proof. unfold bind. by intros ->. Qed.

Lemma bind_ret {BaseFunc A B} (a : A) (k : A -> M BaseFunc B)
    (self : IRBuilderNode BaseFunc) :
  bind (ret a) k self = k a self.
Proof. done. Qed.

Lemma bind_Throw {BaseFunc A B} (c : M BaseFunc A) (k : A -> M BaseFunc B)
    (self self' : IRBuilderNode BaseFunc) (e : Error) :
  c self = (Throw e, self') -> bind c k self = (Throw e, self').
Proof. unfold bind. by intros ->. Qed.

Lemma bind_lift_OK {BaseFunc A B} (a : A) (k : A -> M BaseFunc B)
    (self : IRBuilderNode BaseFunc) :
  bind (lift (OK a)) k self = k a self.
Proof. done. Qed.

Lemma bind_lift_Throw {BaseFunc A B} (e : Error) (k : A -> M BaseFunc B)
    (self : IRBuilderNode BaseFunc) :
  bind (lift (Throw e)) k self = (Throw e, self).
Proof. done. Qed.

(** ** Unique names *)

Section UniqueName.

Variable name2value : gmap string ObjectRef.
Variable prefix : string.

Local Abbreviation candidate := (candidate prefix).

Lemma candidate_inj : Inj (=) (=) candidate.
Proof.
  intros a b H. unfold candidate, to_string in H.
  apply (inj (String.app prefix)) in H.
  apply (inj pretty) in H. lia.
Qed.

(** Not every one of the first [size + 1] candidates is registered. *)
Lemma candidate_free_exists :
  exists k, k <= size name2value /\ name2value !! candidate k = None.
Proof.
  destruct (decide (Forall (fun k => is_Some (name2value !! candidate k))
                           (seq 0 (S (size name2value))))) as [Hall|Hex].
  - exfalso.
    assert (Hsub : list_to_set (C := gset string)
                     (candidate <$> seq 0 (S (size name2value))) ⊆ dom name2value).
    { intros n Hn. apply elem_of_list_to_set, list_elem_of_fmap in Hn
        as (k & -> & Hk).
      apply elem_of_dom. rewrite Forall_forall in Hall. by apply Hall. }
    apply subseteq_size in Hsub.
    rewrite size_list_to_set in Hsub.
    + rewrite length_fmap, length_seq, size_dom in Hsub. lia.
    + apply (NoDup_fmap_2 _). apply NoDup_seq.
  - apply not_Forall_Exists in Hex; [|apply _].
    apply Exists_exists in Hex as (k & Hk & Hnone).
    exists k. apply elem_of_seq in Hk. split; [lia|].
    by apply eq_None_not_Some.
Qed.

(** The first free candidate. *)
Lemma candidate_first_free_exists :
  exists k, k <= size name2value /\ name2value !! candidate k = None /\
            forall j, j < k -> is_Some (name2value !! candidate j).
Proof.
  destruct candidate_free_exists as (k0 & Hle & Hfree).
  revert Hle Hfree. induction k0 as [k0 IH] using lt_wf_ind. intros Hle Hfree.
  destruct (decide (Forall (fun j => is_Some (name2value !! candidate j)) (seq 0 k0)))
    as [Hall|Hex].
  - exists k0. split_and!; [done..|].
    intros j Hj. rewrite Forall_forall in Hall. apply Hall, elem_of_seq. lia.
  - apply not_Forall_Exists in Hex; [|apply _].
    apply Exists_exists in Hex as (j & Hj & Hnone).
    apply elem_of_seq in Hj.
    apply (IH j); [lia|lia|by apply eq_None_not_Some].
Qed.

(** The loop finds the first free candidate at or after its counter. *)
Lemma GetUniqueName_loop_first_free (fuel i k : nat) :
  i <= k -> k - i < fuel -> (Z.of_nat k <= INT_MAX)%Z ->
  name2value !! candidate k = None ->
  (forall j, i <= j < k -> is_Some (name2value !! candidate j)) ->
  GetUniqueName_loop name2value prefix fuel (Z.of_nat i) = OK (candidate k).
Proof.
  revert i. induction fuel as [|fuel IH]; intros i Hik Hfuel Hmax Hfree Hbelow; [lia|].
  simpl. change (prefix +:+ to_string (Z.of_nat i)) with (candidate i).
  destruct (decide (name2value !! candidate i = None)) as [Hi|Hi].
  - destruct (decide (i = k)) as [->|Hne]; [done|].
    destruct (Hbelow i) as [v Hv]; [lia|]. congruence.
  - assert (i <> k) by congruence.
    destruct (decide (Z.of_nat i = INT_MAX)) as [Heq|_]; [lia|].
    replace (Z.of_nat i + 1)%Z with (Z.of_nat (S i)) by lia.
    apply IH; [lia|lia|done|done|]. intros j Hj. apply Hbelow. lia.
Qed.

End UniqueName.

Lemma GetUniqueName_total (BaseFunc : Type) (self : IRBuilderNode BaseFunc)
    (prefix : string) :
  (Z.of_nat (size (name2value self)) <= INT_MAX)%Z ->
  exists k,
    GetUniqueName self prefix = OK (candidate prefix k)
    /\ name2value self !! candidate prefix k = None
    /\ (forall j, j < k -> is_Some (name2value self !! candidate prefix j)).
Proof.
  intros Hsize.
  destruct (candidate_first_free_exists (name2value self) prefix)
    as (k & Hk & Hfree & Hbelow).
  exists k. split_and!; [|done..].
  unfold GetUniqueName.
  apply (GetUniqueName_loop_first_free (name2value self) prefix _ 0 k);
    [lia|lia|lia|done|].
  intros j Hj. apply Hbelow. lia.
Qed.

(** The loop ends without a name only by the overflow of its counter, and
    then every candidate up to [INT_MAX] is registered: the fuel given by
    [GetUniqueName] never runs out. *)
Lemma GetUniqueName_Throw (BaseFunc : Type) (self : IRBuilderNode BaseFunc)
    (prefix : string) (e : Error) :
  GetUniqueName self prefix = Throw e ->
  e = SignedOverflow
  /\ forall j, (Z.of_nat j <= INT_MAX)%Z ->
       is_Some (name2value self !! candidate prefix j).
Proof.
  intros Hthrow.
  destruct (candidate_first_free_exists (name2value self) prefix)
    as (k & Hk & Hfree & Hbelow).
  destruct (decide (Z.of_nat k <= INT_MAX)%Z) as [Hle|Hgt].
  - unfold GetUniqueName in Hthrow.
    rewrite (GetUniqueName_loop_first_free (name2value self) prefix _ 0 k)
      in Hthrow; [done|lia|lia|done|done|].
    intros j Hj. apply Hbelow. lia.
  - split; [|intros j Hj; apply Hbelow; lia].
    unfold GetUniqueName in Hthrow. revert Hthrow.
    generalize (S (size (name2value self))) 0%Z.
    intros fuel. induction fuel as [|fuel IH]; intros i; simpl.
    + by intros [= <-].
    + repeat case_decide; [done|by intros [= <-]|apply IH].
Qed.

(** C2, as the code has it: when the registry holds no more than
    [INT_MAX] names, [GetUniqueName] returns the first of the names
    prefix0, prefix1, ... that is not registered; the result depends on the
    registry only; and the method registers nothing, so that a second call
    in a row returns the same name again. *)
Theorem GetUniqueName_first_unregistered (BaseFunc : Type)
    (self : IRBuilderNode BaseFunc) (prefix : string) :
  (Z.of_nat (size (name2value self)) <= INT_MAX)%Z ->
  exists k,
    GetUniqueName self prefix = OK (candidate prefix k)
    /\ name2value self !! candidate prefix k = None
    /\ (forall j, j < k -> is_Some (name2value self !! candidate prefix j))
    /\ (forall self' : IRBuilderNode BaseFunc,
          name2value self' = name2value self ->
          GetUniqueName self' prefix = GetUniqueName self prefix)
    /\ GetUniqueName_twice prefix self =
         (OK (candidate prefix k, candidate prefix k), self).
Proof.
  intros Hsize.
  destruct (GetUniqueName_total _ self prefix Hsize) as (k & Hk & Hfree & Hbelow).
  exists k. split_and!; [done..| |].
  - intros self' Heq. unfold GetUniqueName. by rewrite Heq.
  - unfold GetUniqueName_twice. unfold_M. by rewrite Hk.
Qed.

(** ** The emission protocol *)

Lemma int_of_size_t_small (n : nat) :
  (Z.of_nat n <= INT_MAX)%Z -> int_of_size_t n = Z.of_nat n.
Proof.
  unfold INT_MAX, int_of_size_t. intros H.
  rewrite Z.mod_small; lia.
Qed.

Lemma Array_at_ok {A} (fields : list A) (i : Z) :
  (0 <= i < Z.of_nat (length fields))%Z ->
  exists x, fields !! Z.to_nat i = Some x /\ Array_at fields i = OK x.
Proof.
  intros Hi. unfold Array_at. rewrite decide_True by lia.
  destruct (fields !! Z.to_nat i) as [x|] eqn:E; [eauto|].
  apply lookup_ge_None in E. lia.
Qed.

Section Emission.

Variable BaseFunc : Type.
Variable FInferShape_map : string -> option (Call -> DiagnosticContext -> option Expr).
Variable FInferType_map : string -> option (Call -> DiagnosticContext -> option Ty).

Local Abbreviation State := (IRBuilderNode BaseFunc).
Local Abbreviation Scope := (BaseScope BaseFunc).
Local Abbreviation Emit_expr' := (Emit_expr FInferShape_map FInferType_map).
Local Abbreviation EmitOutput_expr' := (EmitOutput_expr FInferShape_map FInferType_map).
Local Abbreviation CreateVarBinding' := (CreateVarBinding FInferShape_map FInferType_map).

Lemma bindings_push_back_block (b : Binding) (scope : Scope) :
  is_block scope = true ->
  scope_bindings (bindings_push_back b scope) = scope_bindings scope ++ [b]
  /\ is_DataflowScope (bindings_push_back b scope) = is_DataflowScope scope.
Proof.
  unfold is_block, is_DataflowScope, is_NonDataflowScope, scope_bindings,
    bindings_push_back.
  destruct (node scope) eqn:E; simpl; rewrite ?E; done.
Qed.

(** *** What an error leaves behind *)

Lemma Emit_Throw (self self' : State) b e :
  Emit b self = (Throw e, self') -> self' = self.
Proof. unfold Emit. unfold_M. intros H. break_match; done. Qed.

Lemma EmitOutput_Throw (self self' : State) b e :
  EmitOutput b self = (Throw e, self') -> self' = self.
Proof. unfold EmitOutput. unfold_M. intros H. break_match; done. Qed.

Lemma EmitMatchShape_Throw (self self' : State) b e :
  EmitMatchShape b self = (Throw e, self') -> self' = self.
Proof. unfold EmitMatchShape. unfold_M. intros H. break_match; done. Qed.

(** [CreateScopedVar] only allocates. *)
Lemma CreateScopedVar_frame (self self' : State) h r :
  CreateScopedVar h self = (r, self') ->
  scopes self' = scopes self /\ id2bind self' = id2bind self /\
  name2value self' = name2value self /\ called self' = called self.
Proof.
  unfold CreateScopedVar, Id_new. unfold_M. intros H. break_match; done.
Qed.

Lemma Emit_expr_Throw (self self' : State) expr h e :
  Emit_expr' expr h self = (Throw e, self') ->
  scopes self' = scopes self /\ id2bind self' = id2bind self
  /\ name2value self' = name2value self.
Proof.
  unfold Emit_expr. unfold bind at 1.
  destruct (CreateScopedVar h self) as [[v|e1] self1] eqn:Hv.
  - apply CreateScopedVar_frame in Hv as (Hs & Hi & Hn & _).
    unfold bind at 1. unfold lift.
    destruct (CreateVarBinding' v expr) as [b|e2].
    + intros H%Emit_Throw. by subst.
    + intros [= <- <-]. done.
  - apply CreateScopedVar_frame in Hv as (Hs & Hi & Hn & _).
    intros [= <- <-]. done.
Qed.

Lemma EmitMatchShape_expr_Throw (self self' : State) value pattern h e :
  EmitMatchShape_expr value pattern h self = (Throw e, self') ->
  scopes self' = scopes self /\ id2bind self' = id2bind self
  /\ name2value self' = name2value self.
Proof.
  unfold EmitMatchShape_expr. unfold bind at 1.
  destruct (CreateScopedVar h self) as [[v|e1] self1] eqn:Hv;
    apply CreateScopedVar_frame in Hv as (Hs & Hi & Hn & _).
  - unfold_M. destruct (checked_type value) as [ty|e2]; simpl.
    + destruct ty; simpl; try (intros [= <- <-]; done).
      all: intros H%EmitMatchShape_Throw; by subst.
    + intros [= <- <-]. done.
  - intros [= <- <-]. done.
Qed.

Lemma EmitOutput_expr_Throw (self self' : State) output h e :
  EmitOutput_expr' output h self = (Throw e, self') ->
  scopes self' = scopes self /\ id2bind self' = id2bind self
  /\ name2value self' = name2value self.
Proof.
  unfold EmitOutput_expr, Id_new. unfold_M.
  destruct (back (scopes self)) as [scope|e0]; simpl; [|by intros [= <- <-]].
  destruct (is_DataflowScope scope); [|by intros [= <- <-]].
  destruct (GetUniqueName self _) as [name|e1]; simpl; [|by intros [= <- <-]].
  destruct (CreateVarBinding' _ output) as [b|e2]; simpl; [|by intros [= <- <-]].
  intros H%Emit_Throw. by subst.
Qed.

(** C10: an emission that fails leaves the scopes with their bindings,
    the map [id2bind] and the name registry as they were; this holds for
    the three operations on a binding and for the three that create the
    variable themselves, and whatever the check that failed. *)
Theorem failed_emission_leaves_builder (self self' : State) (e : Error) :
  (exists b, Emit b self = (Throw e, self')) \/
  (exists b, EmitOutput b self = (Throw e, self')) \/
  (exists b, EmitMatchShape b self = (Throw e, self')) \/
  (exists expr h, Emit_expr' expr h self = (Throw e, self')) \/
  (exists output h, EmitOutput_expr' output h self = (Throw e, self')) \/
  (exists value pattern h,
      EmitMatchShape_expr value pattern h self = (Throw e, self')) ->
  scopes self' = scopes self /\ id2bind self' = id2bind self
  /\ name2value self' = name2value self.
Proof.
  intros [[b H]|[[b H]|[[b H]|[(expr & h & H)|[(output & h & H)|(value & pattern & h & H)]]]]].
  - apply Emit_Throw in H. by subst.
  - apply EmitOutput_Throw in H. by subst.
  - apply EmitMatchShape_Throw in H. by subst.
  - by apply Emit_expr_Throw in H.
  - by apply EmitOutput_expr_Throw in H.
  - by apply EmitMatchShape_expr_Throw in H.
Qed.

(** *** [Emit] and [EmitOutput] on a binding *)

Lemma Emit_OK (self : State) (scope : Scope) (binding : VarBinding) :
  back (scopes self) = OK scope ->
  is_NonDataflowScope scope = true \/
  (is_DataflowScope scope = true /\ var_is_dataflow (vb_var binding) = true) ->
  Emit binding self =
    (OK (vb_var binding),
     set_id2bind (insert (vid (vb_var binding)) (vb_value binding))
       (set_scopes (fun _ => pop_back (scopes self) ++
                      [bindings_push_back (Binding_VarBinding binding) scope]) self)).
Proof.
  intros Hback Hcase. unfold Emit. unfold_M. rewrite Hback. simpl.
  unfold is_NonDataflowScope, is_DataflowScope in *.
  destruct (node scope) eqn:Hnode; simpl in *.
  1,2: destruct Hcase as [?|[? ?]]; done.
  - destruct Hcase as [?|[_ ->]]; [done|]. simpl.
    unfold set_scopes. simpl. by rewrite (alter_back_OK _ _ _ Hback).
  - unfold set_scopes. simpl. by rewrite (alter_back_OK _ _ _ Hback).
Qed.

(** C6: [Emit] of a binding whose variable is global fails its check
    inside a dataflow block, and leaves the builder as it was; inside a
    binding block it appends the binding to the block and records the
    value under the variable's identity, as it does for a local variable
    inside a dataflow block. *)
Theorem Emit_scope_discipline (self : State) (scope : Scope) (binding : VarBinding) :
  back (scopes self) = OK scope ->
  (is_DataflowScope scope = true -> var_is_dataflow (vb_var binding) = false ->
     Emit binding self =
       (Throw (ICHECK_failed
          "Emit can only be used for local bindings in a dataflow block, use EmitOutput for output bindings instead"),
        self))
  /\
  (is_NonDataflowScope scope = true \/
   (is_DataflowScope scope = true /\ var_is_dataflow (vb_var binding) = true) ->
     exists self',
       Emit binding self = (OK (vb_var binding), self')
       /\ scopes self' =
            pop_back (scopes self) ++ [bindings_push_back (Binding_VarBinding binding) scope]
       /\ scope_bindings (bindings_push_back (Binding_VarBinding binding) scope) =
            scope_bindings scope ++ [Binding_VarBinding binding]
       /\ id2bind self' = <[vid (vb_var binding) := vb_value binding]> (id2bind self)).
Proof.
  intros Hback. split.
  - intros Hdf Hglobal. unfold Emit. unfold_M. rewrite Hback. simpl.
    unfold is_DataflowScope in Hdf. destruct (node scope); try done.
    by rewrite Hglobal.
  - intros Hcase. eexists. rewrite (Emit_OK _ _ _ Hback Hcase).
    split_and!; [done|done| |done].
    apply bindings_push_back_block. unfold is_block.
    destruct Hcase as [->|[-> _]]; [apply orb_true_r|done].
Qed.

(** What [EmitOutput] of a binding does as it is written: inside a
    dataflow block, with a binding whose variable is local, it succeeds,
    appends that binding to the block, records the value under the
    variable's identity, and returns the variable of the binding itself,
    which is local. *)
Theorem EmitOutput_local_binding (self : State) (scope : Scope) (binding : VarBinding) :
  back (scopes self) = OK scope ->
  is_DataflowScope scope = true ->
  var_is_dataflow (vb_var binding) = true ->
  exists v self',
    EmitOutput binding self = (OK v, self')
    /\ v = vb_var binding
    /\ var_is_dataflow v = true
    /\ scopes self' =
         pop_back (scopes self) ++ [bindings_push_back (Binding_VarBinding binding) scope]
    /\ scope_bindings (bindings_push_back (Binding_VarBinding binding) scope) =
         scope_bindings scope ++ [Binding_VarBinding binding]
    /\ id2bind self' = <[vid (vb_var binding) := vb_value binding]> (id2bind self).
Proof.
  intros Hback Hdf Hlocal. do 2 eexists.
  unfold EmitOutput. unfold_M. rewrite Hback. simpl.
  pose proof Hdf as Hdf'. unfold is_DataflowScope in Hdf'.
  destruct (node scope) eqn:Hnode; try done. rewrite Hlocal. simpl.
  split_and!; [done|done|done| |apply bindings_push_back_block|done].
  - simpl. by rewrite (alter_back_OK _ _ _ Hback).
  - unfold is_block. by rewrite Hdf.
Qed.

(** [CreateVarBinding] keeps the dynamic type and the identity of the
    variable, and binds the expression it was given. *)
Lemma CreateVarBinding_OK (var : Var) (expr : Expr) (b : VarBinding) :
  CreateVarBinding' var expr = OK b ->
  var_is_dataflow (vb_var b) = var_is_dataflow var /\ vid (vb_var b) = vid var
  /\ vb_value b = expr.
Proof.
  unfold CreateVarBinding. intros H. break_match; done.
Qed.

(** The overload of [EmitOutput] that creates the variable hands a global
    variable to [Emit] inside a dataflow block: no call of it succeeds. *)
Lemma EmitOutput_expr_never_OK (self : State) (output : Expr) (h : option string) :
  exists e self', EmitOutput_expr' output h self = (Throw e, self').
Proof.
  unfold EmitOutput_expr, Id_new. unfold_M.
  destruct (back (scopes self)) as [scope|e0] eqn:Hback; simpl; [|by eauto].
  destruct (is_DataflowScope scope) eqn:Hdf; [|by eauto].
  destruct (GetUniqueName self _) as [name|e1]; simpl; [|by eauto].
  destruct (CreateVarBinding' _ output) as [b|e2] eqn:Hb; simpl; [|by eauto].
  apply CreateVarBinding_OK in Hb as (Hg & _). simpl in Hg.
  unfold Emit. unfold_M. rewrite Hback. simpl.
  unfold is_DataflowScope in Hdf. destruct (node scope); try done.
  rewrite Hg. simpl. eauto.
Qed.

(** *** Operations that create the variable *)

(** Inside a block, [CreateScopedVar] makes a variable of the locality of
    the block, with a new identity and neither shape nor type. *)
Lemma CreateScopedVar_OK (self : State) (scope : Scope) (h : option string) :
  back (scopes self) = OK scope ->
  is_block scope = true ->
  (Z.of_nat (size (name2value self)) <= INT_MAX)%Z ->
  exists name,
    CreateScopedVar h self =
      (OK (mkVar (is_DataflowScope scope) (mkId (next_addr self) name) None None),
       set_next_addr S self).
Proof.
  intros Hback Hblock Hsize. unfold CreateScopedVar, Id_new. unfold_M.
  rewrite Hback. simpl. unfold is_block in Hblock.
  destruct (is_DataflowScope scope) eqn:Hdf.
  - destruct (GetUniqueName_total _ self (value_or h "lv") Hsize) as (k & -> & _).
    simpl. eauto.
  - simpl in Hblock. rewrite Hblock.
    destruct (GetUniqueName_total _ self (value_or h "gv") Hsize) as (k & -> & _).
    simpl. eauto.
Qed.

Lemma EmitMatchShape_OK (self : State) (scope : Scope) (binding : MatchShape) :
  back (scopes self) = OK scope ->
  is_block scope = true ->
  var_is_dataflow (ms_var binding) = is_DataflowScope scope ->
  EmitMatchShape binding self =
    (OK (ms_var binding),
     set_scopes (fun _ => pop_back (scopes self) ++
                    [bindings_push_back (Binding_MatchShape binding) scope]) self).
Proof.
  intros Hback Hblock Hloc. unfold EmitMatchShape. unfold_M. rewrite Hback. simpl.
  unfold is_block, is_NonDataflowScope, is_DataflowScope in *.
  destruct (node scope) eqn:Hnode; simpl in *; try done.
  all: rewrite Hloc; simpl; unfold set_scopes; simpl.
  all: by rewrite (alter_back_OK _ _ _ Hback).
Qed.

(** C5: inside a block, the registry and the pattern being within the
    range of an [int], [EmitMatchShape] of a value, a pattern and a name
    hint binds a new variable according to the static type of the value.
    On the shape type the variable has the shape type and no shape; on a
    tensor type it has the pattern as its shape and the tensor type of
    rank [length pattern] with the element type of the value; on any other
    type the call fails with the type error and no binding is added. *)
Theorem EmitMatchShape_expr_refines (self : State) (scope : Scope)
    (value : Expr) (pattern : list PrimExpr) (h : option string) (ty : Ty) :
  back (scopes self) = OK scope ->
  is_block scope = true ->
  (Z.of_nat (size (name2value self)) <= INT_MAX)%Z ->
  (Z.of_nat (length pattern) <= INT_MAX)%Z ->
  expr_checked_type_ value = Some ty ->
  match ty with
  | ShapeType =>
      exists v self',
        EmitMatchShape_expr value pattern h self = (OK v, self')
        /\ var_checked_type_ v = Some ShapeType
        /\ var_shape_ v = None
        /\ var_is_dataflow v = is_DataflowScope scope
        /\ scopes self' =
             pop_back (scopes self) ++
             [bindings_push_back (Binding_MatchShape (mkMatchShape value pattern v)) scope]
  | DynTensorType _ dtype =>
      exists v self',
        EmitMatchShape_expr value pattern h self = (OK v, self')
        /\ var_checked_type_ v =
             Some (DynTensorType (Z.of_nat (length pattern)) dtype)
        /\ var_shape_ v = Some (ShapeExpr pattern)
        /\ var_is_dataflow v = is_DataflowScope scope
        /\ scopes self' =
             pop_back (scopes self) ++
             [bindings_push_back (Binding_MatchShape (mkMatchShape value pattern v)) scope]
  | _ =>
      exists self',
        EmitMatchShape_expr value pattern h self =
          (Throw (LOG_FATAL
             "TypeError: Invalid type of value, must be of DynTensorType or ShapeType: "),
           self')
        /\ scopes self' = scopes self /\ id2bind self' = id2bind self
  end.
Proof.
  intros Hback Hblock Hsize Hlen Hty.
  destruct (CreateScopedVar_OK self scope h Hback Hblock Hsize) as (name & Hvar).
  assert (Hback' : back (scopes (set_next_addr S self)) = OK scope) by done.
  assert (Hct : forall s : State, lift (checked_type value) s = (OK ty, s)).
  { intros s. unfold lift, checked_type. by rewrite Hty. }
  unfold EmitMatchShape_expr.
  rewrite (bind_OK _ _ _ _ _ Hvar), (bind_OK _ _ _ _ _ (Hct _)).
  destruct ty; cbv iota beta zeta.
  - rewrite bind_ret.
    rewrite (EmitMatchShape_OK _ scope _ Hback' Hblock) by done.
    do 2 eexists. split_and!; done.
  - rewrite bind_ret.
    rewrite (EmitMatchShape_OK _ scope _ Hback' Hblock) by done.
    do 2 eexists. simpl. rewrite (int_of_size_t_small _ Hlen). split_and!; done.
  - eexists. split_and!; done.
  - eexists. split_and!; done.
Qed.

(** Inside a block, [Emit] of an expression succeeds exactly when
    [CreateVarBinding] does, and then emits the binding it made. *)
Lemma Emit_expr_block (self : State) (scope : Scope) (expr : Expr) (h : option string) :
  back (scopes self) = OK scope ->
  is_block scope = true ->
  (Z.of_nat (size (name2value self)) <= INT_MAX)%Z ->
  exists name,
    let var := mkVar (is_DataflowScope scope) (mkId (next_addr self) name) None None in
    match CreateVarBinding' var expr with
    | OK b =>
        Emit_expr' expr h self =
          (OK (vb_var b),
           set_id2bind (insert (vid (vb_var b)) (vb_value b))
             (set_scopes (fun _ => pop_back (scopes self) ++
                            [bindings_push_back (Binding_VarBinding b) scope])
                (set_next_addr S self)))
    | Throw e => Emit_expr' expr h self = (Throw e, set_next_addr S self)
    end.
Proof.
  intros Hback Hblock Hsize.
  destruct (CreateScopedVar_OK self scope h Hback Hblock Hsize) as (name & Hvar).
  exists name. cbv zeta. unfold Emit_expr. rewrite (bind_OK _ _ _ _ _ Hvar).
  destruct (CreateVarBinding' _ expr) as [b|e] eqn:Hb.
  - rewrite bind_lift_OK.
    apply CreateVarBinding_OK in Hb as (Hloc & _). simpl in Hloc.
    assert (Hback' : back (scopes (set_next_addr S self)) = OK scope) by done.
    rewrite (Emit_OK _ scope b Hback'); [done|].
    unfold is_block in Hblock. rewrite Hloc.
    destruct (is_DataflowScope scope); [by right|by left].
  - by rewrite bind_lift_Throw.
Qed.

(** The variable that [Emit] of an operator call binds: inside a block,
    the call succeeds and binds a new variable of the locality of the
    block.  The
    shape of the variable is the shape cached on the call when there is
    one; otherwise it is the result of the shape inference function
    registered for the operator, and unresolved when none is registered.
    The same holds for the type. *)
Theorem Emit_expr_call (self : State) (scope : Scope) (expr : Expr)
    (h : option string) (call : Call) :
  back (scopes self) = OK scope ->
  is_block scope = true ->
  (Z.of_nat (size (name2value self)) <= INT_MAX)%Z ->
  as_CallNode expr = Some call ->
  exists v b self',
    Emit_expr' expr h self = (OK v, self')
    /\ vb_var b = v
    /\ scopes self' =
         pop_back (scopes self) ++ [bindings_push_back (Binding_VarBinding b) scope]
    /\ var_is_dataflow v = is_DataflowScope scope
    /\ (forall s, call_shape_ call = Some s -> var_shape_ v = Some s)
    /\ (forall op f, call_shape_ call = None ->
          as_OpNode (call_op call) = Some op -> FInferShape_map op = Some f ->
          var_shape_ v = f call DiagnosticContext_Default)
    /\ (call_shape_ call = None ->
          (forall op, as_OpNode (call_op call) = Some op -> FInferShape_map op = None) ->
          var_shape_ v = None)
    /\ (forall t, call_checked_type_ call = Some t -> var_checked_type_ v = Some t)
    /\ (forall op f, call_checked_type_ call = None ->
          as_OpNode (call_op call) = Some op -> FInferType_map op = Some f ->
          var_checked_type_ v = f call DiagnosticContext_Default)
    /\ (call_checked_type_ call = None ->
          (forall op, as_OpNode (call_op call) = Some op -> FInferType_map op = None) ->
          var_checked_type_ v = None).
Proof.
  intros Hback Hblock Hsize Hcall.
  destruct (Emit_expr_block self scope expr h Hback Hblock Hsize) as (name & Hemit).
  cbv zeta in Hemit. unfold CreateVarBinding in Hemit. rewrite Hcall in Hemit.
  cbv zeta in Hemit. simpl in Hemit.
  eexists _, (mkVarBinding _ expr), _. split; [exact Hemit|]. simpl.
  split_and!; try done.
  - intros s Hs. unfold InferShape. by rewrite Hs.
  - intros op f Hs Hop Hf. unfold InferShape. by rewrite Hs, Hop, Hf.
  - intros Hs Hnone. unfold InferShape. rewrite Hs.
    destruct (as_OpNode (call_op call)) as [op|]; [|done].
    by rewrite (Hnone op eq_refl).
  - intros t Ht. unfold InferType. by rewrite Ht.
  - intros op f Ht Hop Hf. unfold InferType. by rewrite Ht, Hop, Hf.
  - intros Ht Hnone. unfold InferType. rewrite Ht.
    destruct (as_OpNode (call_op call)) as [op|]; [|done].
    by rewrite (Hnone op eq_refl).
Qed.

(** C9, as the code has it: inside a block, [Emit] of a projection at
    index [i] fails with the type error when the operand is not a
    variable.  When it is a variable, the new variable receives field [i]
    of the operand's shape if that shape is a tuple, and, separately,
    field [i] of the operand's type if that type is a tuple type ([i]
    within the bounds of each tuple); a component that is not a tuple is
    left unresolved, and the call succeeds. *)
Theorem Emit_expr_tuple_get_item (self : State) (scope : Scope) (expr : Expr)
    (h : option string) (tuple : Expr) (i : Z) :
  back (scopes self) = OK scope ->
  is_block scope = true ->
  (Z.of_nat (size (name2value self)) <= INT_MAX)%Z ->
  as_TupleGetItemNode expr = Some (tuple, i) ->
  (as_VarNode tuple = None ->
     exists self',
       Emit_expr' expr h self =
         (Throw (ICHECK_failed
            "TypeError: Invalid type as the tuple field of TupleGetItem: "),
          self')
       /\ scopes self' = scopes self /\ id2bind self' = id2bind self)
  /\
  (forall rhs_var, as_VarNode tuple = Some rhs_var ->
     tuple_index_ok (as_TupleNode (var_shape_ rhs_var)) i ->
     tuple_index_ok (as_TupleTypeNode (var_checked_type_ rhs_var)) i ->
     exists v b self',
       Emit_expr' expr h self = (OK v, self')
       /\ vb_var b = v
       /\ scopes self' =
            pop_back (scopes self) ++ [bindings_push_back (Binding_VarBinding b) scope]
       /\ var_is_dataflow v = is_DataflowScope scope
       /\ var_shape_ v = tuple_field (as_TupleNode (var_shape_ rhs_var)) i
       /\ var_checked_type_ v =
            tuple_field (as_TupleTypeNode (var_checked_type_ rhs_var)) i).
Proof.
  intros Hback Hblock Hsize Hproj.
  destruct (Emit_expr_block self scope expr h Hback Hblock Hsize) as (name & Hemit).
  cbv zeta in Hemit. unfold CreateVarBinding in Hemit.
  assert (Hnc : as_CallNode expr = None).
  { destruct expr as [[] ? ?]; simpl in *; done. }
  assert (Hnv : as_VarNode expr = None).
  { destruct expr as [[] ? ?]; simpl in *; done. }
  rewrite Hnc, Hnv, Hproj in Hemit. split.
  - intros Hnot. rewrite Hnot in Hemit. eexists. split; [exact Hemit|done].
  - intros rhs_var Hvar Hshape Htype. rewrite Hvar in Hemit.
    unfold tuple_index_ok, tuple_field in *.
    destruct (as_TupleNode (var_shape_ rhs_var)) as [sfields|];
      destruct (as_TupleTypeNode (var_checked_type_ rhs_var)) as [tfields|].
    + destruct (Array_at_ok sfields i Hshape) as (x & Hx & Hax).
      destruct (Array_at_ok tfields i Htype) as (y & Hy & Hay).
      rewrite Hax, Hay in Hemit.
      eexists _, (mkVarBinding _ expr), _. split; [exact Hemit|]. simpl. by rewrite Hx, Hy.
    + destruct (Array_at_ok sfields i Hshape) as (x & Hx & Hax).
      rewrite Hax in Hemit.
      eexists _, (mkVarBinding _ expr), _. split; [exact Hemit|]. simpl. by rewrite Hx.
    + destruct (Array_at_ok tfields i Htype) as (y & Hy & Hay).
      rewrite Hay in Hemit.
      eexists _, (mkVarBinding _ expr), _. split; [exact Hemit|]. simpl. by rewrite Hy.
    + eexists _, (mkVarBinding _ expr), _. split; [exact Hemit|]. simpl. done.
Qed.

End Emission.

(** ** What [id2bind] records *)

Section Lookup.

Variable BaseFunc : Type.
Variable FInferShape_map : string -> option (Call -> DiagnosticContext -> option Expr).
Variable FInferType_map : string -> option (Call -> DiagnosticContext -> option Ty).

Local Abbreviation State := (IRBuilderNode BaseFunc).
Local Abbreviation Emit_expr' := (Emit_expr FInferShape_map FInferType_map).
Local Abbreviation EmitOutput_expr' := (EmitOutput_expr FInferShape_map FInferType_map).
Local Abbreviation run_BuilderOp' := (run_BuilderOp FInferShape_map FInferType_map).
Local Abbreviation run_BuilderOps' := (run_BuilderOps FInferShape_map FInferType_map).

(** A loop keeps every component of the object that its body keeps. *)
Lemma for_each_frame {X A} (proj : State -> X) (xs : list A) (body : A -> M BaseFunc unit) :
  (forall x s r s', body x s = (r, s') -> proj s' = proj s) ->
  forall s r s', for_each xs body s = (r, s') -> proj s' = proj s.
Proof.
  intros Hbody. induction xs as [|x xs IH]; intros s r s'; simpl.
  - unfold ret. by intros [= _ <-].
  - unfold bind. destruct (body x s) as [[[]|e] s1] eqn:E.
    + intros H%IH. rewrite H. by eapply Hbody.
    + intros [= _ <-]. by eapply Hbody.
Qed.

Lemma PopScope_id2bind (self self' : State) r :
  PopScope self = (r, self') -> id2bind self' = id2bind self.
Proof.
  unfold PopScope. unfold_M.
  destruct (back (scopes self)) as [scope|e]; simpl; [|by intros [= _ <-]].
  destruct (for_each (callbacks scope) call_Callback _) as [[[]|e1] s1] eqn:E1;
    apply (for_each_frame id2bind) in E1;
    try (intros ? ? ? ?; unfold call_Callback, modify; by intros [= _ <-]).
  - destruct (for_each (vars scope) _ s1) as [[[]|e2] s2] eqn:E2;
      apply (for_each_frame id2bind) in E2;
      try (intros ? ? ? ?; unfold modify; by intros [= _ <-]).
    + intros [= _ <-]. by rewrite E2, E1.
    + intros [= _ <-]. by rewrite E2, E1.
  - intros [= _ <-]. by rewrite E1.
Qed.

Lemma EndBlock_id2bind (self self' : State) r :
  EndBlock self = (r, self') -> id2bind self' = id2bind self.
Proof.
  unfold EndBlock. unfold bind at 1. unfold get.
  unfold bind at 1.
  destruct (scopes self) eqn:Hs; unfold throw, ret; [by intros [= _ <-]|].
  unfold bind at 1.
  destruct (PopScope self) as [[scope|e] s1] eqn:E; apply PopScope_id2bind in E.
  - destruct (node scope); unfold ret, throw; intros [= _ <-]; done.
  - by intros [= _ <-].
Qed.

Lemma Emit_id2bind (self self' : State) b r :
  Emit b self = (r, self') ->
  match r with
  | OK v => v = vb_var b /\ id2bind self' = <[vid v := vb_value b]> (id2bind self)
  | Throw _ => id2bind self' = id2bind self
  end.
Proof. unfold Emit. unfold_M. intros H. break_match; done. Qed.

Lemma EmitOutput_id2bind (self self' : State) b r :
  EmitOutput b self = (r, self') ->
  match r with
  | OK v => v = vb_var b /\ id2bind self' = <[vid v := vb_value b]> (id2bind self)
  | Throw _ => id2bind self' = id2bind self
  end.
Proof. unfold EmitOutput. unfold_M. intros H. break_match; done. Qed.

Lemma EmitMatchShape_id2bind (self : State) b :
  id2bind (snd (EmitMatchShape b self)) = id2bind self.
Proof. unfold EmitMatchShape. unfold_M. break_match; done. Qed.

Lemma EmitMatchShape_expr_id2bind (self : State) value pattern h :
  id2bind (snd (EmitMatchShape_expr value pattern h self)) = id2bind self.
Proof.
  unfold EmitMatchShape_expr. unfold bind at 1.
  destruct (CreateScopedVar h self) as [[v|e1] self1] eqn:Hv;
    apply CreateScopedVar_frame in Hv as (_ & Hi & _); [|done].
  unfold bind at 1, lift. destruct (checked_type value) as [ty|e2]; [|done].
  unfold bind at 1.
  destruct ty; unfold ret, throw; cbv beta iota zeta; try done.
  all: by rewrite EmitMatchShape_id2bind.
Qed.

Lemma Emit_expr_id2bind (self self' : State) expr h r :
  Emit_expr' expr h self = (r, self') ->
  match r with
  | OK v => exists e, id2bind self' = <[vid v := e]> (id2bind self)
  | Throw _ => id2bind self' = id2bind self
  end.
Proof.
  unfold Emit_expr. unfold bind at 1.
  destruct (CreateScopedVar h self) as [[v|e1] self1] eqn:Hv;
    apply CreateScopedVar_frame in Hv as (_ & Hi & _); [|by intros [= <- <-]].
  unfold bind at 1, lift.
  destruct (CreateVarBinding _ _ v expr) as [b|e2]; [|by intros [= <- <-]].
  intros H%Emit_id2bind. destruct r as [v'|e3].
  - destruct H as [-> ->]. rewrite Hi. eauto.
  - by rewrite H.
Qed.

Lemma EmitOutput_expr_id2bind (self self' : State) output h r :
  EmitOutput_expr' output h self = (r, self') ->
  match r with
  | OK v => exists e, id2bind self' = <[vid v := e]> (id2bind self)
  | Throw _ => id2bind self' = id2bind self
  end.
Proof.
  intros H.
  destruct (EmitOutput_expr_never_OK _ FInferShape_map FInferType_map self output h)
    as (e & s1 & He).
  rewrite He in H. injection H as <- <-.
  by apply EmitOutput_expr_Throw in He as (_ & ? & _).
Qed.

(** One call binds at most the identity it answers with. *)
Lemma run_BuilderOp_id2bind (op : BuilderOp) (self self' : State) (r : option Var)
    (id : Id) :
  run_BuilderOp' op self = (r, self') ->
  id2bind self !! id = None ->
  (forall v, r = Some v -> vid v <> id) ->
  id2bind self' !! id = None.
Proof.
  intros Hrun Hnone Hfresh.
  destruct op as [| | |binding|binding|binding|expr h|output h|value pattern h];
    simpl in Hrun.
  - by injection Hrun as <- <-.
  - by injection Hrun as <- <-.
  - injection Hrun as <- <-.
    destruct (EndBlock self) as [r1 s1] eqn:E. apply EndBlock_id2bind in E.
    simpl. by rewrite E.
  - destruct (Emit binding self) as [[v|e] s1] eqn:E; apply Emit_id2bind in E;
      injection Hrun as <- <-.
    + destruct E as [_ ->]. rewrite lookup_insert_ne; [done|]. by apply Hfresh.
    + by rewrite E.
  - destruct (EmitOutput binding self) as [[v|e] s1] eqn:E;
      apply EmitOutput_id2bind in E; injection Hrun as <- <-.
    + destruct E as [_ ->]. rewrite lookup_insert_ne; [done|]. by apply Hfresh.
    + by rewrite E.
  - injection Hrun as <- <-. by rewrite EmitMatchShape_id2bind.
  - destruct (Emit_expr' expr h self) as [[v|e] s1] eqn:E;
      apply Emit_expr_id2bind in E; injection Hrun as <- <-.
    + destruct E as [e' ->]. rewrite lookup_insert_ne; [done|]. by apply Hfresh.
    + by rewrite E.
  - destruct (EmitOutput_expr' output h self) as [[v|e] s1] eqn:E;
      apply EmitOutput_expr_id2bind in E; injection Hrun as <- <-.
    + destruct E as [e' ->]. rewrite lookup_insert_ne; [done|]. by apply Hfresh.
    + by rewrite E.
  - injection Hrun as <- <-. by rewrite EmitMatchShape_expr_id2bind.
Qed.

Lemma run_BuilderOps_id2bind (ops : list BuilderOp) (self self' : State)
    (ids : list Id) (id : Id) :
  run_BuilderOps' ops self = (ids, self') ->
  id2bind self !! id = None ->
  id ∉ ids ->
  id2bind self' !! id = None.
Proof.
  revert self ids. induction ops as [|op ops IH]; intros self ids; simpl.
  - by intros [= <- <-].
  - destruct (run_BuilderOp' op self) as [r s1] eqn:E1.
    destruct (run_BuilderOps' ops s1) as [ids1 s2] eqn:E2.
    intros [= <- <-] Hnone Hnotin.
    apply (IH s1 ids1); [done| |].
    + eapply run_BuilderOp_id2bind; [exact E1|done|].
      intros v -> Heq. apply Hnotin. rewrite <- Heq. apply list_elem_of_here.
    + destruct r; [|done]. intros Hin. apply Hnotin. by apply list_elem_of_further.
Qed.

(** C7: after any sequence of calls on the builder, [LookupBinding] fails
    on every identity that was unbound at the start and that no
    successful [Emit] or [EmitOutput] of the sequence has recorded; and
    [EmitMatchShape], in both its forms, leaves [id2bind] as it was, so
    that a variable bound by it alone stays unknown to [LookupBinding]. *)
Theorem LookupBinding_unrecorded (self self' : State) (ops : list BuilderOp)
    (ids : list Id) (id : Id) :
  id2bind self !! id = None ->
  run_BuilderOps' ops self = (ids, self') ->
  id ∉ ids ->
  LookupBinding id self' = (Throw (LOG_FATAL "Cannot find binding for "), self')
  /\ (forall (s : State) b, id2bind (snd (EmitMatchShape b s)) = id2bind s)
  /\ (forall (s : State) value pattern h,
        id2bind (snd (EmitMatchShape_expr value pattern h s)) = id2bind s).
Proof.
  intros Hnone Hrun Hnotin. split_and!.
  - unfold LookupBinding. unfold_M.
    by rewrite (run_BuilderOps_id2bind _ _ _ _ _ Hrun Hnone Hnotin).
  - intros s b. apply EmitMatchShape_id2bind.
  - intros s value pattern h. apply EmitMatchShape_expr_id2bind.
Qed.

End Lookup.

(** ** The module scope *)

Section ModuleScope.

Variable BaseFunc : Type.
Variable StructuralEqual : BaseFunc -> BaseFunc -> bool.

(** [StructuralEqual] is an equivalence, as a key equality has to be. *)
Hypothesis StructuralEqual_refl : forall f, StructuralEqual f f = true.
Hypothesis StructuralEqual_sym : forall f g, StructuralEqual f g = StructuralEqual g f.
Hypothesis StructuralEqual_trans : forall f g h,
  StructuralEqual f g = true -> StructuralEqual g h = true -> StructuralEqual f h = true.

Local Abbreviation Table := (IRModuleScopeNode BaseFunc).
Local Abbreviation wf := (IRModuleScope_wf StructuralEqual).
Local Abbreviation Add' := (Add StructuralEqual).
Local Abbreviation find' := (structural_map_find StructuralEqual).
Local Abbreviation assign' := (structural_map_assign StructuralEqual).

Lemma structural_map_find_Some (func : BaseFunc) (m : list (BaseFunc * GlobalVar))
    (gv : GlobalVar) :
  find' func m = Some gv ->
  exists f, (f, gv) ∈ m /\ StructuralEqual f func = true.
Proof.
  unfold structural_map_find.
  destruct (find _ m) as [[f g]|] eqn:E; [|done]. intros [= <-].
  apply find_some in E as [Hin Heq]. exists f. split; [|done].
  by apply list_elem_of_In.
Qed.

Lemma structural_map_find_None (func : BaseFunc) (m : list (BaseFunc * GlobalVar)) :
  find' func m = None ->
  forall f g, (f, g) ∈ m -> StructuralEqual f func = false.
Proof.
  unfold structural_map_find.
  destruct (find _ m) as [[f g]|] eqn:E; [done|]. intros _ f g Hin.
  apply list_elem_of_In in Hin. by apply (find_none _ _ E (f, g)).
Qed.

Lemma structural_map_assign_new (func : BaseFunc) (gv : GlobalVar)
    (m : list (BaseFunc * GlobalVar)) :
  find' func m = None -> assign' func gv m = m ++ [(func, gv)].
Proof.
  intros Hnone. induction m as [|[f g] m IH]; [done|]. simpl.
  assert (StructuralEqual f func = false) as ->.
  { apply (structural_map_find_None _ _ Hnone f g), list_elem_of_here. }
  f_equal. apply IH. unfold structural_map_find in *. simpl in Hnone.
  by destruct (StructuralEqual f func).
Qed.

(** In a well-formed table an equivalence class has one entry, and so has
    a symbol. *)
Lemma wf_entry_unique (h : addr) (m : Table) (e1 e2 : BaseFunc * GlobalVar) :
  wf h m -> e1 ∈ structural_map m -> e2 ∈ structural_map m ->
  StructuralEqual (fst e1) (fst e2) = true \/ snd e1 = snd e2 -> e1 = e2.
Proof.
  intros (_ & Huniq & _) [i Hi]%list_elem_of_lookup [j Hj]%list_elem_of_lookup Heq.
  assert (i = j) as -> by (by eapply Huniq). congruence.
Qed.

Lemma wf_empty (h : addr) : wf h (mkIRModuleScopeNode ∅ []).
Proof.
  split_and!; simpl.
  - intros f g Hin. by apply not_elem_of_nil in Hin.
  - intros i j e1 e2 Hi. by rewrite lookup_nil in Hi.
  - intros g f. rewrite lookup_empty. split; [done|].
    intros Hin. by apply not_elem_of_nil in Hin.
Qed.

(** What one [Add] does to a well-formed table. *)
Lemma Add_wf (name : string) (func : BaseFunc) (h : addr) (m : Table) :
  wf h m ->
  exists gv h' m',
    Add' name func h m = (gv, (h', m'))
    /\ wf h' m'
    /\ (exists f, (f, gv) ∈ structural_map m' /\ StructuralEqual f func = true)
    /\ (forall e, e ∈ structural_map m -> e ∈ structural_map m')
    /\ ((m' = m /\ h' = h) \/
        (find' func (structural_map m) = None /\ gv = mkGlobalVar h name /\ h' = S h /\
         func_map m' = <[gv := func]> (func_map m) /\
         structural_map m' = structural_map m ++ [(func, gv)])).
Proof.
  intros Hwf. unfold Add.
  destruct (find' func (structural_map m)) as [gv|] eqn:Hfind.
  - eexists _, _, _. split; [done|]. split_and!; [done| |done|by left].
    by apply structural_map_find_Some.
  - eexists _, _, _. split; [done|].
    rewrite (structural_map_assign_new _ _ _ Hfind).
    destruct Hwf as (Haddr & Huniq & Hmap).
    assert (Hfresh : func_map m !! mkGlobalVar h name = None).
    { destruct (func_map m !! mkGlobalVar h name) as [f|] eqn:E; [|done].
      apply Hmap, Haddr in E. simpl in E. lia. }
    split_and!; simpl.
    + split_and!; simpl.
      * intros f g [Hin|Hin]%elem_of_app.
        -- apply Haddr in Hin. lia.
        -- apply list_elem_of_singleton in Hin as [= -> ->]. simpl. lia.
      * intros i j e1 e2 Hi Hj Heq.
        apply lookup_app_Some in Hi as [Hi|[Hil Hi]];
          apply lookup_app_Some in Hj as [Hj|[Hjl Hj]].
        -- by eapply Huniq.
        -- exfalso. apply list_lookup_singleton_Some in Hj as [_ <-].
           destruct e1 as [f1 g1]. simpl in Heq.
           assert (Hin : (f1, g1) ∈ structural_map m)
             by (apply list_elem_of_lookup; eauto).
           destruct Heq as [Heq| ->].
           ++ rewrite (structural_map_find_None _ _ Hfind f1 g1 Hin) in Heq. done.
           ++ apply Haddr in Hin. simpl in Hin. lia.
        -- exfalso. apply list_lookup_singleton_Some in Hi as [_ <-].
           destruct e2 as [f2 g2]. simpl in Heq.
           assert (Hin : (f2, g2) ∈ structural_map m)
             by (apply list_elem_of_lookup; eauto).
           destruct Heq as [Heq| <-].
           ++ rewrite StructuralEqual_sym in Heq.
              rewrite (structural_map_find_None _ _ Hfind f2 g2 Hin) in Heq. done.
           ++ apply Haddr in Hin. simpl in Hin. lia.
        -- apply list_lookup_singleton_Some in Hi as [Hi _].
           apply list_lookup_singleton_Some in Hj as [Hj _]. lia.
      * intros g f. rewrite elem_of_app, list_elem_of_singleton.
        destruct (decide (g = mkGlobalVar h name)) as [->|Hne].
        -- rewrite lookup_insert_eq. split.
           ++ intros [= ->]. by right.
           ++ intros [Hin| [= ->]]; [|done].
              apply Hmap in Hin. congruence.
        -- rewrite lookup_insert_ne by done. rewrite Hmap. split; [by left|].
           intros [Hin|[= _ ->]]; done.
    + exists func. split; [|done]. apply elem_of_app. right. apply list_elem_of_here.
    + intros e Hin. apply elem_of_app. by left.
    + right. done.
Qed.

(** Every table a program can have is well formed. *)
Lemma reachable_wf (h : addr) (m : Table) :
  IRModuleScope_reachable StructuralEqual h m -> wf h m.
Proof.
  induction 1 as [h|h m _ IH|h m name func _ IH].
  - apply wf_empty.
  - destruct IH as (Haddr & Huniq & Hmap). split_and!; [|done..].
    intros f g Hin. apply Haddr in Hin. lia.
  - destruct (Add_wf name func h m IH) as (gv & h' & m' & -> & Hwf & _). done.
Qed.

(** A sequence of calls keeps the table well formed and keeps its entries. *)
Lemma Add_all_wf (calls : list (string * BaseFunc)) (h : addr) (m : Table) :
  wf h m ->
  exists gvs h' m',
    Add_all StructuralEqual calls h m = (gvs, (h', m'))
    /\ wf h' m'
    /\ (forall e, e ∈ structural_map m -> e ∈ structural_map m').
Proof.
  revert h m. induction calls as [|[name func] calls IH]; intros h m Hwf; simpl.
  - by eexists _, _, _.
  - destruct (Add_wf name func h m Hwf)
      as (gv & h1 & m1 & -> & Hwf1 & _ & Hsub1 & _).
    destruct (IH h1 m1 Hwf1) as (gvs & h' & m' & -> & Hwf' & Hsub').
    eexists _, _, _. split_and!; [done..|]. intros e He. by apply Hsub', Hsub1.
Qed.

(** C3: two calls of [Add] on a well-formed table, with any calls of [Add]
    in between.  Structurally equal functions get the same symbol,
    whatever the two name hints, and the second call leaves the table as
    it found it; structurally distinct functions get two distinct symbols.
    After the calls each of the two functions has exactly one symbol in
    the table; and when the two calls come one after the other on a table
    that was empty, the table has one entry in the first case, two in the
    second. *)
Theorem Add_twice (h : addr) (m : Table) (name1 name2 : string) (func1 func2 : BaseFunc)
    (between : list (string * BaseFunc)) :
  wf h m ->
  exists gv1 h1 m1 gvs h2 m2 gv2 h3 m3,
    Add' name1 func1 h m = (gv1, (h1, m1))
    /\ Add_all StructuralEqual between h1 m1 = (gvs, (h2, m2))
    /\ Add' name2 func2 h2 m2 = (gv2, (h3, m3))
    /\ (StructuralEqual func1 func2 = true -> gv1 = gv2 /\ m3 = m2 /\ h3 = h2)
    /\ (StructuralEqual func1 func2 = false -> gv1 <> gv2)
    /\ (exists f, func_map m3 !! gv1 = Some f /\ StructuralEqual f func1 = true)
    /\ (exists f, func_map m3 !! gv2 = Some f /\ StructuralEqual f func2 = true)
    /\ (forall g f, func_map m3 !! g = Some f ->
          StructuralEqual f func1 = true -> g = gv1)
    /\ (forall g f, func_map m3 !! g = Some f ->
          StructuralEqual f func2 = true -> g = gv2)
    /\ (func_map m = ∅ -> between = [] ->
          size (func_map m3) = if StructuralEqual func1 func2 then 1 else 2).
Proof.
  intros Hwf.
  destruct (Add_wf name1 func1 h m Hwf)
    as (gv1 & h1 & m1 & Hadd1 & Hwf1 & (f1 & Hin1 & Heq1) & Hsub1 & Hcase1).
  destruct (Add_all_wf between h1 m1 Hwf1)
    as (gvs & h2 & m2 & Hbetween & Hwf2 & Hsub2).
  destruct (Add_wf name2 func2 h2 m2 Hwf2)
    as (gv2 & h3 & m3 & Hadd2 & Hwf3 & (f2 & Hin2 & Heq2) & Hsub3 & Hcase2).
  exists gv1, h1, m1, gvs, h2, m2, gv2, h3, m3. split_and!; [done..| | | | | | |].
  all: pose proof Hwf3 as (_ & _ & Hmap3).
  all: assert (Hin1_2 : (f1, gv1) ∈ structural_map m2) by by apply Hsub2.
  all: assert (Hin1_3 : (f1, gv1) ∈ structural_map m3) by by apply Hsub3.
  - intros Heq.
    assert (Hfind : find' func2 (structural_map m2) = Some gv1).
    { destruct (find' func2 (structural_map m2)) as [g|] eqn:E.
      - apply structural_map_find_Some in E as (f & Hin & Hf).
        assert ((f, g) = (f1, gv1)) as [= _ ->]; [|done].
        eapply (wf_entry_unique h2 m2); [done..|]. left. simpl.
        apply (StructuralEqual_trans _ func2); [done|].
        rewrite StructuralEqual_sym.
        by apply (StructuralEqual_trans _ func1).
      - pose proof (structural_map_find_None _ _ E f1 gv1 Hin1_2) as Hf.
        assert (StructuralEqual f1 func2 = true)
          by by apply (StructuralEqual_trans _ func1).
        congruence. }
    unfold Add in Hadd2. rewrite Hfind in Hadd2. by injection Hadd2 as <- <- <-.
  - intros Hne ->.
    assert ((f1, gv2) = (f2, gv2)) as [= ->].
    { eapply (wf_entry_unique h3 m3); [done..|]. by right. }
    assert (StructuralEqual func1 func2 = true); [|congruence].
    apply (StructuralEqual_trans _ f2); [|done].
    by rewrite StructuralEqual_sym.
  - exists f1. split; [|done]. by apply Hmap3.
  - exists f2. split; [|done]. by apply Hmap3.
  - intros g f Hg Hf. apply Hmap3 in Hg.
    assert ((f, g) = (f1, gv1)) as [= _ ->]; [|done].
    eapply (wf_entry_unique h3 m3); [done..|]. left. simpl.
    apply (StructuralEqual_trans _ func1); [done|].
    by rewrite StructuralEqual_sym.
  - intros g f Hg Hf. apply Hmap3 in Hg.
    assert ((f, g) = (f2, gv2)) as [= _ ->]; [|done].
    eapply (wf_entry_unique h3 m3); [done..|]. left. simpl.
    apply (StructuralEqual_trans _ func2); [done|].
    by rewrite StructuralEqual_sym.
  - intros Hempty ->. simpl in Hbetween. injection Hbetween as <- <- <-.
    assert (Hnil : structural_map m = []).
    { destruct (structural_map m) as [|[f g] l] eqn:E; [done|].
      destruct Hwf as (_ & _ & Hmap).
      assert (Hin : (f, g) ∈ structural_map m) by (rewrite E; apply list_elem_of_here).
      apply Hmap in Hin. rewrite Hempty in Hin. by rewrite lookup_empty in Hin. }
    destruct Hcase1 as [[-> ->]|(_ & Hgv1 & Hh1 & Hfm1 & Hsm1)].
    { rewrite Hnil in Hin1. by apply not_elem_of_nil in Hin1. }
    rewrite Hempty in Hfm1. rewrite Hnil in Hsm1. simpl in Hsm1.
    destruct Hcase2 as [[-> ->]|(Hfind2 & Hgv2 & Hh2 & Hfm2 & Hsm2)].
    + rewrite Hfm1, map_size_insert_None, map_size_empty by apply lookup_empty.
      rewrite Hsm1 in Hin2. apply list_elem_of_singleton in Hin2 as [= -> ->].
      by rewrite Heq2.
    + rewrite Hfm2, Hfm1.
      rewrite Hsm1 in Hfind2.
      pose proof (structural_map_find_None _ _ Hfind2 func1 gv1) as Hne.
      rewrite Hne by apply list_elem_of_here.
      rewrite map_size_insert_None.
      * by rewrite map_size_insert_None, map_size_empty by apply lookup_empty.
      * rewrite lookup_insert_ne; [apply lookup_empty|].
        rewrite Hgv1, Hgv2, Hh1. intros [= ?]. lia.
Qed.

End ModuleScope.

(** ** The scope stack *)

Section ScopeStack.

Variable BaseFunc : Type.

Local Abbreviation State := (IRBuilderNode BaseFunc).
Local Abbreviation Scope := (BaseScope BaseFunc).

(** The registry after the names [names] have been erased from it. *)
Lemma lookup_erase_all (names : list string) (m : gmap string ObjectRef) (k : string) :
  fold_left (fun m name => delete name m) names m !! k =
    if decide (k ∈ names) then None else m !! k.
Proof.
  revert m. induction names as [|n names IH]; intros m.
  - destruct (decide (k ∈ [])) as [Hin|_]; [|done].
    by apply not_elem_of_nil in Hin.
  - change (fold_left (fun m name => delete name m) names (delete n m) !! k =
            if decide (k ∈ n :: names) then None else m !! k).
    rewrite IH. destruct (decide (k ∈ names)) as [Hin|Hnin].
    + destruct (decide (k ∈ n :: names)) as [_|Hn]; [done|].
      exfalso. apply Hn. by apply list_elem_of_further.
    + destruct (decide (k ∈ n :: names)) as [[->|?]%elem_of_cons|Hn].
      * apply lookup_delete_eq.
      * done.
      * apply lookup_delete_ne. intros ->. apply Hn, list_elem_of_here.
Qed.

Lemma for_each_call_Callback (cbs : list Callback) (s : State) :
  for_each cbs call_Callback s =
    (OK tt, set_called (fun l => l ++ ((fun cb => (cb, name2value s)) <$> cbs)) s).
Proof.
  revert s. induction cbs as [|cb cbs IH]; intros s; simpl.
  - unfold ret, set_called. rewrite app_nil_r. by destruct s.
  - unfold bind, call_Callback, modify at 1. rewrite IH.
    unfold set_called. simpl. by rewrite <- app_assoc.
Qed.

Lemma for_each_erase (names : list string) (s : State) :
  for_each names (fun name => modify (set_name2value (delete name))) s =
    (OK tt, set_name2value
              (fun m => fold_left (fun m name => delete name m) names m) s).
Proof.
  revert s. induction names as [|n names IH]; intros s; simpl.
  - unfold ret, set_name2value. by destruct s.
  - unfold bind, modify at 1. rewrite IH. done.
Qed.

(** [PopScope] on a stack that is not empty. *)
Lemma PopScope_OK (self : State) (scope : Scope) :
  back (scopes self) = OK scope ->
  PopScope self =
    (OK scope,
     mkIRBuilderNode
       (pop_back (scopes self))
       (fold_left (fun m name => delete name m) (vars scope) (name2value self))
       (id2bind self) (next_addr self)
       (called self ++ ((fun cb => (cb, name2value self)) <$> callbacks scope))).
Proof.
  intros Hback. unfold PopScope.
  unfold bind at 1. unfold get. rewrite bind_OK with (a := scope) (self' := self);
    [|unfold lift; by rewrite Hback].
  unfold bind at 1, modify at 1.
  unfold bind at 1. rewrite for_each_call_Callback.
  unfold bind at 1. rewrite for_each_erase. done.
Qed.

(** The names owned at index [d] and above, after a name is added to one
    of these scopes. *)
Lemma concat_vars_alter_AddVar (name : string) (i : nat) (l : list Scope) :
  i < length l ->
  concat (vars <$> alter (AddVar name) i l) ≡ₚ name :: concat (vars <$> l).
Proof.
  revert i. induction l as [|s l IH]; intros i Hi; simpl in *; [lia|].
  destruct i as [|i]; simpl.
  - rewrite <- (assoc_L (++)). simpl.
    rewrite <- Permutation_middle. done.
  - rewrite (IH i) by lia. by rewrite Permutation_middle.
Qed.

Lemma inner_names_AddVar (d : nat) (name : string) (owner : nat) (self : State) :
  d <= owner < length (scopes self) ->
  inner_names d (set_scopes (alter (AddVar name) owner) self)
    ≡ₚ name :: inner_names d self.
Proof.
  intros Howner. unfold inner_names. simpl.
  rewrite drop_alter_ge by lia.
  apply concat_vars_alter_AddVar. rewrite length_drop. lia.
Qed.

Lemma run_ScopeOps_cons (op : ScopeOp BaseFunc) (ops : list (ScopeOp BaseFunc))
    (self self1 : State) :
  run_ScopeOps (op :: ops) self = (OK tt, self1) ->
  exists s, run_ScopeOp op self = (OK tt, s) /\ run_ScopeOps ops s = (OK tt, self1).
Proof.
  simpl. unfold bind. destruct (run_ScopeOp op self) as [[[]|e] s]; [eauto|done].
Qed.

(** The calls between a push and the matching pop keep the relation, and
    leave on top the scope that was pushed, with the names and the
    callbacks registered on it since. *)
Lemma run_nested (d : nat) (R0 : gmap string ObjectRef) (ops : list (ScopeOp BaseFunc)) :
  forall (self self1 : State) (cur : Scope),
    nested d (length (scopes self)) ops ->
    scopes self !! d = Some cur ->
    registry_extends d R0 self ->
    run_ScopeOps ops self = (OK tt, self1) ->
    length (scopes self1) = S d
    /\ scopes self1 !! d =
         Some (mkBaseScope (vars cur ++ added_vars d ops)
                           (callbacks cur ++ added_callbacks d ops) (node cur))
    /\ registry_extends d R0 self1.
Proof.
  induction ops as [|op ops IH]; intros self self1 cur Hnested Hcur Hreg Hrun.
  - simpl in *. injection Hrun as <-. rewrite !app_nil_r.
    split_and!; [done| |done]. by destruct cur.
  - apply run_ScopeOps_cons in Hrun as (s & Hop & Hrun).
    pose proof (lookup_lt_Some _ _ _ Hcur) as Hd.
    destruct op as [scope| |name value owner|owner cb]; simpl in Hnested, Hop.
    + (* PushScope *)
      destruct Hnested as [Hfresh Hnested].
      unfold PushScope in Hop. unfold_M. injection Hop as <-.
      apply (IH _ self1 cur) in Hrun; [done| | |]; simpl.
      * by rewrite length_app, Nat.add_1_r.
      * by rewrite lookup_app_l.
      * unfold registry_extends, inner_names in *. simpl.
        rewrite drop_app_le by lia.
        rewrite fmap_app, concat_app. simpl. rewrite Hfresh. simpl.
        by rewrite app_nil_r.
    + (* PopScope *)
      destruct Hnested as [Hdepth Hnested].
      destruct (back (scopes self)) as [top|e] eqn:Hback;
        [|apply back_Throw in Hback; rewrite Hback in Hd; simpl in Hd; lia].
      unfold bind in Hop. rewrite (PopScope_OK _ _ Hback) in Hop.
      unfold ret in Hop. injection Hop as <-.
      apply back_OK in Hback.
      assert (Hlen : length (scopes self) = S (length (pop_back (scopes self)))).
      { rewrite Hback at 1. rewrite length_app. simpl. lia. }
      assert (Hinner : inner_names d self =
                concat (vars <$> drop d (pop_back (scopes self))) ++ vars top).
      { unfold inner_names. rewrite Hback at 1.
        rewrite drop_app_le by lia. rewrite fmap_app, concat_app. simpl.
        by rewrite app_nil_r. }
      apply (IH _ self1 cur) in Hrun; [done| | |]; simpl.
      * rewrite Hlen in Hnested. done.
      * rewrite Hback in Hcur. rewrite lookup_app_l in Hcur by lia. done.
      * destruct Hreg as (Hnodup & Hin & Hout).
        rewrite Hinner in Hnodup, Hin, Hout.
        apply NoDup_app in Hnodup as (Hnd1 & Hdisj & Hnd2).
        unfold registry_extends, inner_names. simpl. split_and!; [done| |].
        -- intros k Hk. destruct (Hin k) as [HR0 Hsome];
             [apply elem_of_app; by left|].
           split; [done|]. rewrite lookup_erase_all.
           rewrite decide_False; [done|]. by apply Hdisj.
        -- intros k Hk. rewrite lookup_erase_all.
           destruct (decide (k ∈ vars top)) as [Hktop|Hktop].
           ++ symmetry. apply Hin. apply elem_of_app. by right.
           ++ apply Hout. intros [?|?]%elem_of_app; done.
    + (* AddVars *)
      destruct Hnested as [Howner Hnested].
      unfold AddVars in Hop. unfold_M.
      destruct (decide (name2value self !! name = None)) as [Hfree|]; [|done].
      simpl in Hop. injection Hop as <-.
      pose proof (inner_names_AddVar d name owner self Howner) as Hperm.
      destruct Hreg as (Hnodup & Hin & Hout).
      assert (Hnotin : name ∉ inner_names d self).
      { intros Hk. apply Hin in Hk as [_ [v Hv]]. congruence. }
      assert (Hreg' : registry_extends d R0
                (set_scopes (alter (AddVar name) owner)
                   (set_name2value (insert name value) self))).
      { unfold registry_extends.
        assert (Hperm' : inner_names d
                  (set_scopes (alter (AddVar name) owner)
                     (set_name2value (insert name value) self))
                  ≡ₚ name :: inner_names d self) by exact Hperm.
        split_and!.
        - rewrite Hperm'. by apply NoDup_cons.
        - intros k Hk. rewrite Hperm' in Hk. simpl.
          apply elem_of_cons in Hk as [->|Hk].
          + rewrite lookup_insert_eq. split; [|by eauto].
            rewrite <- (Hout name Hnotin). done.
          + destruct (Hin k Hk) as [HR0 Hsome]. split; [done|].
            rewrite lookup_insert_ne; [done|]. intros ->. done.
        - intros k Hk. rewrite Hperm' in Hk. simpl.
          apply not_elem_of_cons in Hk as [Hne Hk].
          rewrite lookup_insert_ne by done. by apply Hout. }
      destruct (decide (owner = d)) as [->|Hne].
      * apply (IH _ self1 (AddVar name cur)) in Hrun; [| |simpl|done].
        -- simpl in Hrun. rewrite <- (assoc_L (++)) in Hrun. done.
        -- simpl. by rewrite length_alter.
        -- rewrite list_lookup_alter_eq. by rewrite Hcur.
      * apply (IH _ self1 cur) in Hrun; [done| |simpl|done].
        -- simpl. by rewrite length_alter.
        -- by rewrite list_lookup_alter_ne.
    + (* AddCallback *)
      unfold_M. injection Hop as <-.
      assert (Hreg' : registry_extends d R0
                (set_scopes (alter (AddCallback cb) owner) self)).
      { unfold registry_extends, inner_names in *. simpl.
        assert (vars <$> drop d (alter (AddCallback cb) owner (scopes self)) =
                vars <$> drop d (scopes self)) as ->; [|done].
        apply list_eq. intros i. rewrite !list_lookup_fmap, !lookup_drop.
        destruct (decide (owner = d + i)) as [->|Hne].
        - rewrite list_lookup_alter_eq. by destruct (scopes self !! (d + i)).
        - by rewrite list_lookup_alter_ne. }
      destruct (decide (owner = d)) as [->|Hne].
      * apply (IH _ self1 (AddCallback cb cur)) in Hrun; [| |simpl|done].
        -- simpl in Hrun. rewrite <- (assoc_L (++)) in Hrun. done.
        -- simpl. by rewrite length_alter.
        -- rewrite list_lookup_alter_eq. by rewrite Hcur.
      * apply (IH _ self1 cur) in Hrun; [done| |simpl|done].
        -- simpl. by rewrite length_alter.
        -- by rewrite list_lookup_alter_ne.
Qed.

(** C8, as the code has it: a freshly constructed scope is pushed, calls
    nested inside it follow (pushes of fresh scopes with their pops, names
    registered to the scopes pushed since, callbacks registered), and the
    scope is popped.  The pop succeeds and returns that scope with its
    payload; the registry is then what it was before the push; every name
    registered to the scope was still registered when the callbacks ran
    and is released afterwards; and the callbacks of the scope have been
    called once each, in the order of their registration, on the registry
    as it was before the names were removed. *)
Theorem PopScope_restores_registry (self self1 : State) (scope : Scope)
    (ops : list (ScopeOp BaseFunc)) :
  vars scope = [] ->
  nested (length (scopes self)) (S (length (scopes self))) ops ->
  run_ScopeOps ops (snd (PushScope scope self)) = (OK tt, self1) ->
  exists popped self2,
    PopScope self1 = (OK popped, self2)
    /\ node popped = node scope
    /\ vars popped = added_vars (length (scopes self)) ops
    /\ callbacks popped = callbacks scope ++ added_callbacks (length (scopes self)) ops
    /\ name2value self2 = name2value self
    /\ (forall name, name ∈ vars popped ->
          is_Some (name2value self1 !! name) /\ name2value self2 !! name = None)
    /\ called self2 =
         called self1 ++ ((fun cb => (cb, name2value self1)) <$> callbacks popped)
    /\ length (scopes self2) = length (scopes self).
Proof.
  intros Hfresh Hnested Hrun.
  set (d := length (scopes self)) in *.
  assert (Hreg0 : registry_extends d (name2value self) (snd (PushScope scope self))).
  { unfold registry_extends, inner_names. simpl.
    rewrite (drop_app_length' _ _ d) by done. simpl. rewrite Hfresh. simpl.
    split_and!; [apply NoDup_nil_2| |done].
    intros k Hk. by apply not_elem_of_nil in Hk. }
  apply (run_nested d (name2value self) ops _ self1 scope) in Hrun;
    [|simpl; by rewrite length_app, Nat.add_1_r
     |simpl; by apply list_lookup_middle
     |done].
  destruct Hrun as (Hlen & Htop & Hnodup & Hin & Hout).
  rewrite Hfresh in Htop. simpl in Htop.
  set (popped := mkBaseScope (added_vars d ops)
                   (callbacks scope ++ added_callbacks d ops) (node scope)) in *.
  assert (Hback : back (scopes self1) = OK popped).
  { unfold back. rewrite last_lookup, Hlen. simpl. by rewrite Htop. }
  assert (Hinner : inner_names d self1 = vars popped).
  { unfold inner_names. rewrite (drop_S _ _ _ Htop), drop_ge by lia.
    simpl. by rewrite app_nil_r. }
  rewrite Hinner in Hin, Hout.
  exists popped. eexists. split; [by apply PopScope_OK|]. simpl.
  assert (Hrestored :
    fold_left (fun m name => delete name m) (added_vars d ops) (name2value self1)
    = name2value self).
  { apply map_eq. intros k. rewrite lookup_erase_all.
    destruct (decide (k ∈ added_vars d ops)) as [Hk|Hk].
    - symmetry. by apply Hin.
    - by apply Hout. }
  split_and!; [done..| | |done|].
  - done.
  - intros name Hname. split; [by apply Hin|].
    rewrite Hrestored. by apply Hin.
  - unfold pop_back. rewrite (back_OK _ _ Hback) in Hlen.
    rewrite length_app in Hlen. simpl in Hlen. unfold pop_back in Hlen. lia.
Qed.

End ScopeStack.

(** ** Blocks *)

Section Blocks.

Variable BaseFunc : Type.
Variable FInferShape_map : string -> option (Call -> DiagnosticContext -> option Expr).
Variable FInferType_map : string -> option (Call -> DiagnosticContext -> option Ty).

Local Abbreviation State := (IRBuilderNode BaseFunc).
Local Abbreviation Scope := (BaseScope BaseFunc).
Local Abbreviation Emit_expr' := (Emit_expr FInferShape_map FInferType_map).
Local Abbreviation EmitOutput_expr' := (EmitOutput_expr FInferShape_map FInferType_map).
Local Abbreviation CreateVarBinding' := (CreateVarBinding FInferShape_map FInferType_map).

(** [EndBlock] on a stack that is not empty: the top scope is popped, and
    the answer depends on its dynamic type. *)
Lemma EndBlock_pops (self : State) (scope : Scope) :
  back (scopes self) = OK scope ->
  EndBlock self =
    (match node scope with
     | DataflowScopeNode bs => OK (mkDataflowBlock bs)
     | NonDataflowScopeNode bs => OK (mkBindingBlock bs)
     | _ => Throw (ICHECK_failed "Invalid scope: ")
     end,
     mkIRBuilderNode
       (pop_back (scopes self))
       (fold_left (fun m name => delete name m) (vars scope) (name2value self))
       (id2bind self) (next_addr self)
       (called self ++ ((fun cb => (cb, name2value self)) <$> callbacks scope))).
Proof.
  intros Hback. unfold EndBlock. unfold bind at 1. unfold get.
  assert (Hne : scopes self <> []).
  { intros Hnil. rewrite Hnil in Hback. done. }
  unfold bind at 1. destruct (scopes self) eqn:Hs; [done|]. rewrite <- Hs in *.
  unfold ret. rewrite (bind_OK _ _ _ _ _ (PopScope_OK _ self scope Hback)).
  by destruct (node scope).
Qed.

(** X1: [EndBlock] on a builder whose innermost scope is a block pops
    that scope and returns its bindings, in the order of their emission,
    as a dataflow block when the scope is a dataflow scope and as a
    binding block otherwise.  The pop releases the names of the scope and
    calls its callbacks; [id2bind] is not touched, so that the bindings of
    the block stay recorded after the block has ended. *)
Theorem EndBlock_closes_block (self : State) (scope : Scope) :
  back (scopes self) = OK scope ->
  is_block scope = true ->
  exists self',
    EndBlock self =
      (OK (if is_DataflowScope scope then mkDataflowBlock (scope_bindings scope)
           else mkBindingBlock (scope_bindings scope)), self')
    /\ scopes self' = pop_back (scopes self)
    /\ id2bind self' = id2bind self
    /\ (forall k, name2value self' !! k =
                  if decide (k ∈ vars scope) then None else name2value self !! k)
    /\ called self' =
         called self ++ ((fun cb => (cb, name2value self)) <$> callbacks scope).
Proof.
  intros Hback Hblock. eexists. rewrite (EndBlock_pops _ _ Hback).
  unfold is_block, is_DataflowScope, is_NonDataflowScope, scope_bindings in *.
  split; [destruct (node scope); simpl in *; done|].
  split_and!; [done|done| |done].
  intros k. simpl. apply lookup_erase_all.
Qed.

(** X2: [EndBlock] on an empty stack fails its [CHECK] and leaves the
    builder as it was.  On a stack whose innermost scope is not a block
    (a module scope, a plain scope) it fails with "Invalid scope", but only
    after [PopScope] has run: the scope is gone from the stack, its names
    are released and its callbacks have been called. *)
Theorem EndBlock_outside_block (self : State) :
  (scopes self = [] ->
     EndBlock self = (Throw (CHECK_failed "!scopes.empty()"), self))
  /\ (forall scope, back (scopes self) = OK scope -> is_block scope = false ->
        exists self',
          EndBlock self = (Throw (ICHECK_failed "Invalid scope: "), self')
          /\ scopes self' = pop_back (scopes self)
          /\ (forall k, k ∈ vars scope -> name2value self' !! k = None)
          /\ called self' =
               called self ++ ((fun cb => (cb, name2value self)) <$> callbacks scope)).
Proof.
  split.
  - intros Hnil. unfold EndBlock. unfold_M. by rewrite Hnil.
  - intros scope Hback Hblock. eexists. rewrite (EndBlock_pops _ _ Hback).
    unfold is_block, is_DataflowScope, is_NonDataflowScope in *.
    split; [destruct (node scope); simpl in *; done|].
    split_and!; [done| |done].
    intros k Hk. simpl. rewrite lookup_erase_all. by rewrite decide_True.
Qed.

(** The block scope after the bindings have been appended to it. *)
Lemma push_each_block (bindings : list VarBinding) (scope : Scope) :
  is_block scope = true ->
  let scope' := fold_left (fun s b => bindings_push_back (Binding_VarBinding b) s)
                          bindings scope in
  scope_bindings scope' = scope_bindings scope ++ (Binding_VarBinding <$> bindings)
  /\ is_DataflowScope scope' = is_DataflowScope scope
  /\ is_block scope' = true
  /\ vars scope' = vars scope /\ callbacks scope' = callbacks scope.
Proof.
  revert scope. induction bindings as [|b bindings IH]; intros scope Hblock; simpl.
  - by rewrite app_nil_r.
  - destruct (bindings_push_back_block _ (Binding_VarBinding b) scope Hblock) as [Hb Hd].
    assert (Hblock' : is_block (bindings_push_back (Binding_VarBinding b) scope) = true).
    { unfold is_block, is_DataflowScope, is_NonDataflowScope, bindings_push_back in *.
      destruct (node scope) eqn:E; simpl; rewrite ?E; done. }
    destruct (IH _ Hblock') as (-> & -> & -> & -> & ->).
    rewrite Hb, Hd, <- (assoc_L (++)). split_and!; try done.
    all: unfold bindings_push_back; by destruct (node scope).
Qed.

(** Inside a block, the loop emits every binding, in order. *)
Lemma Emit_each_OK (bindings : list VarBinding) (self : State) (scope : Scope) :
  back (scopes self) = OK scope ->
  is_block scope = true ->
  (is_DataflowScope scope = true ->
     Forall (fun b => var_is_dataflow (vb_var b) = true) bindings) ->
  Emit_each bindings self =
    (OK tt,
     mkIRBuilderNode
       (pop_back (scopes self) ++
          [fold_left (fun s b => bindings_push_back (Binding_VarBinding b) s)
                     bindings scope])
       (name2value self)
       (fold_left (fun m b => <[vid (vb_var b) := vb_value b]> m) bindings (id2bind self))
       (next_addr self) (called self)).
Proof.
  revert self scope. induction bindings as [|b bindings IH];
    intros self scope Hback Hblock Hlocal.
  - simpl. unfold ret. rewrite <- (back_OK _ _ Hback). by destruct self.
  - change (Emit_each (b :: bindings) self)
      with (bind (bind (Emit b) (fun _ => ret tt))
                 (fun _ => Emit_each bindings) self).
    assert (Hcase : is_NonDataflowScope scope = true \/
                    (is_DataflowScope scope = true /\ var_is_dataflow (vb_var b) = true)).
    { unfold is_block in Hblock. destruct (is_DataflowScope scope) eqn:Hd.
      - right. split; [done|]. specialize (Hlocal eq_refl). by inversion Hlocal.
      - by left. }
    unfold bind at 1. unfold bind at 1. rewrite (Emit_OK _ _ _ _ Hback Hcase).
    unfold ret at 1.
    destruct (bindings_push_back_block _ (Binding_VarBinding b) scope Hblock) as [_ Hd].
    rewrite (IH _ (bindings_push_back (Binding_VarBinding b) scope)).
    + simpl. by rewrite pop_back_snoc.
    + simpl. apply back_snoc.
    + unfold is_block, is_DataflowScope, is_NonDataflowScope, bindings_push_back in *.
      destruct (node scope) eqn:E; simpl; rewrite ?E; done.
    + rewrite Hd. intros Hdf. specialize (Hlocal Hdf). by inversion Hlocal.
Qed.

(** The last binding of an identity is the one that stays recorded. *)
Lemma lookup_insert_each (bindings : list VarBinding) (m : gmap Id Expr) (id : Id) :
  Forall (fun b => vid (vb_var b) <> id) bindings ->
  fold_left (fun m b => <[vid (vb_var b) := vb_value b]> m) bindings m !! id = m !! id.
Proof.
  revert m. induction bindings as [|b bindings IH]; intros m Hne; [done|].
  inversion Hne; subst. simpl. rewrite IH by done. by rewrite lookup_insert_ne.
Qed.

Lemma lookup_insert_each_last (bindings : list VarBinding) (m : gmap Id Expr)
    (i : nat) (b : VarBinding) :
  bindings !! i = Some b ->
  (forall j b', i < j -> bindings !! j = Some b' -> vid (vb_var b') <> vid (vb_var b)) ->
  fold_left (fun m b => <[vid (vb_var b) := vb_value b]> m) bindings m !! vid (vb_var b)
    = Some (vb_value b).
Proof.
  revert m i. induction bindings as [|b0 bindings IH]; intros m i Hi Hlater; [done|].
  destruct i as [|i]; simpl in *.
  - injection Hi as ->. rewrite lookup_insert_each; [apply lookup_insert_eq|].
    apply Forall_forall. intros b' [j Hj]%list_elem_of_lookup.
    apply (Hlater (S j)); [lia|done].
  - apply (IH _ i); [done|]. intros j b' Hj Hb'. apply (Hlater (S j)); [lia|done].
Qed.

(** X3: a block that is opened, filled by [Emit] and closed.  With local
    variables in a dataflow block, and with any variables in a binding
    block, every [Emit] succeeds and [EndBlock] returns exactly the
    bindings that were emitted, in that order, in a block of the kind that
    was opened.  The builder is then as before, but for [id2bind], which
    holds the value of every binding: [LookupBinding] answers, after the
    block has ended, with the value of the last binding of an identity. *)
Theorem build_block_returns_bindings (self : State) (dataflow : bool)
    (bindings : list VarBinding) :
  (dataflow = true -> Forall (fun b => var_is_dataflow (vb_var b) = true) bindings) ->
  build_block dataflow bindings self =
    (OK (if dataflow then mkDataflowBlock (Binding_VarBinding <$> bindings)
         else mkBindingBlock (Binding_VarBinding <$> bindings)),
     set_id2bind
       (fun m => fold_left (fun m b => <[vid (vb_var b) := vb_value b]> m) bindings m)
       self)
  /\ (forall i b,
        bindings !! i = Some b ->
        (forall j b', i < j -> bindings !! j = Some b' ->
                      vid (vb_var b') <> vid (vb_var b)) ->
        LookupBinding (vid (vb_var b)) (snd (build_block dataflow bindings self)) =
          (OK (vb_value b), snd (build_block dataflow bindings self))).
Proof.
  intros Hlocal.
  set (scope0 := if dataflow then DataflowScope_new BaseFunc
                 else NonDataflowScope_new BaseFunc).
  set (self0 := set_scopes (fun l => l ++ [scope0]) self).
  assert (Hbegin : (if dataflow then BeginDataflowBlock else BeginBindingBlock) self
                   = (OK tt, self0)).
  { unfold self0, scope0. by destruct dataflow. }
  assert (Hback : back (scopes self0) = OK scope0) by apply back_snoc.
  assert (Hblock : is_block scope0 = true) by (unfold scope0; by destruct dataflow).
  assert (Hdf : is_DataflowScope scope0 = dataflow) by (unfold scope0; by destruct dataflow).
  assert (Hrun : build_block dataflow bindings self =
    (OK (if dataflow then mkDataflowBlock (Binding_VarBinding <$> bindings)
         else mkBindingBlock (Binding_VarBinding <$> bindings)),
     set_id2bind
       (fun m => fold_left (fun m b => <[vid (vb_var b) := vb_value b]> m) bindings m)
       self)).
  { unfold build_block. rewrite (bind_OK _ _ _ _ _ Hbegin).
    rewrite (bind_OK _ _ _ _ _ (Emit_each_OK bindings self0 scope0 Hback Hblock
                                  ltac:(by rewrite Hdf))).
    destruct (push_each_block bindings scope0 Hblock) as (Hb & Hd & Hbl & Hv & Hc).
    cbv zeta in *.
    set (scope1 := fold_left (fun s b => bindings_push_back (Binding_VarBinding b) s)
                             bindings scope0) in *.
    match goal with |- EndBlock ?st = _ =>
      assert (Hback' : back (scopes st) = OK scope1) by apply back_snoc
    end.
    rewrite (EndBlock_pops _ _ Hback'). simpl.
    rewrite pop_back_snoc, pop_back_snoc, Hv, Hc.
    assert (Hv0 : vars scope0 = []) by (unfold scope0; by destruct dataflow).
    assert (Hc0 : callbacks scope0 = []) by (unfold scope0; by destruct dataflow).
    rewrite Hv0, Hc0. simpl. rewrite app_nil_r.
    unfold set_id2bind. f_equal.
    assert (Hsb0 : scope_bindings scope0 = []) by (unfold scope0; by destruct dataflow).
    rewrite Hsb0 in Hb. rewrite Hdf in Hd. simpl in Hb. clearbody scope0.
    unfold is_block in Hbl. unfold scope_bindings, is_DataflowScope, is_NonDataflowScope in Hb, Hd, Hbl.
    clearbody scope1.
    destruct (node scope1); destruct dataflow; simpl in *; subst; done. }
  split; [done|].
  intros i b Hi Hlater. rewrite Hrun. simpl.
  unfold LookupBinding. unfold_M.
  by rewrite (lookup_insert_each_last _ _ _ _ Hi Hlater).
Qed.

End Blocks.

(** ** The checks of the emission operations *)

Section EmissionChecks.

Variable BaseFunc : Type.
Variable FInferShape_map : string -> option (Call -> DiagnosticContext -> option Expr).
Variable FInferType_map : string -> option (Call -> DiagnosticContext -> option Ty).

Local Abbreviation State := (IRBuilderNode BaseFunc).
Local Abbreviation Scope := (BaseScope BaseFunc).
Local Abbreviation Emit_expr' := (Emit_expr FInferShape_map FInferType_map).
Local Abbreviation EmitOutput_expr' := (EmitOutput_expr FInferShape_map FInferType_map).
Local Abbreviation CreateVarBinding' := (CreateVarBinding FInferShape_map FInferType_map).

(** X4: the emission operations need a block.  When the innermost scope
    is not a dataflow scope, [EmitOutput] fails with "Invalid scope" in
    both its forms, also inside a binding block; when the innermost scope
    is not a block at all, so do [Emit] and [EmitMatchShape] in both their
    forms.  The builder is left exactly as it was: the forms that create
    the variable fail before they allocate it. *)
Theorem emission_outside_block (self : State) (scope : Scope) :
  back (scopes self) = OK scope ->
  (is_DataflowScope scope = false ->
     (forall b, EmitOutput b self = (Throw (LOG_FATAL "Invalid scope: "), self))
     /\ (forall output h,
           EmitOutput_expr' output h self = (Throw (LOG_FATAL "Invalid scope: "), self)))
  /\
  (is_block scope = false ->
     (forall b, Emit b self = (Throw (LOG_FATAL "Invalid scope: "), self))
     /\ (forall b, EmitMatchShape b self = (Throw (LOG_FATAL "Invalid scope: "), self))
     /\ (forall expr h,
           Emit_expr' expr h self = (Throw (LOG_FATAL "Invalid scope: "), self))
     /\ (forall value pattern h,
           EmitMatchShape_expr value pattern h self =
             (Throw (LOG_FATAL "Invalid scope: "), self))).
Proof.
  intros Hback. split.
  - intros Hdf. split.
    + intros b. unfold EmitOutput. unfold_M. rewrite Hback. simpl.
      unfold is_DataflowScope in Hdf. by destruct (node scope).
    + intros output h. unfold EmitOutput_expr. unfold_M. rewrite Hback. simpl.
      by rewrite Hdf.
  - intros Hblock. unfold is_block in Hblock.
    apply orb_false_iff in Hblock as [Hdf Hndf].
    assert (Hvar : forall h, CreateScopedVar h self =
                             (Throw (LOG_FATAL "Invalid scope: "), self)).
    { intros h. unfold CreateScopedVar. unfold_M. rewrite Hback. simpl.
      by rewrite Hdf, Hndf. }
    unfold is_DataflowScope in Hdf. unfold is_NonDataflowScope in Hndf.
    split_and!.
    + intros b. unfold Emit. unfold_M. rewrite Hback. simpl. by destruct (node scope).
    + intros b. unfold EmitMatchShape. unfold_M. rewrite Hback. simpl.
      by destruct (node scope).
    + intros expr h. unfold Emit_expr. by rewrite (bind_Throw _ _ _ _ _ (Hvar h)).
    + intros value pattern h. unfold EmitMatchShape_expr.
      by rewrite (bind_Throw _ _ _ _ _ (Hvar h)).
Qed.

(** X5: inside a block, [EmitMatchShape] of a binding succeeds exactly
    when the variable has the locality of the block: it then appends the
    binding to the block and leaves [id2bind] as it was.  A global variable
    in a dataflow block and a local variable in a binding block each fail
    their check and leave the builder as it was; [Emit] has no such check
    in a binding block, and accepts the same local variable there. *)
Theorem EmitMatchShape_scope_discipline (self : State) (scope : Scope)
    (binding : MatchShape) :
  back (scopes self) = OK scope ->
  is_block scope = true ->
  (var_is_dataflow (ms_var binding) = is_DataflowScope scope ->
     exists self',
       EmitMatchShape binding self = (OK (ms_var binding), self')
       /\ scopes self' =
            pop_back (scopes self) ++ [bindings_push_back (Binding_MatchShape binding) scope]
       /\ scope_bindings (bindings_push_back (Binding_MatchShape binding) scope) =
            scope_bindings scope ++ [Binding_MatchShape binding]
       /\ id2bind self' = id2bind self)
  /\
  (is_DataflowScope scope = true -> var_is_dataflow (ms_var binding) = false ->
     EmitMatchShape binding self =
       (Throw (ICHECK_failed
          "EmitMatchShape can only be used for local bindings in a dataflow block."),
        self))
  /\
  (is_DataflowScope scope = false -> var_is_dataflow (ms_var binding) = true ->
     EmitMatchShape binding self =
       (Throw (ICHECK_failed "cannot emit dataflow vars outside a dataflow block: "),
        self)
     /\ exists self',
          Emit (mkVarBinding (ms_var binding) (ms_value binding)) self =
            (OK (ms_var binding), self')).
Proof.
  intros Hback Hblock. split_and!.
  - intros Hloc. eexists. rewrite (EmitMatchShape_OK _ _ _ _ Hback Hblock Hloc).
    split_and!; [done|done| |done].
    by apply bindings_push_back_block.
  - intros Hdf Hglobal. unfold EmitMatchShape. unfold_M. rewrite Hback. simpl.
    unfold is_DataflowScope in Hdf. destruct (node scope); try done.
    by rewrite Hglobal.
  - intros Hdf Hlocal. unfold is_block in Hblock. rewrite Hdf in Hblock.
    simpl in Hblock. split.
    + unfold EmitMatchShape. unfold_M. rewrite Hback. simpl.
      unfold is_NonDataflowScope in Hblock. destruct (node scope); try done.
      by rewrite Hlocal.
    + eexists. apply (Emit_OK _ _ scope); [done|by left].
Qed.

(** X6: no call of [EmitOutput] on an expression and a name hint
    succeeds, in any state of the builder, and the failed call leaves the
    scopes, [id2bind] and the registry as they were.  Inside a dataflow
    block, for an expression that is not a projection, the error is the
    check of [Emit] on the global variable that the overload has made. *)
Theorem EmitOutput_expr_always_fails (self : State) (output : Expr) (h : option string) :
  exists e self',
    EmitOutput_expr' output h self = (Throw e, self')
    /\ scopes self' = scopes self
    /\ id2bind self' = id2bind self
    /\ name2value self' = name2value self
    /\ (forall scope,
          back (scopes self) = OK scope ->
          is_DataflowScope scope = true ->
          (Z.of_nat (size (name2value self)) <= INT_MAX)%Z ->
          as_TupleGetItemNode output = None ->
          e = ICHECK_failed
                "Emit can only be used for local bindings in a dataflow block, use EmitOutput for output bindings instead").
Proof.
  destruct (EmitOutput_expr_never_OK _ FInferShape_map FInferType_map self output h)
    as (e & self' & He).
  exists e, self'. split; [done|].
  destruct (EmitOutput_expr_Throw _ _ _ _ _ _ _ _ He) as (Hs & Hi & Hn).
  split_and!; [done..|].
  intros scope Hback Hdf Hsize Hnp.
  unfold EmitOutput_expr, Id_new in He. unfold_M. rewrite Hback in He. simpl in He.
  rewrite Hdf in He.
  destruct (GetUniqueName_total _ self (value_or h "gv") Hsize) as (k & Hk & _).
  rewrite Hk in He. simpl in He.
  destruct (CreateVarBinding' _ output) as [b|e2] eqn:Hb.
  - apply CreateVarBinding_OK in Hb as (Hg & _). simpl in Hg, He.
    unfold Emit in He. unfold_M. rewrite Hback in He. simpl in He.
    unfold is_DataflowScope in Hdf. destruct (node scope); try done.
    rewrite Hg in He. simpl in He. by injection He as <- _.
  - exfalso. unfold CreateVarBinding in Hb. rewrite Hnp in Hb. break_match; done.
Qed.

End EmissionChecks.

(** ** The scope manager *)

Section ScopeManager.

Variable BaseFunc : Type.

Local Abbreviation State := (IRBuilderNode BaseFunc).
Local Abbreviation Scope := (BaseScope BaseFunc).

(** X7: [AddVars] on a name that is registered fails with "Variable
    already exists", whatever the scope it is given, and changes nothing.
    On a name that is not registered it succeeds: [GetVar] then answers
    with the value, every other name is as before, the name is appended to
    the names of the owning scope and to no other, and [id2bind] is not
    touched. *)
Theorem AddVars_registers (self : State) (name : string) (value : ObjectRef)
    (scope : nat) :
  (forall v, GetVar self name = Some v ->
     AddVars name value scope self =
       (Throw (LOG_FATAL "Variable already exists: "), self))
  /\
  (GetVar self name = None ->
     exists self',
       AddVars name value scope self = (OK tt, self')
       /\ GetVar self' name = Some value
       /\ (forall k, k <> name -> GetVar self' k = GetVar self k)
       /\ (forall i s, scopes self !! i = Some s ->
             scopes self' !! i = Some (if decide (i = scope) then AddVar name s else s))
       /\ length (scopes self') = length (scopes self)
       /\ id2bind self' = id2bind self).
Proof.
  unfold GetVar. split.
  - intros v Hv. unfold AddVars. unfold_M.
    destruct (decide (name2value self !! name = None)) as [Hnone|_]; [congruence|done].
  - intros Hnone. eexists. unfold AddVars. unfold_M.
    destruct (decide (name2value self !! name = None)) as [_|?]; [|done]. simpl.
    split; [done|]. simpl. split_and!.
    + apply lookup_insert_eq.
    + intros k Hk. by apply lookup_insert_ne.
    + intros i s Hi. destruct (decide (i = scope)) as [->|Hne].
      * rewrite list_lookup_alter_eq. by rewrite Hi.
      * rewrite list_lookup_alter_ne by done. done.
    + apply length_alter.
    + done.
Qed.

(** A name answered by the loop of [GetUniqueName] is a candidate that is
    not registered, and every candidate probed before it is registered. *)
Lemma GetUniqueName_loop_OK (m : gmap string ObjectRef) (prefix : string)
    (fuel i : nat) (name : string) :
  GetUniqueName_loop m prefix fuel (Z.of_nat i) = OK name ->
  exists k, i <= k /\ name = candidate prefix k /\ m !! name = None
            /\ forall j, i <= j < k -> is_Some (m !! candidate prefix j).
Proof.
  revert i. induction fuel as [|fuel IH]; intros i; simpl; [done|].
  change (prefix +:+ to_string (Z.of_nat i)) with (candidate prefix i).
  destruct (decide (m !! candidate prefix i = None)) as [Hfree|Hreg].
  - intros [= <-]. exists i. split_and!; [done..|]. intros j Hj. lia.
  - destruct (decide (Z.of_nat i = INT_MAX)); [done|].
    replace (Z.of_nat i + 1)%Z with (Z.of_nat (S i)) by lia.
    intros (k & Hk & -> & Hfree & Hbelow)%IH.
    exists k. split_and!; [lia|done..|].
    intros j Hj. destruct (decide (j = i)) as [->|Hne].
    + by apply not_eq_None_Some.
    + apply Hbelow. lia.
Qed.

(** X8: a name answered by [GetUniqueName] is one of the candidates of
    its prefix and can always be registered: [AddVars] with it succeeds,
    for any value and any owning scope.  Once it is registered, [GetVar]
    finds it, and the next name drawn for the same prefix is a candidate
    with a larger number. *)
Theorem GetUniqueName_can_be_registered (self : State) (prefix name : string)
    (value : ObjectRef) (scope : nat) :
  GetUniqueName self prefix = OK name ->
  exists k self',
    name = candidate prefix k
    /\ AddVars name value scope self = (OK tt, self')
    /\ GetVar self' name = Some value
    /\ (forall name', GetUniqueName self' prefix = OK name' ->
          exists k', name' = candidate prefix k' /\ k < k').
Proof.
  intros Hname. unfold GetUniqueName in Hname.
  apply (GetUniqueName_loop_OK _ _ _ 0) in Hname as (k & _ & -> & Hfree & Hbelow).
  exists k, (set_scopes (alter (AddVar (candidate prefix k)) scope)
               (set_name2value (insert (candidate prefix k) value) self)).
  split; [done|]. split_and!.
  - unfold AddVars. unfold_M.
    by destruct (decide (name2value self !! candidate prefix k = None)).
  - unfold GetVar. simpl. apply lookup_insert_eq.
  - intros name' Hname'. unfold GetUniqueName in Hname'.
    apply (GetUniqueName_loop_OK _ _ _ 0) in Hname' as (k' & _ & -> & Hfree' & _).
    simpl in Hfree'.
    exists k'. split; [done|].
    destruct (decide (k' = k)) as [->|Hne].
    { by rewrite lookup_insert_eq in Hfree'. }
    rewrite lookup_insert_ne in Hfree'
      by (intros Heq; apply Hne; symmetry; by apply (candidate_inj prefix)).
    destruct (decide (k' < k)) as [Hlt|?]; [|lia].
    destruct (Hbelow k') as [v Hv]; [lia|]. congruence.
Qed.

(** The loop of [GetScope], from index [i - 1] down. *)
Lemma GetScope_loop_spec (is_TScope : Scope -> bool) (l : list Scope) (i : nat) :
  match GetScope_loop is_TScope l i with
  | Some j =>
      j < i /\ exists s, l !! j = Some s /\ is_TScope s = true
      /\ forall j' s', j < j' < i -> l !! j' = Some s' -> is_TScope s' = false
  | None => forall j s, j < i -> l !! j = Some s -> is_TScope s = false
  end.
Proof.
  induction i as [|i IH]; simpl.
  - intros j s Hj. lia.
  - destruct (l !! i) as [s|] eqn:Hi.
    + destruct (is_TScope s) eqn:Hs.
      * split; [lia|]. exists s. split_and!; [done..|]. intros j' s' Hj'. lia.
      * destruct (GetScope_loop is_TScope l i) as [j|].
        -- destruct IH as (Hj & s0 & Hs0 & Ht & Habove). split; [lia|].
           exists s0. split_and!; [done..|]. intros j' s' Hj' Hs'.
           destruct (decide (j' = i)) as [->|Hne]; [congruence|].
           apply (Habove j'); [lia|done].
        -- intros j s0 Hj Hs0. destruct (decide (j = i)) as [->|Hne]; [congruence|].
           apply (IH j); [lia|done].
    + destruct (GetScope_loop is_TScope l i) as [j|].
      * destruct IH as (Hj & s0 & Hs0 & Ht & Habove). split; [lia|].
        exists s0. split_and!; [done..|]. intros j' s' Hj' Hs'.
        destruct (decide (j' = i)) as [->|Hne]; [congruence|].
        apply (Habove j'); [lia|done].
      * intros j s0 Hj Hs0. destruct (decide (j = i)) as [->|Hne]; [congruence|].
        apply (IH j); [lia|done].
Qed.

(** On a stack whose height is within the range of an [int], the loop of
    [GetScope] starts at the innermost scope. *)
Lemma GetScope_in_range (is_TScope : Scope -> bool) (self : State) :
  (Z.of_nat (length (scopes self)) <= INT_MAX)%Z ->
  GetScope is_TScope self =
    GetScope_loop is_TScope (scopes self) (length (scopes self)).
Proof.
  intros Hlen. unfold GetScope. cbv zeta.
  by rewrite (int_of_size_t_small _ Hlen), Nat2Z.id.
Qed.

(** X9: on a stack whose height is within the range of an [int], the
    height being narrowed to an [int] by the code, [GetScope] answers with
    the innermost scope of the wanted type: the scope at the index it
    returns has that type and no scope above it has; and it answers with
    nothing exactly when no scope of the stack has that type. *)
Theorem GetScope_innermost (is_TScope : Scope -> bool) (self : State) :
  (Z.of_nat (length (scopes self)) <= INT_MAX)%Z ->
  match GetScope is_TScope self with
  | Some i =>
      exists s, scopes self !! i = Some s /\ is_TScope s = true
      /\ forall j s', i < j -> scopes self !! j = Some s' -> is_TScope s' = false
  | None => forall s, s ∈ scopes self -> is_TScope s = false
  end.
Proof.
  intros Hlen. rewrite (GetScope_in_range _ _ Hlen).
  pose proof (GetScope_loop_spec is_TScope (scopes self) (length (scopes self))) as H.
  destruct (GetScope_loop _ _ _) as [i|].
  - destruct H as (_ & s & Hs & Ht & Habove). exists s. split_and!; [done..|].
    intros j s' Hj Hs'. apply (Habove j); [|done].
    apply lookup_lt_Some in Hs'. lia.
  - intros s [j Hj]%list_elem_of_lookup. apply (H j); [|done].
    by apply lookup_lt_Some in Hj.
Qed.

(** One call keeps the registry and the owners in step. *)
Lemma registry_owned_step (op : ScopeOp BaseFunc) (self s : State) (r : Result unit) :
  registry_owned self ->
  match op with
  | Op_PushScope scope => vars scope = []
  | Op_AddVars _ _ scope => scope < length (scopes self)
  | _ => True
  end ->
  run_ScopeOp op self = (r, s) ->
  registry_owned s
  /\ (r = OK tt ->
      length (scopes s) =
        match op with
        | Op_PushScope _ => S (length (scopes self))
        | Op_PopScope => pred (length (scopes self))
        | _ => length (scopes self)
        end).
Proof.
  intros (Hnodup & Hreg) Hop Hrun.
  destruct op as [scope| |name value owner|owner cb]; simpl in Hrun.
  - (* PushScope *)
    unfold PushScope in Hrun. unfold_M. injection Hrun as <- <-.
    unfold registry_owned, inner_names in *. simpl. rewrite !drop_0 in *.
    rewrite fmap_app, concat_app. simpl. rewrite Hop. simpl. rewrite !app_nil_r.
    split; [done|]. intros _. rewrite length_app. simpl. lia.
  - (* PopScope *)
    unfold bind in Hrun.
    destruct (back (scopes self)) as [top|e] eqn:Hback.
    + rewrite (PopScope_OK _ _ _ Hback) in Hrun. unfold ret in Hrun.
      injection Hrun as <- <-.
      apply back_OK in Hback.
      assert (Hinner : inner_names 0 self =
                concat (vars <$> pop_back (scopes self)) ++ vars top).
      { unfold inner_names. rewrite drop_0. rewrite Hback at 1.
        rewrite fmap_app, concat_app. simpl. by rewrite app_nil_r. }
      rewrite Hinner in Hnodup, Hreg.
      apply NoDup_app in Hnodup as (Hnd1 & Hdisj & Hnd2).
      unfold registry_owned, inner_names. simpl. rewrite drop_0.
      split_and!; [done| |].
      * intros k. rewrite lookup_erase_all.
        destruct (decide (k ∈ vars top)) as [Hk|Hk].
        -- split; [by intros [? ?]|]. intros Hin. by apply Hdisj in Hin.
        -- rewrite Hreg, elem_of_app. split; [by intros [?|?]|by left].
      * intros _. rewrite Hback at 2. rewrite length_app. simpl. lia.
    + unfold PopScope in Hrun. unfold_M. rewrite Hback in Hrun. simpl in Hrun.
      injection Hrun as <- <-. done.
  - (* AddVars *)
    unfold AddVars in Hrun. unfold_M.
    destruct (decide (name2value self !! name = None)) as [Hfree|];
      simpl in Hrun; injection Hrun as <- <-; [|done].
    assert (Hperm : inner_names 0
              (set_scopes (alter (AddVar name) owner)
                 (set_name2value (insert name value) self))
              ≡ₚ name :: inner_names 0 self).
    { apply (inner_names_AddVar _ 0 name owner self). lia. }
    assert (Hnotin : name ∉ inner_names 0 self).
    { intros Hk. apply Hreg in Hk as [v Hv]. congruence. }
    split; [|intros _; simpl; apply length_alter].
    unfold registry_owned. split.
    + rewrite Hperm. by apply NoDup_cons.
    + intros k. rewrite Hperm, elem_of_cons. simpl.
      destruct (decide (k = name)) as [->|Hne].
      * rewrite lookup_insert_eq. split; [by left|by eauto].
      * rewrite lookup_insert_ne by done. rewrite Hreg. split; [by right|].
        by intros [?|?].
  - (* AddCallback *)
    unfold_M. injection Hrun as <- <-.
    split; [|intros _; simpl; apply length_alter].
    unfold registry_owned, inner_names in *. simpl. rewrite !drop_0 in *.
    assert (vars <$> alter (AddCallback cb) owner (scopes self) =
            vars <$> scopes self) as ->; [|done].
    apply list_eq. intros i. rewrite !list_lookup_fmap.
    destruct (decide (owner = i)) as [->|Hne].
    + rewrite list_lookup_alter_eq. by destruct (scopes self !! i).
    + by rewrite list_lookup_alter_ne.
Qed.

(** X10: the registry holds exactly the names owned by the scopes of the
    stack, each once.  This is kept by every sequence of [PushScope] of
    freshly constructed scopes, [PopScope], [AddVars] to scopes that are on
    the stack and registrations of callbacks, up to the first call that
    fails, a failed call changing nothing.  So when the stack is empty
    again, no name is registered. *)
Theorem registry_owned_invariant (ops : list (ScopeOp BaseFunc)) (self self' : State)
    (r : Result unit) :
  registry_owned self ->
  owners_on_stack (length (scopes self)) ops ->
  run_ScopeOps ops self = (r, self') ->
  registry_owned self'
  /\ (scopes self' = [] -> name2value self' = ∅).
Proof.
  intros Hown Hops Hrun.
  assert (Hinv : registry_owned self').
  { revert self Hown Hops Hrun. induction ops as [|op ops IH]; intros self Hown Hops Hrun.
    - simpl in Hrun. unfold ret in Hrun. by injection Hrun as <- <-.
    - simpl in Hrun. unfold bind in Hrun.
      destruct (run_ScopeOp op self) as [[[]|e] s] eqn:Hop.
      + assert (Hvalid : match op with
                         | Op_PushScope scope => vars scope = []
                         | Op_AddVars _ _ scope => scope < length (scopes self)
                         | _ => True
                         end).
        { destruct op; simpl in Hops; tauto. }
        destruct (registry_owned_step op self s _ Hown Hvalid Hop) as [Hown' Hlen].
        specialize (Hlen eq_refl).
        apply (IH s); [done| |done].
        rewrite Hlen. destruct op; simpl in Hops; tauto.
      + injection Hrun as <- <-.
        assert (Hvalid : match op with
                         | Op_PushScope scope => vars scope = []
                         | Op_AddVars _ _ scope => scope < length (scopes self)
                         | _ => True
                         end).
        { destruct op; simpl in Hops; tauto. }
        by destruct (registry_owned_step op self s _ Hown Hvalid Hop). }
  split; [done|].
  intros Hnil. destruct Hinv as [_ Hreg]. apply map_empty. intros k.
  apply eq_None_not_Some. rewrite Hreg. unfold inner_names. rewrite Hnil. simpl.
  apply not_elem_of_nil.
Qed.

End ScopeManager.

(** ** The module scope seen from the builder *)

Section ContextModule.

Variable BaseFunc : Type.
Variable StructuralEqual : BaseFunc -> BaseFunc -> bool.
Variable IRModule : Type.
Variable IRModule_new : gmap GlobalVar BaseFunc -> Result IRModule.

Hypothesis StructuralEqual_refl : forall f, StructuralEqual f f = true.
Hypothesis StructuralEqual_sym : forall f g, StructuralEqual f g = StructuralEqual g f.
Hypothesis StructuralEqual_trans : forall f g h,
  StructuralEqual f g = true -> StructuralEqual g h = true -> StructuralEqual f h = true.

Local Abbreviation State := (IRBuilderNode BaseFunc).
Local Abbreviation Scope := (BaseScope BaseFunc).
Local Abbreviation Table := (IRModuleScopeNode BaseFunc).
Local Abbreviation wf := (IRModuleScope_wf StructuralEqual).
Local Abbreviation Add' := (Add StructuralEqual).
Local Abbreviation find' := (structural_map_find StructuralEqual).
Local Abbreviation AddFuncToContext' := (AddFuncToContext StructuralEqual).
Local Abbreviation GetContextIRModule' := (GetContextIRModule IRModule_new).

(** [GetScope] answers with the innermost scope of the wanted type. *)
Lemma GetScope_Some (is_TScope : Scope -> bool) (self : State) (i : nat) (s : Scope) :
  (Z.of_nat (length (scopes self)) <= INT_MAX)%Z ->
  scopes self !! i = Some s ->
  is_TScope s = true ->
  (forall j s', i < j -> scopes self !! j = Some s' -> is_TScope s' = false) ->
  GetScope is_TScope self = Some i.
Proof.
  intros Hlen Hi Hs Habove. rewrite (GetScope_in_range _ _ _ Hlen).
  pose proof (GetScope_loop_spec _ is_TScope (scopes self) (length (scopes self))) as H.
  pose proof (lookup_lt_Some _ _ _ Hi) as Hlt.
  destruct (GetScope_loop _ _ _) as [j|].
  - destruct H as (Hj & s0 & Hs0 & Ht & Habove0). f_equal.
    destruct (decide (j < i)) as [Hji|Hji].
    + rewrite (Habove0 i s) in Hs; [done|lia|done].
    + destruct (decide (i < j)) as [Hij|Hij]; [|lia].
      rewrite (Habove j s0) in Ht; done.
  - rewrite (H i s) in Hs; done.
Qed.

(** Without a scope of the wanted type on the stack, [GetScope] answers
    with nothing, whatever the height of the stack. *)
Lemma GetScope_None (is_TScope : Scope -> bool) (self : State) :
  (forall s, s ∈ scopes self -> is_TScope s = false) ->
  GetScope is_TScope self = None.
Proof.
  intros Hall. unfold GetScope. cbv zeta.
  pose proof (GetScope_loop_spec _ is_TScope (scopes self)
                (Z.to_nat (int_of_size_t (length (scopes self))))) as H.
  destruct (GetScope_loop _ _ _) as [j|]; [|done].
  destruct H as (_ & s & Hs & Ht & _).
  rewrite Hall in Ht; [done|]. apply list_elem_of_lookup. eauto.
Qed.

(** X11: without a module scope on the stack, [AddFuncToContext] and
    [GetContextIRModule] fail with "No IRModuleScope in context" and leave
    the builder as it was. *)
Theorem AddFuncToContext_without_module (self : State) (func : BaseFunc)
    (func_name_hint : string) :
  (forall s, s ∈ scopes self -> is_IRModuleScope s = false) ->
  AddFuncToContext' func func_name_hint self =
    (Throw (ICHECK_failed "No IRModuleScope in context"), self)
  /\ GetContextIRModule' self =
       (Throw (ICHECK_failed "No IRModuleScope in context"), self).
Proof.
  intros Hall. unfold AddFuncToContext, GetContextIRModule. unfold_M.
  by rewrite (GetScope_None _ _ Hall).
Qed.

(** A function structurally equal to one that was just added gets the
    symbol of that one, and the table stays as it is. *)
Lemma Add_again (h h' : addr) (m m' : Table) (name name2 : string)
    (func func2 : BaseFunc) (gv : GlobalVar) :
  wf h m ->
  Add' name func h m = (gv, (h', m')) ->
  StructuralEqual func func2 = true ->
  Add' name2 func2 h' m' = (gv, (h', m')).
Proof.
  intros Hwf Hadd Heq.
  destruct (Add_wf _ StructuralEqual StructuralEqual_refl StructuralEqual_sym name func h m Hwf)
    as (gv0 & h0 & m0 & Hadd0 & Hwf' & (f & Hin & Hf) & _).
  rewrite Hadd in Hadd0. injection Hadd0 as <- <- <-.
  assert (Hf2 : StructuralEqual f func2 = true)
    by by apply (StructuralEqual_trans _ func).
  unfold Add. destruct (find' func2 (structural_map m')) as [g|] eqn:E.
  - apply structural_map_find_Some in E as (f0 & Hin0 & Hf0).
    assert ((f0, g) = (f, gv)) as [= _ ->]; [|done].
    eapply (wf_entry_unique _ _ h' m'); [done..|]. left. simpl.
    apply (StructuralEqual_trans _ func2); [done|].
    by rewrite StructuralEqual_sym.
  - pose proof (structural_map_find_None _ _ _ _ E f gv Hin). congruence.
Qed.

(** X12: with a module scope on a stack whose height is within the range
    of an [int], under any number of blocks, [AddFuncToContext] adds the
    function to the table of the innermost module scope by [Add] and
    touches nothing else: the other scopes, [id2bind] and the registry are
    as before.  The table then maps the returned symbol to a function
    structurally equal to the one given and keeps every entry it had
    before; [GetContextIRModule] answers with what the module constructor
    makes of that table, and leaves the builder as it is; and a second
    call of [AddFuncToContext] with a structurally equal function, under
    any name hint, returns the same symbol and leaves the builder
    unchanged. *)
Theorem AddFuncToContext_round_trip (self : State) (i : nat) (vs : list string)
    (cbs : list Callback) (m : Table) (func : BaseFunc) (func_name_hint : string) :
  (Z.of_nat (length (scopes self)) <= INT_MAX)%Z ->
  scopes self !! i = Some (mkBaseScope vs cbs (IRModuleScope_ m)) ->
  (forall j s, i < j -> scopes self !! j = Some s -> is_IRModuleScope s = false) ->
  wf (next_addr self) m ->
  exists gv self' m',
    AddFuncToContext' func func_name_hint self = (OK gv, self')
    /\ Add' func_name_hint func (next_addr self) m = (gv, (next_addr self', m'))
    /\ scopes self' !! i = Some (mkBaseScope vs cbs (IRModuleScope_ m'))
    /\ (forall j, j <> i -> scopes self' !! j = scopes self !! j)
    /\ id2bind self' = id2bind self
    /\ name2value self' = name2value self
    /\ GetContextIRModule' self' = (IRModule_new (func_map m'), self')
    /\ (exists f, func_map m' !! gv = Some f /\ StructuralEqual f func = true)
    /\ func_map m ⊆ func_map m'
    /\ (forall func2 hint2, StructuralEqual func func2 = true ->
          AddFuncToContext' func2 hint2 self' = (OK gv, self')).
Proof.
  intros Hlen Hi Habove Hwf.
  destruct (Add_wf _ StructuralEqual StructuralEqual_refl StructuralEqual_sym func_name_hint func
              (next_addr self) m Hwf)
    as (gv & h' & m' & Hadd & Hwf' & (f & Hin & Hf) & Hsub & _).
  set (self' := set_scopes (alter (fun _ => mkBaseScope vs cbs (IRModuleScope_ m')) i)
                  (set_next_addr (fun _ => h') self)).
  assert (Hi' : scopes self' !! i = Some (mkBaseScope vs cbs (IRModuleScope_ m'))).
  { simpl. rewrite list_lookup_alter_eq. by rewrite Hi. }
  assert (Hother : forall j, j <> i -> scopes self' !! j = scopes self !! j).
  { intros j Hj. simpl. by rewrite list_lookup_alter_ne. }
  assert (Habove' : forall j s, i < j -> scopes self' !! j = Some s ->
                                 is_IRModuleScope s = false).
  { intros j s Hj Hs. rewrite Hother in Hs by lia. by apply (Habove j). }
  assert (Hlen' : (Z.of_nat (length (scopes self')) <= INT_MAX)%Z).
  { simpl. by rewrite length_alter. }
  assert (Hget : GetScope is_IRModuleScope self = Some i)
    by by apply (GetScope_Some _ _ _ _ Hlen Hi).
  assert (Hget' : GetScope is_IRModuleScope self' = Some i)
    by by apply (GetScope_Some _ _ _ _ Hlen' Hi').
  exists gv, self', m'. split_and!; try done.
  - unfold AddFuncToContext. unfold_M. rewrite Hget, Hi, Hadd. done.
  - unfold GetContextIRModule. unfold bind, get. rewrite Hget', Hi'. done.
  - exists f. split; [|done]. by apply Hwf'.
  - apply map_subseteq_spec. intros g f0 Hg.
    apply Hwf', Hsub. by apply Hwf.
  - intros func2 hint2 Heq. unfold AddFuncToContext. unfold bind at 1. unfold get.
    rewrite Hget', Hi'.
    change (next_addr self') with h'.
    rewrite (Add_again _ _ _ _ _ hint2 _ func2 _ Hwf Hadd Heq).
    unfold_M. f_equal. unfold self', set_scopes, set_next_addr. simpl. f_equal.
    apply list_eq. intros j. destruct (decide (j = i)) as [->|Hne].
    + rewrite !list_lookup_alter_eq. rewrite Hi. done.
    + rewrite !list_lookup_alter_ne by done. done.
Qed.

(** One call adds at most one entry and allocates at most one symbol. *)
Lemma Add_size (name : string) (func : BaseFunc) (h : addr) (m : Table) :
  wf h m ->
  let '(gv, (h', m')) := Add' name func h m in
  size (func_map m') <= S (size (func_map m)) /\ h <= h' <= S h.
Proof.
  intros Hwf. unfold Add. destruct (find' func (structural_map m)); simpl; [lia|].
  split; [|lia].
  destruct (func_map m !! mkGlobalVar h name) eqn:E.
  - rewrite map_size_insert_Some by eauto. lia.
  - rewrite map_size_insert_None by done. lia.
Qed.

(** X13: a sequence of calls of [Add] on a well-formed table answers
    each call with a symbol; at the end the module maps the symbol of every
    call to a function structurally equal to the one of the call, and still
    holds every entry it had at the start: no call removes or overwrites
    an entry.  The table grows by at most one entry and one allocated
    symbol per call. *)
Theorem Add_all_keeps_entries (calls : list (string * BaseFunc)) (h : addr) (m : Table) :
  wf h m ->
  exists gvs h' m',
    Add_all StructuralEqual calls h m = (gvs, (h', m'))
    /\ length gvs = length calls
    /\ func_map m ⊆ func_map m'
    /\ (forall i name func gv,
          calls !! i = Some (name, func) -> gvs !! i = Some gv ->
          exists f, func_map m' !! gv = Some f /\ StructuralEqual f func = true)
    /\ size (func_map m') <= size (func_map m) + length calls
    /\ h <= h' <= h + length calls.
Proof.
  revert h m. induction calls as [|[name func] calls IH]; intros h m Hwf; simpl.
  - eexists _, _, _. split; [done|]. split_and!; [done|done| |lia|lia|lia].
    intros i name func gv Hi. by rewrite lookup_nil in Hi.
  - pose proof (Add_size name func h m Hwf) as Hsize.
    destruct (Add_wf _ StructuralEqual StructuralEqual_refl StructuralEqual_sym name func h m Hwf)
      as (gv & h1 & m1 & Hadd & Hwf1 & (f & Hin & Hf) & Hsub1 & _).
    rewrite Hadd in Hsize |- *.
    destruct (IH h1 m1 Hwf1) as (gvs & h' & m' & Hall & Hlen & Hsub & Hfound & Hsz & Hh).
    rewrite Hall. eexists _, _, _. split; [done|].
    assert (Hsub01 : func_map m ⊆ func_map m1).
    { apply map_subseteq_spec. intros g f0 Hg. apply Hwf1, Hsub1. by apply Hwf. }
    split_and!.
    + simpl. by rewrite Hlen.
    + by transitivity (func_map m1).
    + intros [|i] name0 func0 gv0 Hi Hgv; simpl in Hi, Hgv.
      * injection Hi as <- <-. injection Hgv as <-.
        exists f. split; [|done].
        apply (lookup_weaken (func_map m1)); [|done]. by apply Hwf1.
      * by apply (Hfound i name0).
    + lia.
    + lia.
    + lia.
Qed.

End ContextModule.

(** ** Variables made by the builder *)

Section BuilderVars.

Variable BaseFunc : Type.
Variable FInferShape_map : string -> option (Call -> DiagnosticContext -> option Expr).
Variable FInferType_map : string -> option (Call -> DiagnosticContext -> option Ty).

Local Abbreviation State := (IRBuilderNode BaseFunc).
Local Abbreviation Scope := (BaseScope BaseFunc).
Local Abbreviation Emit_expr' := (Emit_expr FInferShape_map FInferType_map).
Local Abbreviation EmitOutput_expr' := (EmitOutput_expr FInferShape_map FInferType_map).
Local Abbreviation CreateVarBinding' := (CreateVarBinding FInferShape_map FInferType_map).
Local Abbreviation run_BuilderOp' := (run_BuilderOp FInferShape_map FInferType_map).
Local Abbreviation run_BuilderOps' := (run_BuilderOps FInferShape_map FInferType_map).

(** The prefix of the names that [CreateScopedVar] draws in a scope. *)
Local Abbreviation prefix_of h scope :=
  (value_or h (if is_DataflowScope scope then "lv" else "gv")).

(** A successful [CreateScopedVar] was called inside a block. *)
Lemma CreateScopedVar_OK_inv (self s1 : State) (h : option string) (v : Var) :
  CreateScopedVar h self = (OK v, s1) ->
  exists scope name,
    back (scopes self) = OK scope
    /\ is_block scope = true
    /\ GetUniqueName self (prefix_of h scope) = OK name
    /\ v = mkVar (is_DataflowScope scope) (mkId (next_addr self) name) None None
    /\ s1 = set_next_addr S self.
Proof.
  unfold CreateScopedVar, Id_new. unfold_M.
  destruct (back (scopes self)) as [scope|e] eqn:Hback; simpl; [|done].
  unfold is_block. destruct (is_DataflowScope scope) eqn:Hdf.
  - destruct (GetUniqueName self (value_or h "lv")) as [name|e] eqn:Hname;
      simpl; [|done].
    intros [= <- <-]. exists scope, name. rewrite Hdf. done.
  - destruct (is_NonDataflowScope scope) eqn:Hndf; [|done].
    destruct (GetUniqueName self (value_or h "gv")) as [name|e] eqn:Hname;
      simpl; [|done].
    intros [= <- <-]. exists scope, name. rewrite Hdf. done.
Qed.

(** X14: a variable made by [CreateScopedVar] is local exactly when
    [CurrentBlockIsDataFlow] says so, has a new identity, the next address
    of the heap, and neither shape nor type.  Its name is not registered
    when it is drawn and is not registered afterwards either: the call
    leaves the registry and the scopes as they were. *)
Theorem CreateScopedVar_fresh_var (self self' : State) (h : option string) (v : Var) :
  CreateScopedVar h self = (OK v, self') ->
  CurrentBlockIsDataFlow self = (OK (var_is_dataflow v), self)
  /\ id_addr (vid v) = next_addr self
  /\ next_addr self' = S (next_addr self)
  /\ var_shape_ v = None /\ var_checked_type_ v = None
  /\ GetVar self (name_hint (vid v)) = None
  /\ GetVar self' (name_hint (vid v)) = None
  /\ scopes self' = scopes self.
Proof.
  intros (scope & name & Hback & Hblock & Hname & -> & ->)%CreateScopedVar_OK_inv.
  simpl. split_and!; try done.
  - unfold CurrentBlockIsDataFlow. unfold_M. by rewrite Hback.
  - unfold GetUniqueName in Hname.
    by apply (GetUniqueName_loop_OK _ _ _ 0) in Hname as (k & _ & -> & Hfree & _).
  - unfold GetUniqueName in Hname.
    by apply (GetUniqueName_loop_OK _ _ _ 0) in Hname as (k & _ & -> & Hfree & _).
Qed.

(** A successful [Emit] of an expression. *)
Lemma Emit_expr_OK_inv (self s' : State) (expr : Expr) (h : option string) (v : Var) :
  Emit_expr' expr h self = (OK v, s') ->
  exists scope name b,
    back (scopes self) = OK scope
    /\ is_block scope = true
    /\ GetUniqueName self (prefix_of h scope) = OK name
    /\ CreateVarBinding'
         (mkVar (is_DataflowScope scope) (mkId (next_addr self) name) None None) expr
       = OK b
    /\ v = vb_var b
    /\ var_is_dataflow v = is_DataflowScope scope
    /\ vid v = mkId (next_addr self) name
    /\ s' = set_id2bind (insert (vid v) expr)
              (set_scopes (fun _ => pop_back (scopes self) ++
                             [bindings_push_back (Binding_VarBinding b) scope])
                 (set_next_addr S self)).
Proof.
  unfold Emit_expr. unfold bind at 1.
  destruct (CreateScopedVar h self) as [[var|e] s1] eqn:Hvar; [|done].
  apply CreateScopedVar_OK_inv in Hvar as (scope & name & Hback & Hblock & Hname & -> & ->).
  unfold bind at 1, lift.
  destruct (CreateVarBinding' _ expr) as [b|e] eqn:Hb; [|done].
  pose proof Hb as (Hloc & Hid & Hval)%CreateVarBinding_OK.
  simpl in Hloc, Hid.
  assert (Hback' : back (scopes (set_next_addr S self)) = OK scope) by done.
  rewrite (Emit_OK _ _ scope b Hback').
  - intros [= <- <-]. exists scope, name, b. rewrite Hval. split_and!; done.
  - rewrite Hloc. unfold is_block in Hblock.
    destruct (is_DataflowScope scope); [by right|by left].
Qed.

(** X15: two calls of [Emit] on an expression in a row, under the same
    name hint, both successful.  The two variables have the same name,
    the name being drawn from a registry that the first call has not
    changed; they are two distinct identities all the same, allocated one
    after the other, and [LookupBinding] answers for each of them with the
    expression it was bound to. *)
Theorem Emit_expr_twice_same_name (self s1 s2 : State) (e1 e2 : Expr)
    (h : option string) (v1 v2 : Var) :
  Emit_expr' e1 h self = (OK v1, s1) ->
  Emit_expr' e2 h s1 = (OK v2, s2) ->
  name_hint (vid v1) = name_hint (vid v2)
  /\ id_addr (vid v2) = S (id_addr (vid v1))
  /\ vid v1 <> vid v2
  /\ LookupBinding (vid v1) s2 = (OK e1, s2)
  /\ LookupBinding (vid v2) s2 = (OK e2, s2).
Proof.
  intros (scope1 & name1 & b1 & Hback1 & Hblock1 & Hname1 & Hb1 & _ & Hloc1 & Hid1 & ->)
           %Emit_expr_OK_inv.
  intros (scope2 & name2 & b2 & Hback2 & Hblock2 & Hname2 & Hb2 & _ & Hloc2 & Hid2 & ->)
           %Emit_expr_OK_inv.
  simpl in Hback2, Hname2, Hid2. rewrite back_snoc in Hback2. injection Hback2 as <-.
  destruct (bindings_push_back_block _ (Binding_VarBinding b1) scope1 Hblock1) as [_ Hd].
  rewrite Hd in Hname2.
  assert (name2 = name1) as ->.
  { assert (Hsame : forall (s : State) p,
              name2value s = name2value self ->
              GetUniqueName s p = GetUniqueName self p).
    { intros s p Hs. unfold GetUniqueName. by rewrite Hs. }
    rewrite Hsame in Hname2 by done. congruence. }
  rewrite Hid1, Hid2. simpl.
  assert (Hne : mkId (next_addr self) name1 <> mkId (S (next_addr self)) name1).
  { intros [= ?]. lia. }
  split_and!; [done|done|done| |].
  - unfold LookupBinding. unfold_M.
    rewrite lookup_insert_ne by done. by rewrite lookup_insert_eq.
  - unfold LookupBinding. unfold_M. by rewrite lookup_insert_eq.
Qed.

(** X16: inside a block, [Emit] of an expression that is neither a call
    nor a projection succeeds, binds the expression as given to a new
    variable of the locality of the block and records it in [id2bind].
    When the expression is a variable reference, the new variable has the
    shape and the type of the referenced variable; on any other expression
    both are left unresolved. *)
Theorem Emit_expr_var_reference (self : State) (scope : Scope) (expr : Expr)
    (h : option string) :
  back (scopes self) = OK scope ->
  is_block scope = true ->
  (Z.of_nat (size (name2value self)) <= INT_MAX)%Z ->
  as_CallNode expr = None ->
  as_TupleGetItemNode expr = None ->
  exists v b self',
    Emit_expr' expr h self = (OK v, self')
    /\ vb_var b = v /\ vb_value b = expr
    /\ scopes self' =
         pop_back (scopes self) ++ [bindings_push_back (Binding_VarBinding b) scope]
    /\ var_is_dataflow v = is_DataflowScope scope
    /\ id2bind self' = <[vid v := expr]> (id2bind self)
    /\ (forall rhs_var, as_VarNode expr = Some rhs_var ->
          var_shape_ v = var_shape_ rhs_var
          /\ var_checked_type_ v = var_checked_type_ rhs_var)
    /\ (as_VarNode expr = None -> var_shape_ v = None /\ var_checked_type_ v = None).
Proof.
  intros Hback Hblock Hsize Hnc Hnp.
  destruct (Emit_expr_block _ FInferShape_map FInferType_map self scope expr h
              Hback Hblock Hsize) as (name & Hemit).
  cbv zeta in Hemit. unfold CreateVarBinding in Hemit. rewrite Hnc, Hnp in Hemit.
  destruct (as_VarNode expr) as [rhs_var|] eqn:Hvar.
  - eexists _, (mkVarBinding _ expr), _. split; [exact Hemit|]. simpl.
    split_and!; try done. by intros ? [= <-].
  - eexists _, (mkVarBinding _ expr), _. split; [exact Hemit|]. simpl.
    split_and!; done.
Qed.

(** *** Names are never registered *)

Lemma alter_back_Forall {A} (P : A -> Prop) (f : A -> A) (l : list A) :
  (forall x, P x -> P (f x)) -> Forall P l -> Forall P (alter_back f l).
Proof.
  intros Hf Hall. unfold alter_back. destruct (last l) as [x|] eqn:E; [|done].
  apply last_Some in E as [l' ->]. rewrite removelast_last.
  apply Forall_app in Hall as [Hl' Hx]. apply Forall_app. split; [done|].
  inversion Hx; subst. constructor; [by apply Hf|done].
Qed.

Lemma bindings_push_back_keeps (b : Binding) (s : Scope) :
  is_block s = true /\ vars s = [] ->
  is_block (bindings_push_back b s) = true /\ vars (bindings_push_back b s) = [].
Proof.
  unfold is_block, is_DataflowScope, is_NonDataflowScope, bindings_push_back.
  intros [Hb Hv]. destruct (node s) eqn:E; simpl; rewrite ?E; done.
Qed.

(** What the three operations on a binding do to the stack and to the
    registry, whatever their outcome. *)
Lemma emission_frame (self s : State) :
  (exists b r, Emit b self = (r, s)) \/
  (exists b r, EmitOutput b self = (r, s)) \/
  (exists b r, EmitMatchShape b self = (r, s)) ->
  name2value s = name2value self
  /\ next_addr s = next_addr self
  /\ (scopes s = scopes self \/
      exists b, scopes s = alter_back (bindings_push_back b) (scopes self)).
Proof.
  intros [(b & r & H)|[(b & r & H)|(b & r & H)]].
  - unfold Emit in H. unfold_M. break_match; split_and!; eauto.
  - unfold EmitOutput in H. unfold_M. break_match; split_and!; eauto.
  - unfold EmitMatchShape in H. unfold_M. break_match; split_and!; eauto.
Qed.

Lemma only_blocks_frame (self s : State) :
  only_blocks self ->
  name2value s = name2value self ->
  (scopes s = scopes self \/
   exists b, scopes s = alter_back (bindings_push_back b) (scopes self)) ->
  only_blocks s.
Proof.
  intros [Hreg Hall] Hn Hs. split; [congruence|].
  destruct Hs as [->|[b ->]]; [done|].
  apply alter_back_Forall; [|done]. intros x. apply bindings_push_back_keeps.
Qed.

Lemma run_BuilderOp_only_blocks (op : BuilderOp) (self s : State) (r : option Var) :
  only_blocks self -> run_BuilderOp' op self = (r, s) -> only_blocks s.
Proof.
  intros Hclean Hrun.
  destruct op as [| | |binding|binding|binding|expr h|output h|value pattern h];
    simpl in Hrun.
  - injection Hrun as <- <-. destruct Hclean as [Hreg Hall]. split; [done|].
    simpl. apply Forall_app. split; [done|]. by constructor.
  - injection Hrun as <- <-. destruct Hclean as [Hreg Hall]. split; [done|].
    simpl. apply Forall_app. split; [done|]. by constructor.
  - injection Hrun as <- <-.
    destruct (back (scopes self)) as [scope|e] eqn:Hback.
    + rewrite (EndBlock_pops _ _ _ Hback). simpl.
      destruct Hclean as [Hreg Hall]. rewrite (back_OK _ _ Hback) in Hall.
      apply Forall_app in Hall as [Hpop Htop]. inversion Htop as [|? ? [_ Hv] _]; subst.
      split; [|done]. simpl. by rewrite Hv.
    + apply back_Throw in Hback. unfold EndBlock. unfold_M. by rewrite Hback.
  - destruct (Emit binding self) as [r1 s1] eqn:E.
    assert (s = s1) as -> by (destruct r1; by injection Hrun).
    destruct (emission_frame self s1) as (Hn & _ & Hs); [left; eauto|].
    by apply (only_blocks_frame self).
  - destruct (EmitOutput binding self) as [r1 s1] eqn:E.
    assert (s = s1) as -> by (destruct r1; by injection Hrun).
    destruct (emission_frame self s1) as (Hn & _ & Hs); [right; left; eauto|].
    by apply (only_blocks_frame self).
  - injection Hrun as <- <-.
    destruct (EmitMatchShape binding self) as [r1 s1] eqn:E.
    destruct (emission_frame self s1) as (Hn & _ & Hs); [right; right; eauto|].
    by apply (only_blocks_frame self).
  - destruct (Emit_expr' expr h self) as [r1 s1] eqn:E.
    assert (s = s1) as -> by (destruct r1; by injection Hrun).
    unfold Emit_expr in E. unfold bind at 1 in E.
    destruct (CreateScopedVar h self) as [[v|e1] s0] eqn:Hv;
      apply CreateScopedVar_frame in Hv as (Hs0 & _ & Hn0 & _).
    + unfold bind at 1, lift in E.
      destruct (CreateVarBinding' v expr) as [b|e2].
      * destruct (emission_frame s0 s1) as (Hn & _ & Hs); [left; eauto|].
        apply (only_blocks_frame self); [done|congruence|by rewrite <- Hs0].
      * injection E as <- <-. apply (only_blocks_frame self); eauto.
    + injection E as <- <-. apply (only_blocks_frame self); eauto.
  - destruct (EmitOutput_expr' output h self) as [r1 s1] eqn:E.
    assert (s = s1) as -> by (destruct r1; by injection Hrun).
    destruct (EmitOutput_expr_never_OK _ FInferShape_map FInferType_map self output h)
      as (e & s2 & He).
    rewrite He in E. injection E as <- <-.
    apply EmitOutput_expr_Throw in He as (Hs & _ & Hn).
    apply (only_blocks_frame self); eauto.
  - injection Hrun as <- <-.
    destruct (EmitMatchShape_expr value pattern h self) as [r1 s1] eqn:E. simpl.
    unfold EmitMatchShape_expr in E. unfold bind at 1 in E.
    destruct (CreateScopedVar h self) as [[v|e1] s0] eqn:Hv;
      apply CreateScopedVar_frame in Hv as (Hs0 & _ & Hn0 & _).
    + unfold bind at 1, lift in E.
      destruct (checked_type value) as [ty|e2].
      * unfold bind at 1 in E.
        destruct ty; unfold ret, throw in E;
          try (injection E as <- <-; apply (only_blocks_frame self); by eauto).
        all: destruct (emission_frame s0 s1) as (Hn & _ & Hs); [right; right; eauto|].
        all: apply (only_blocks_frame self); [done|congruence|by rewrite <- Hs0].
      * injection E as <- <-. apply (only_blocks_frame self); eauto.
    + injection E as <- <-. apply (only_blocks_frame self); eauto.
Qed.

Lemma GetUniqueName_empty (self : State) (prefix : string) :
  name2value self = ∅ -> GetUniqueName self prefix = OK (prefix +:+ "0").
Proof.
  intros Hempty. unfold GetUniqueName. rewrite Hempty. simpl.
  by rewrite decide_True by apply lookup_empty.
Qed.

(** X17: a builder that is driven through the operations of
    [IRBuilderNode] only never registers a name.  From a builder whose
    scopes are blocks without names and whose registry is empty, as a new
    builder is, every sequence of calls leads to such a builder again; so
    every variable that [Emit] or [EmitMatchShape] creates there is named
    by the name hint, or by [lv] in a dataflow block and [gv] in a binding
    block, followed by the digit 0. *)
Theorem builder_never_registers_names (ops : list BuilderOp) (self self' : State)
    (ids : list Id) :
  only_blocks self ->
  run_BuilderOps' ops self = (ids, self') ->
  only_blocks self'
  /\ (forall expr h v s,
        Emit_expr' expr h self' = (OK v, s) ->
        name_hint (vid v) =
          value_or h (if var_is_dataflow v then "lv" else "gv") +:+ "0")
  /\ (forall value pattern h v s,
        EmitMatchShape_expr value pattern h self' = (OK v, s) ->
        name_hint (vid v) =
          value_or h (if var_is_dataflow v then "lv" else "gv") +:+ "0").
Proof.
  intros Hclean Hrun.
  assert (Hclean' : only_blocks self').
  { revert self ids Hclean Hrun. induction ops as [|op ops IH]; intros self ids Hclean.
    - simpl. by intros [= <- <-].
    - simpl. destruct (run_BuilderOp' op self) as [r s1] eqn:E1.
      destruct (run_BuilderOps' ops s1) as [ids1 s2] eqn:E2.
      intros [= <- <-]. apply (IH s1 ids1); [|done].
      by apply (run_BuilderOp_only_blocks op self s1 r). }
  split; [done|]. destruct Hclean' as [Hempty _]. split.
  - intros expr h v s
      (scope & name & b & _ & _ & Hname & _ & _ & Hloc & Hid & _)%Emit_expr_OK_inv.
    rewrite (GetUniqueName_empty _ _ Hempty) in Hname. injection Hname as <-.
    by rewrite Hid, Hloc.
  - intros value pattern h v s Hemit.
    unfold EmitMatchShape_expr in Hemit. unfold bind at 1 in Hemit.
    destruct (CreateScopedVar h self') as [[var|e] s1] eqn:Hvar; [|done].
    apply CreateScopedVar_OK_inv in Hvar
      as (scope & name & Hback & Hblock & Hname & -> & ->).
    rewrite (GetUniqueName_empty _ _ Hempty) in Hname. injection Hname as <-.
    unfold bind at 1, lift in Hemit.
    destruct (checked_type value) as [ty|e]; [|done].
    unfold bind at 1 in Hemit.
    destruct ty; unfold ret, throw in Hemit; try done.
    all: unfold EmitMatchShape in Hemit; unfold_M; break_match; done.
Qed.

End BuilderVars.

(** ** Bindings outlive their block *)

Section Persistence.

Variable BaseFunc : Type.
Variable FInferShape_map : string -> option (Call -> DiagnosticContext -> option Expr).
Variable FInferType_map : string -> option (Call -> DiagnosticContext -> option Ty).

Local Abbreviation State := (IRBuilderNode BaseFunc).
Local Abbreviation Emit_expr' := (Emit_expr FInferShape_map FInferType_map).
Local Abbreviation EmitOutput_expr' := (EmitOutput_expr FInferShape_map FInferType_map).
Local Abbreviation run_BuilderOp' := (run_BuilderOp FInferShape_map FInferType_map).
Local Abbreviation run_BuilderOps' := (run_BuilderOps FInferShape_map FInferType_map).

(** One call changes [id2bind] at most at the identity it answers with. *)
Lemma run_BuilderOp_id2bind_keeps (op : BuilderOp) (self self' : State) (r : option Var)
    (id : Id) :
  run_BuilderOp' op self = (r, self') ->
  (forall v, r = Some v -> vid v <> id) ->
  id2bind self' !! id = id2bind self !! id.
Proof.
  intros Hrun Hfresh.
  destruct op as [| | |binding|binding|binding|expr h|output h|value pattern h];
    simpl in Hrun.
  - by injection Hrun as <- <-.
  - by injection Hrun as <- <-.
  - injection Hrun as <- <-.
    destruct (EndBlock self) as [r1 s1] eqn:E. apply EndBlock_id2bind in E.
    simpl. by rewrite E.
  - destruct (Emit binding self) as [[v|e] s1] eqn:E; apply Emit_id2bind in E;
      injection Hrun as <- <-.
    + destruct E as [_ ->]. rewrite lookup_insert_ne; [done|]. by apply Hfresh.
    + by rewrite E.
  - destruct (EmitOutput binding self) as [[v|e] s1] eqn:E;
      apply EmitOutput_id2bind in E; injection Hrun as <- <-.
    + destruct E as [_ ->]. rewrite lookup_insert_ne; [done|]. by apply Hfresh.
    + by rewrite E.
  - injection Hrun as <- <-. by rewrite EmitMatchShape_id2bind.
  - destruct (Emit_expr' expr h self) as [[v|e] s1] eqn:E;
      apply Emit_expr_id2bind in E; injection Hrun as <- <-.
    + destruct E as [e' ->]. rewrite lookup_insert_ne; [done|]. by apply Hfresh.
    + by rewrite E.
  - destruct (EmitOutput_expr' output h self) as [[v|e] s1] eqn:E;
      apply EmitOutput_expr_id2bind in E; injection Hrun as <- <-.
    + destruct E as [e' ->]. rewrite lookup_insert_ne; [done|]. by apply Hfresh.
    + by rewrite E.
  - injection Hrun as <- <-. by rewrite EmitMatchShape_expr_id2bind.
Qed.

Lemma run_BuilderOps_id2bind_keeps (ops : list BuilderOp) (self self' : State)
    (ids : list Id) (id : Id) :
  run_BuilderOps' ops self = (ids, self') ->
  id ∉ ids ->
  id2bind self' !! id = id2bind self !! id.
Proof.
  revert self ids. induction ops as [|op ops IH]; intros self ids; simpl.
  - by intros [= <- <-].
  - destruct (run_BuilderOp' op self) as [r s1] eqn:E1.
    destruct (run_BuilderOps' ops s1) as [ids1 s2] eqn:E2.
    intros [= <- <-] Hnotin.
    rewrite (IH s1 ids1); [|done|].
    + eapply run_BuilderOp_id2bind_keeps; [exact E1|].
      intros v -> Heq. apply Hnotin. rewrite <- Heq. apply list_elem_of_here.
    + destruct r; [|done]. intros Hin. apply Hnotin. by apply list_elem_of_further.
Qed.

(** X18: a binding recorded by a successful [Emit] or [EmitOutput] stays
    recorded: after any sequence of calls on the builder that does not
    bind the same identity again, [LookupBinding] still answers with the
    value of the binding, also after the block of the binding, and every
    block around it, has been ended. *)
Theorem LookupBinding_after_emit (self s1 s2 : State) (b : VarBinding) (v : Var)
    (ops : list BuilderOp) (ids : list Id) :
  Emit b self = (OK v, s1) \/ EmitOutput b self = (OK v, s1) ->
  run_BuilderOps' ops s1 = (ids, s2) ->
  vid v ∉ ids ->
  v = vb_var b
  /\ LookupBinding (vid v) s2 = (OK (vb_value b), s2).
Proof.
  intros Hemit Hrun Hnotin.
  assert (Hv : v = vb_var b /\ id2bind s1 = <[vid v := vb_value b]> (id2bind self)).
  { destruct Hemit as [H|H].
    - by apply Emit_id2bind in H.
    - by apply EmitOutput_id2bind in H. }
  destruct Hv as [Hv Hbind]. split; [done|].
  unfold LookupBinding. unfold_M.
  rewrite (run_BuilderOps_id2bind_keeps _ _ _ _ _ Hrun Hnotin), Hbind.
  by rewrite lookup_insert_eq.
Qed.

End Persistence.

(** ** Dataflow blocks hold local variables *)

Section DataflowLocal.

Variable BaseFunc : Type.
Variable FInferShape_map : string -> option (Call -> DiagnosticContext -> option Expr).
Variable FInferType_map : string -> option (Call -> DiagnosticContext -> option Ty).

Local Abbreviation State := (IRBuilderNode BaseFunc).
Local Abbreviation Scope := (BaseScope BaseFunc).
Local Abbreviation Emit_expr' := (Emit_expr FInferShape_map FInferType_map).
Local Abbreviation EmitOutput_expr' := (EmitOutput_expr FInferShape_map FInferType_map).
Local Abbreviation CreateVarBinding' := (CreateVarBinding FInferShape_map FInferType_map).
Local Abbreviation run_BuilderOp' := (run_BuilderOp FInferShape_map FInferType_map).
Local Abbreviation run_BuilderOps' := (run_BuilderOps FInferShape_map FInferType_map).

(** What the three operations on a binding do to the stack: nothing, or
    one binding more on the innermost scope, with a local variable when
    that scope is a dataflow block. *)
Lemma emission_pushes_local (self s : State) :
  (exists b r, Emit b self = (r, s)) \/
  (exists b r, EmitOutput b self = (r, s)) \/
  (exists b r, EmitMatchShape b self = (r, s)) ->
  scopes s = scopes self \/
  exists b scope,
    back (scopes self) = OK scope
    /\ scopes s = alter_back (bindings_push_back b) (scopes self)
    /\ (is_DataflowScope scope = true -> var_is_dataflow (binding_var b) = true).
Proof.
  intros [(b & r & H)|[(b & r & H)|(b & r & H)]].
  - unfold Emit in H. unfold_M.
    destruct (back (scopes self)) as [scope|e] eqn:Hback; simpl in H;
      [|injection H as <- <-; by left].
    unfold is_DataflowScope.
    destruct (node scope) eqn:Hnode; simpl in H; try (injection H as <- <-; by left).
    + destruct (var_is_dataflow (vb_var b)) eqn:Hloc; simpl in H;
        injection H as <- <-; [|by left].
      right. exists (Binding_VarBinding b), scope. rewrite Hnode. done.
    + injection H as <- <-. right. exists (Binding_VarBinding b), scope.
      rewrite Hnode. done.
  - unfold EmitOutput in H. unfold_M.
    destruct (back (scopes self)) as [scope|e] eqn:Hback; simpl in H;
      [|injection H as <- <-; by left].
    unfold is_DataflowScope.
    destruct (node scope) eqn:Hnode; simpl in H; try (injection H as <- <-; by left).
    destruct (var_is_dataflow (vb_var b)) eqn:Hloc; simpl in H;
      injection H as <- <-; [|by left].
    right. exists (Binding_VarBinding b), scope. rewrite Hnode. done.
  - unfold EmitMatchShape in H. unfold_M.
    destruct (back (scopes self)) as [scope|e] eqn:Hback; simpl in H;
      [|injection H as <- <-; by left].
    unfold is_DataflowScope.
    destruct (node scope) eqn:Hnode; simpl in H; try (injection H as <- <-; by left).
    + destruct (var_is_dataflow (ms_var b)) eqn:Hloc; simpl in H;
        injection H as <- <-; [|by left].
      right. exists (Binding_MatchShape b), scope. rewrite Hnode. done.
    + destruct (var_is_dataflow (ms_var b)) eqn:Hloc; simpl in H;
        injection H as <- <-; [by left|].
      right. exists (Binding_MatchShape b), scope. rewrite Hnode. done.
Qed.

Lemma dataflow_local_frame (self s : State) :
  dataflow_local self ->
  (scopes s = scopes self \/
   exists b scope,
     back (scopes self) = OK scope
     /\ scopes s = alter_back (bindings_push_back b) (scopes self)
     /\ (is_DataflowScope scope = true -> var_is_dataflow (binding_var b) = true)) ->
  dataflow_local s.
Proof.
  unfold dataflow_local. intros Hall [->|(b & scope & Hback & -> & Hloc)]; [done|].
  rewrite (alter_back_OK _ _ _ Hback). rewrite (back_OK _ _ Hback) in Hall.
  apply Forall_app in Hall as [Hpop Htop]. apply Forall_app. split; [done|].
  inversion Htop as [|? ? Hscope _]; subst. constructor; [|done].
  unfold local_bindings in *.
  unfold is_DataflowScope, scope_bindings, bindings_push_back in *.
  destruct (node scope) eqn:E; simpl; rewrite ?E; try done.
  intros _. apply Forall_app. split; [by apply Hscope|].
  constructor; [by apply Hloc|done].
Qed.

Lemma run_BuilderOp_dataflow_local (op : BuilderOp) (self s : State) (r : option Var) :
  dataflow_local self -> run_BuilderOp' op self = (r, s) -> dataflow_local s.
Proof.
  intros Hinv Hrun.
  destruct op as [| | |binding|binding|binding|expr h|output h|value pattern h];
    simpl in Hrun.
  - injection Hrun as <- <-. unfold dataflow_local. simpl.
    apply Forall_app. split; [done|]. constructor; [|done]. intros _. constructor.
  - injection Hrun as <- <-. unfold dataflow_local. simpl.
    apply Forall_app. split; [done|]. constructor; [|done]. intros _. constructor.
  - injection Hrun as <- <-.
    destruct (back (scopes self)) as [scope|e] eqn:Hback.
    + rewrite (EndBlock_pops _ _ _ Hback). unfold dataflow_local in *. simpl.
      rewrite (back_OK _ _ Hback) in Hinv. by apply Forall_app in Hinv as [Hpop _].
    + apply back_Throw in Hback. unfold EndBlock. unfold_M. by rewrite Hback.
  - destruct (Emit binding self) as [r1 s1] eqn:E.
    assert (s = s1) as -> by (destruct r1; by injection Hrun).
    apply (dataflow_local_frame self); [done|].
    apply emission_pushes_local. left. eauto.
  - destruct (EmitOutput binding self) as [r1 s1] eqn:E.
    assert (s = s1) as -> by (destruct r1; by injection Hrun).
    apply (dataflow_local_frame self); [done|].
    apply emission_pushes_local. right. left. eauto.
  - injection Hrun as <- <-.
    destruct (EmitMatchShape binding self) as [r1 s1] eqn:E.
    apply (dataflow_local_frame self); [done|].
    apply emission_pushes_local. right. right. eauto.
  - destruct (Emit_expr' expr h self) as [r1 s1] eqn:E.
    assert (s = s1) as -> by (destruct r1; by injection Hrun).
    unfold Emit_expr in E. unfold bind at 1 in E.
    destruct (CreateScopedVar h self) as [[v|e1] s0] eqn:Hv;
      apply CreateScopedVar_frame in Hv as (Hs0 & _).
    + assert (Hinv0 : dataflow_local s0) by (unfold dataflow_local; by rewrite Hs0).
      unfold bind at 1, lift in E.
      destruct (CreateVarBinding' v expr) as [b|e2].
      * apply (dataflow_local_frame s0); [done|].
        apply emission_pushes_local. left. eauto.
      * by injection E as <- <-.
    + injection E as <- <-. unfold dataflow_local. by rewrite Hs0.
  - destruct (EmitOutput_expr' output h self) as [r1 s1] eqn:E.
    assert (s = s1) as -> by (destruct r1; by injection Hrun).
    destruct (EmitOutput_expr_never_OK _ FInferShape_map FInferType_map self output h)
      as (e & s2 & He).
    rewrite He in E. injection E as <- <-.
    apply EmitOutput_expr_Throw in He as (Hs & _).
    unfold dataflow_local. by rewrite Hs.
  - injection Hrun as <- <-.
    destruct (EmitMatchShape_expr value pattern h self) as [r1 s1] eqn:E. simpl.
    unfold EmitMatchShape_expr in E. unfold bind at 1 in E.
    destruct (CreateScopedVar h self) as [[v|e1] s0] eqn:Hv;
      apply CreateScopedVar_frame in Hv as (Hs0 & _).
    + assert (Hinv0 : dataflow_local s0) by (unfold dataflow_local; by rewrite Hs0).
      unfold bind at 1, lift in E.
      destruct (checked_type value) as [ty|e2]; [|by injection E as <- <-].
      unfold bind at 1 in E.
      destruct ty; unfold ret, throw in E; try (by injection E as <- <-).
      all: apply (dataflow_local_frame s0); [done|].
      all: apply emission_pushes_local; right; right; eauto.
    + injection E as <- <-. unfold dataflow_local. by rewrite Hs0.
Qed.

(** X19: no operation of the builder puts a global variable into a
    dataflow block.  If every binding of every dataflow scope of the stack
    binds a local variable, as in a new builder, this still holds after any
    sequence of calls, and every dataflow block that [EndBlock] returns
    binds local variables only.  In particular [EmitOutput] of a binding
    of a global variable fails in every state of the builder. *)
Theorem dataflow_blocks_bind_local_vars (ops : list BuilderOp) (self self' : State)
    (ids : list Id) :
  dataflow_local self ->
  run_BuilderOps' ops self = (ids, self') ->
  dataflow_local self'
  /\ (forall bindings s,
        EndBlock self' = (OK (mkDataflowBlock bindings), s) ->
        Forall (fun b => var_is_dataflow (binding_var b) = true) bindings)
  /\ (forall b, var_is_dataflow (vb_var b) = false ->
        exists e, EmitOutput b self' = (Throw e, self')).
Proof.
  intros Hinv Hrun.
  assert (Hinv' : dataflow_local self').
  { revert self ids Hinv Hrun. induction ops as [|op ops IH]; intros self ids Hinv.
    - simpl. by intros [= <- <-].
    - simpl. destruct (run_BuilderOp' op self) as [r s1] eqn:E1.
      destruct (run_BuilderOps' ops s1) as [ids1 s2] eqn:E2.
      intros [= <- <-]. apply (IH s1 ids1); [|done].
      by apply (run_BuilderOp_dataflow_local op self s1 r). }
  split; [done|]. split.
  - intros bindings s Hend.
    destruct (back (scopes self')) as [scope|e] eqn:Hback.
    + rewrite (EndBlock_pops _ _ _ Hback) in Hend.
      unfold dataflow_local in Hinv'. rewrite (back_OK _ _ Hback) in Hinv'.
      apply Forall_app in Hinv' as [_ Htop]. inversion Htop as [|? ? Hscope _]; subst.
      unfold local_bindings, is_DataflowScope, scope_bindings in Hscope.
      destruct (node scope); try done. injection Hend as <- _. by apply Hscope.
    + apply back_Throw in Hback. unfold EndBlock in Hend. unfold_M.
      by rewrite Hback in Hend.
  - intros b Hglobal. unfold EmitOutput. unfold_M.
    destruct (back (scopes self')) as [scope|e]; simpl; [|by eauto].
    destruct (node scope); simpl; eauto. rewrite Hglobal. simpl. eauto.
Qed.

End DataflowLocal.

(** * The properties on the concrete instance *)

Lemma Demo_StructuralEqual_refl (f : Demo.Func) : Demo.StructuralEqual f f = true.
Proof. unfold Demo.StructuralEqual. by apply bool_decide_eq_true. Qed.

Lemma Demo_StructuralEqual_sym (f g : Demo.Func) :
  Demo.StructuralEqual f g = Demo.StructuralEqual g f.
Proof. unfold Demo.StructuralEqual. by apply bool_decide_ext. Qed.

Lemma Demo_StructuralEqual_trans (f g h : Demo.Func) :
  Demo.StructuralEqual f g = true -> Demo.StructuralEqual g h = true ->
  Demo.StructuralEqual f h = true.
Proof.
  unfold Demo.StructuralEqual. rewrite !bool_decide_eq_true. congruence.
Qed.

(** C6 on the instance: the global variable [x] is refused inside a
    dataflow block and accepted inside a binding block. *)
Lemma Emit_scope_discipline_witness :
  Emit (mkVarBinding Demo.x Demo.add_x_x) Demo.in_dataflow =
    (Throw (ICHECK_failed
       "Emit can only be used for local bindings in a dataflow block, use EmitOutput for output bindings instead"),
     Demo.in_dataflow)
  /\ exists self',
       Emit (mkVarBinding Demo.x Demo.add_x_x) Demo.in_binding = (OK Demo.x, self')
       /\ scopes self' =
            pop_back (scopes Demo.in_binding) ++
            [bindings_push_back
               (Binding_VarBinding (mkVarBinding Demo.x Demo.add_x_x))
               (NonDataflowScope_new Demo.Func)]
       /\ scope_bindings
            (bindings_push_back
               (Binding_VarBinding (mkVarBinding Demo.x Demo.add_x_x))
               (NonDataflowScope_new Demo.Func)) =
          scope_bindings (NonDataflowScope_new Demo.Func) ++
          [Binding_VarBinding (mkVarBinding Demo.x Demo.add_x_x)]
       /\ id2bind self' = <[vid Demo.x := Demo.add_x_x]> (id2bind Demo.in_binding).
Proof.
  split.
  - apply (Emit_scope_discipline Demo.Func Demo.in_dataflow
             (DataflowScope_new Demo.Func) (mkVarBinding Demo.x Demo.add_x_x));
      reflexivity.
  - apply (Emit_scope_discipline Demo.Func Demo.in_binding
             (NonDataflowScope_new Demo.Func) (mkVarBinding Demo.x Demo.add_x_x));
      [reflexivity|left; reflexivity].
Defined.

(** [EmitOutput] of a binding of the local variable [y], inside a
    dataflow block. *)
Lemma EmitOutput_local_binding_witness :
  exists v self',
    EmitOutput (mkVarBinding Demo.y (Expr_of_Var Demo.x)) Demo.in_dataflow = (OK v, self')
    /\ v = Demo.y
    /\ var_is_dataflow v = true
    /\ scopes self' =
         pop_back (scopes Demo.in_dataflow) ++
         [bindings_push_back
            (Binding_VarBinding (mkVarBinding Demo.y (Expr_of_Var Demo.x)))
            (DataflowScope_new Demo.Func)]
    /\ scope_bindings
         (bindings_push_back
            (Binding_VarBinding (mkVarBinding Demo.y (Expr_of_Var Demo.x)))
            (DataflowScope_new Demo.Func)) =
       scope_bindings (DataflowScope_new Demo.Func) ++
       [Binding_VarBinding (mkVarBinding Demo.y (Expr_of_Var Demo.x))]
    /\ id2bind self' = <[vid Demo.y := Expr_of_Var Demo.x]> (id2bind Demo.in_dataflow).
Proof.
  apply (EmitOutput_local_binding Demo.Func Demo.in_dataflow
           (DataflowScope_new Demo.Func) (mkVarBinding Demo.y (Expr_of_Var Demo.x)));
    reflexivity.
Defined.

(** C1, the code at the failing input: inside a dataflow block,
    [EmitOutput] of the value of the local variable [y] and no name hint
    makes the global variable for the output and hands it to [Emit], which
    refuses every global variable in a dataflow block, so that the call
    fails; and [EmitOutput] of a binding of [y] returns [y] itself, a
    local variable with its own name, where an output is a global
    variable with a new name. *)
Lemma EmitOutput_returns_local_var :
  fst (EmitOutput (mkVarBinding Demo.y (Expr_of_Var Demo.x)) Demo.in_dataflow) = OK Demo.y
  /\ var_is_dataflow Demo.y = true
  /\ fst (EmitOutput_expr Demo.FInferShape_map Demo.FInferType_map
            (Expr_of_Var Demo.y) None Demo.in_dataflow) =
     Throw (ICHECK_failed
       "Emit can only be used for local bindings in a dataflow block, use EmitOutput for output bindings instead").
Proof. split_and!; reflexivity. Qed.

(** C2 on the instance: the registry holds [lv0]. *)
Lemma GetUniqueName_first_unregistered_witness :
  exists k,
    GetUniqueName Demo.with_lv0 "lv" = OK (candidate "lv" k)
    /\ name2value Demo.with_lv0 !! candidate "lv" k = None
    /\ (forall j, j < k -> is_Some (name2value Demo.with_lv0 !! candidate "lv" j))
    /\ (forall self' : IRBuilderNode Demo.Func,
          name2value self' = name2value Demo.with_lv0 ->
          GetUniqueName self' "lv" = GetUniqueName Demo.with_lv0 "lv")
    /\ GetUniqueName_twice "lv" Demo.with_lv0 =
         (OK (candidate "lv" k, candidate "lv" k), Demo.with_lv0).
Proof.
  apply (GetUniqueName_first_unregistered Demo.Func Demo.with_lv0 "lv").
  vm_compute. discriminate.
Defined.

(** C2 as stated fails: with nothing registered, two calls in a row both
    return [lv0]; [lv1] is returned once [lv0] has been registered. *)
Lemma GetUniqueName_twice_same_name :
  fst (GetUniqueName_twice "lv" (IRBuilder_new Demo.Func)) = OK ("lv0", "lv0")
  /\ name2value (snd (GetUniqueName_twice "lv" (IRBuilder_new Demo.Func))) = ∅
  /\ GetUniqueName Demo.with_lv0 "lv" = OK "lv1".
Proof. split_and!; reflexivity. Qed.

(** C3 on the instance: on the empty table two objects with the same
    body are added under different names, one call after the other. *)
Lemma Add_twice_witness :
  exists gv1 h1 m1 gvs h2 m2 gv2 h3 m3,
    Add Demo.StructuralEqual "f" Demo.f1 10 (mkIRModuleScopeNode ∅ []) = (gv1, (h1, m1))
    /\ Add_all Demo.StructuralEqual [] h1 m1 = (gvs, (h2, m2))
    /\ Add Demo.StructuralEqual "g" Demo.f2 h2 m2 = (gv2, (h3, m3))
    /\ (Demo.StructuralEqual Demo.f1 Demo.f2 = true -> gv1 = gv2 /\ m3 = m2 /\ h3 = h2)
    /\ (Demo.StructuralEqual Demo.f1 Demo.f2 = false -> gv1 <> gv2)
    /\ (exists f, func_map m3 !! gv1 = Some f /\ Demo.StructuralEqual f Demo.f1 = true)
    /\ (exists f, func_map m3 !! gv2 = Some f /\ Demo.StructuralEqual f Demo.f2 = true)
    /\ (forall g f, func_map m3 !! g = Some f ->
          Demo.StructuralEqual f Demo.f1 = true -> g = gv1)
    /\ (forall g f, func_map m3 !! g = Some f ->
          Demo.StructuralEqual f Demo.f2 = true -> g = gv2)
    /\ (func_map (mkIRModuleScopeNode (BaseFunc := Demo.Func) ∅ []) = ∅ ->
          @nil (string * Demo.Func) = [] ->
          size (func_map m3) =
            if Demo.StructuralEqual Demo.f1 Demo.f2 then 1 else 2).
Proof.
  apply (Add_twice Demo.Func Demo.StructuralEqual Demo_StructuralEqual_refl
           Demo_StructuralEqual_sym Demo_StructuralEqual_trans).
  apply wf_empty.
Defined.

(** C3 evaluated: one symbol and one entry for the two equal functions,
    also under different name hints; a second symbol and a second entry
    for a distinct function, also under the same name hint; and the first
    symbol again for the equal function after the distinct one. *)
Example Add_twice_evaluated :
  let m0 := mkIRModuleScopeNode (BaseFunc := Demo.Func) ∅ [] in
  let '(gv1, (h1, m1)) := Add Demo.StructuralEqual "f" Demo.f1 10 m0 in
  let '(gv2, (h2, m2)) := Add Demo.StructuralEqual "g" Demo.f2 h1 m1 in
  let '(gv3, (h3, m3)) := Add Demo.StructuralEqual "f" Demo.f3 h2 m2 in
  let '(gv4, (h4, m4)) := Add Demo.StructuralEqual "h" Demo.f2 h3 m3 in
  gv1 = mkGlobalVar 10 "f" /\ gv2 = gv1 /\ size (func_map m2) = 1
  /\ gv3 = mkGlobalVar 11 "f" /\ size (func_map m3) = 2
  /\ gv4 = gv1 /\ size (func_map m4) = 2.
Proof. vm_compute. split_and!; reflexivity. Qed.

(** [relax.add(x, x)] emitted inside a dataflow block: the variable. *)
Lemma Emit_expr_call_witness :
  exists v b self',
    Emit_expr Demo.FInferShape_map Demo.FInferType_map Demo.add_x_x None Demo.in_dataflow
      = (OK v, self')
    /\ vb_var b = v
    /\ scopes self' =
         pop_back (scopes Demo.in_dataflow) ++
         [bindings_push_back (Binding_VarBinding b) (DataflowScope_new Demo.Func)]
    /\ var_is_dataflow v = is_DataflowScope (DataflowScope_new Demo.Func)
    /\ var_shape_ v = Some (ShapeExpr [IntImm 2; IntImm 3])
    /\ var_checked_type_ v = Some (DynTensorType 2 "float32").
Proof.
  destruct (Emit_expr_call Demo.Func Demo.FInferShape_map Demo.FInferType_map
              Demo.in_dataflow (DataflowScope_new Demo.Func) Demo.add_x_x None
              (mkCall Demo.op_add [Expr_of_Var Demo.x; Expr_of_Var Demo.x] None None))
    as (v & b & self' & Hemit & Hb & Hscopes & Hloc & _ & Hshape & _ & _ & Htype & _).
  - reflexivity.
  - reflexivity.
  - vm_compute. discriminate.
  - reflexivity.
  - exists v, b, self'. split_and!; try done.
    + by rewrite (Hshape "relax.add" _ eq_refl eq_refl eq_refl).
    + by rewrite (Htype "relax.add" _ eq_refl eq_refl eq_refl).
Defined.

(** C4, the code at the failing input: [relax.add(x, x)], a call of an
    operator with inference functions registered, is emitted inside a
    dataflow block.  The inferred shape and type are on the new variable,
    but the call recorded in the binding is the call as it was passed,
    with neither cached on it: [CreateVarBinding] writes them to a copy of
    the call that it then drops. *)
Lemma Emit_expr_call_not_cached_on_call :
  is_Some (Demo.FInferShape_map "relax.add")
  /\ is_Some (Demo.FInferType_map "relax.add")
  /\ (scope_bindings <$> last (scopes (snd (Emit_expr Demo.FInferShape_map
         Demo.FInferType_map Demo.add_x_x None Demo.in_dataflow)))) =
       Some [Binding_VarBinding
               (mkVarBinding
                  (mkVar true (mkId 10 "lv0")
                     (Some (ShapeExpr [IntImm 2; IntImm 3]))
                     (Some (DynTensorType 2 "float32")))
                  Demo.add_x_x)]
  /\ expr_shape_ Demo.add_x_x = None
  /\ expr_checked_type_ Demo.add_x_x = None.
Proof. split_and!; try reflexivity; vm_compute; eauto. Qed.

(** C5 on the instance: the tensor [x] of rank 2 matched against the
    pattern [n, m]. *)
Lemma EmitMatchShape_expr_refines_witness :
  exists v self',
    EmitMatchShape_expr (Expr_of_Var Demo.x) [tir_Var "n"; tir_Var "m"] None
      Demo.in_dataflow = (OK v, self')
    /\ var_checked_type_ v = Some (DynTensorType 2 "float32")
    /\ var_shape_ v = Some (ShapeExpr [tir_Var "n"; tir_Var "m"])
    /\ var_is_dataflow v = is_DataflowScope (DataflowScope_new Demo.Func)
    /\ scopes self' =
         pop_back (scopes Demo.in_dataflow) ++
         [bindings_push_back
            (Binding_MatchShape
               (mkMatchShape (Expr_of_Var Demo.x) [tir_Var "n"; tir_Var "m"] v))
            (DataflowScope_new Demo.Func)].
Proof.
  apply (EmitMatchShape_expr_refines Demo.Func Demo.in_dataflow
           (DataflowScope_new Demo.Func) (Expr_of_Var Demo.x)
           [tir_Var "n"; tir_Var "m"] None (DynTensorType 2 "float32")).
  - reflexivity.
  - reflexivity.
  - vm_compute. discriminate.
  - vm_compute. discriminate.
  - reflexivity.
Defined.

(** The three cases of C5, evaluated. *)
Example EmitMatchShape_expr_evaluated :
  fst (EmitMatchShape_expr (Expr_of_Var Demo.x) [tir_Var "n"; tir_Var "m"] None
         Demo.in_dataflow) =
    OK (mkVar true (mkId 10 "lv0")
          (Some (ShapeExpr [tir_Var "n"; tir_Var "m"]))
          (Some (DynTensorType 2 "float32")))
  /\ fst (EmitMatchShape_expr (Expr_of_Var Demo.s) [tir_Var "n"] None Demo.in_binding) =
       OK (mkVar false (mkId 10 "gv0") None (Some ShapeType))
  /\ fst (EmitMatchShape_expr (Expr_of_Var Demo.o) [tir_Var "n"] None Demo.in_dataflow) =
       Throw (LOG_FATAL
         "TypeError: Invalid type of value, must be of DynTensorType or ShapeType: ").
Proof. split_and!; reflexivity. Qed.

(** C9 on the instance: [t[0]], where both the shape and the type of [t]
    are tuples. *)
Lemma Emit_expr_tuple_get_item_witness :
  exists v b self',
    Emit_expr Demo.FInferShape_map Demo.FInferType_map Demo.t_0 None Demo.in_dataflow
      = (OK v, self')
    /\ vb_var b = v
    /\ scopes self' =
         pop_back (scopes Demo.in_dataflow) ++
         [bindings_push_back (Binding_VarBinding b) (DataflowScope_new Demo.Func)]
    /\ var_is_dataflow v = is_DataflowScope (DataflowScope_new Demo.Func)
    /\ var_shape_ v = Some (ShapeExpr [IntImm 2; IntImm 3])
    /\ var_checked_type_ v = Some (DynTensorType 2 "float32").
Proof.
  destruct (Emit_expr_tuple_get_item Demo.Func Demo.FInferShape_map Demo.FInferType_map
              Demo.in_dataflow (DataflowScope_new Demo.Func) Demo.t_0 None
              (Expr_of_Var Demo.t) 0) as [_ H].
  - reflexivity.
  - reflexivity.
  - vm_compute. discriminate.
  - reflexivity.
  - apply (H Demo.t).
    + reflexivity.
    + simpl. lia.
    + simpl. lia.
Defined.

(** C9 as stated fails.  A projection whose operand is a tuple literal,
    not a variable, makes [Emit] fail; and for the variable [u], whose
    shape is a tuple while its type is unknown, the new variable receives
    the field of the shape and no type. *)
Lemma Emit_expr_tuple_get_item_fails_on_literal :
  fst (Emit_expr Demo.FInferShape_map Demo.FInferType_map
         Demo.tuple_literal_0 None Demo.in_dataflow) =
    Throw (ICHECK_failed "TypeError: Invalid type as the tuple field of TupleGetItem: ")
  /\ fst (Emit_expr Demo.FInferShape_map Demo.FInferType_map
            Demo.u_0 None Demo.in_dataflow) =
     OK (mkVar true (mkId 10 "lv0") (Some (ShapeExpr [IntImm 7])) None).
Proof. split_and!; reflexivity. Qed.

(** C10 on the instance: the failed [Emit] of a projection out of a tuple
    literal, which has allocated a variable by then. *)
Lemma failed_emission_leaves_builder_witness :
  scopes (snd (Emit_expr Demo.FInferShape_map Demo.FInferType_map
                 Demo.tuple_literal_0 None Demo.in_dataflow)) = scopes Demo.in_dataflow
  /\ id2bind (snd (Emit_expr Demo.FInferShape_map Demo.FInferType_map
                     Demo.tuple_literal_0 None Demo.in_dataflow)) =
     id2bind Demo.in_dataflow
  /\ name2value (snd (Emit_expr Demo.FInferShape_map Demo.FInferType_map
                        Demo.tuple_literal_0 None Demo.in_dataflow)) =
     name2value Demo.in_dataflow.
Proof.
  apply (failed_emission_leaves_builder Demo.Func Demo.FInferShape_map
           Demo.FInferType_map Demo.in_dataflow _
           (ICHECK_failed "TypeError: Invalid type as the tuple field of TupleGetItem: ")).
  right. right. right. left. exists Demo.tuple_literal_0, None. reflexivity.
Defined.

(** C7 on the instance: inside a dataflow block a variable is bound by
    [EmitMatchShape] and another by [Emit]; the first stays unknown to
    [LookupBinding]. *)
Lemma LookupBinding_unrecorded_witness :
  LookupBinding (mkId 10 "lv0")
      (snd (run_BuilderOps Demo.FInferShape_map Demo.FInferType_map
              Demo.match_then_emit Demo.start)) =
    (Throw (LOG_FATAL "Cannot find binding for "),
     snd (run_BuilderOps Demo.FInferShape_map Demo.FInferType_map
            Demo.match_then_emit Demo.start))
  /\ (forall (s : IRBuilderNode Demo.Func) b,
        id2bind (snd (EmitMatchShape b s)) = id2bind s)
  /\ (forall (s : IRBuilderNode Demo.Func) value pattern h,
        id2bind (snd (EmitMatchShape_expr value pattern h s)) = id2bind s).
Proof.
  apply (LookupBinding_unrecorded Demo.Func Demo.FInferShape_map Demo.FInferType_map
           Demo.start _ Demo.match_then_emit [mkId 11 "lv0"] (mkId 10 "lv0")).
  - reflexivity.
  - reflexivity.
  - intros Hin. apply list_elem_of_singleton in Hin. discriminate Hin.
Defined.

(** C8 as stated fails.  A name that is registered to the enclosing
    scope while the inner scope is open stays registered after the matched
    pop, so that the registry is not what it was before the push.  And a
    scope that [PopScope] has returned still lists its names: when it is
    pushed again and popped, the pop erases a name that was registered, to
    another scope, before that push. *)
Lemma PopScope_registry_not_restored :
  fst (run_ScopeOps Demo.outer_name_ops Demo.in_module) = OK tt
  /\ length (scopes (snd (run_ScopeOps Demo.outer_name_ops Demo.in_module))) =
       length (scopes Demo.in_module)
  /\ name2value Demo.in_module !! "a" = None
  /\ name2value (snd (run_ScopeOps Demo.outer_name_ops Demo.in_module)) !! "a" = Some 2
  /\ fst (PopScope (snd (run_ScopeOps
                           [Op_PushScope (DataflowScope_new Demo.Func);
                            Op_AddVars "n" 1 0] Demo.start))) = OK Demo.stale_scope
  /\ name2value Demo.before_repush !! "n" = Some 7
  /\ fst (run_ScopeOps [Op_PushScope Demo.stale_scope; Op_PopScope] Demo.before_repush)
       = OK tt
  /\ name2value (snd (run_ScopeOps [Op_PushScope Demo.stale_scope; Op_PopScope]
                         Demo.before_repush)) !! "n" = None.
Proof. split_and!; vm_compute; reflexivity. Qed.

(** C8 on the instance: under a module scope that owns the name [g], a
    dataflow scope is pushed, names and callbacks are registered on it
    around a nested scope, and it is popped. *)
Lemma PopScope_restores_registry_witness :
  exists popped self2,
    PopScope (snd (run_ScopeOps Demo.nested_ops
                     (snd (PushScope (DataflowScope_new Demo.Func) Demo.with_g))))
      = (OK popped, self2)
    /\ node popped = node (DataflowScope_new Demo.Func)
    /\ vars popped = ["a"; "c"]
    /\ callbacks popped = [mkCallback 1; mkCallback 2]
    /\ name2value self2 = name2value Demo.with_g
    /\ called self2 =
         [(mkCallback 7, {["g" := 1; "a" := 2; "b" := 3]} : gmap string ObjectRef);
          (mkCallback 1, {["g" := 1; "a" := 2; "c" := 4]} : gmap string ObjectRef);
          (mkCallback 2, {["g" := 1; "a" := 2; "c" := 4]} : gmap string ObjectRef)]
    /\ length (scopes self2) = length (scopes Demo.with_g).
Proof.
  destruct (PopScope_restores_registry Demo.Func Demo.with_g
              (snd (run_ScopeOps Demo.nested_ops
                      (snd (PushScope (DataflowScope_new Demo.Func) Demo.with_g))))
              (DataflowScope_new Demo.Func) Demo.nested_ops)
    as (popped & self2 & Hpop & Hnode & Hvars & Hcbs & Hreg & _ & Hcalled & Hlen).
  - reflexivity.
  - vm_compute. repeat split; lia.
  - vm_compute. reflexivity.
  - exists popped, self2. split_and!; try done.
    rewrite Hcalled, Hcbs. vm_compute. reflexivity.
Defined.

(** X1 on the instance: the dataflow block to which [y] = [x] was emitted
    is ended. *)
Lemma EndBlock_closes_block_witness :
  exists self',
    EndBlock Demo.emitted_y =
      (OK (mkDataflowBlock
             [Binding_VarBinding (mkVarBinding Demo.y (Expr_of_Var Demo.x))]),
       self')
    /\ scopes self' = []
    /\ id2bind self' = id2bind Demo.emitted_y
    /\ (forall k, name2value self' !! k =
                  if decide (k ∈ @nil string) then None
                  else name2value Demo.emitted_y !! k)
    /\ called self' = [].
Proof.
  apply (EndBlock_closes_block Demo.Func Demo.emitted_y
           (mkBaseScope [] []
              (DataflowScopeNode
                 [Binding_VarBinding (mkVarBinding Demo.y (Expr_of_Var Demo.x))])));
    reflexivity.
Defined.

(** X2 on the instance: [EndBlock] on a new builder, and on a builder
    inside a module scope only. *)
Lemma EndBlock_outside_block_witness :
  EndBlock Demo.start = (Throw (CHECK_failed "!scopes.empty()"), Demo.start)
  /\ exists self',
       EndBlock Demo.in_module = (Throw (ICHECK_failed "Invalid scope: "), self')
       /\ scopes self' = []
       /\ (forall k, k ∈ @nil string -> name2value self' !! k = None)
       /\ called self' = [].
Proof.
  split.
  - exact (proj1 (EndBlock_outside_block Demo.Func Demo.start) eq_refl).
  - exact (proj2 (EndBlock_outside_block Demo.Func Demo.in_module)
             (IRModuleScope_new Demo.Func) eq_refl eq_refl).
Defined.

(** X3 on the instance: a dataflow block of three bindings, the last of
    which binds [y] again. *)
Lemma build_block_returns_bindings_witness :
  build_block true Demo.three_bindings Demo.start =
    (OK (mkDataflowBlock (Binding_VarBinding <$> Demo.three_bindings)),
     set_id2bind
       (fun m => fold_left (fun m b => <[vid (vb_var b) := vb_value b]> m)
                           Demo.three_bindings m)
       Demo.start)
  /\ LookupBinding (vid Demo.y) (snd (build_block true Demo.three_bindings Demo.start)) =
       (OK (Expr_of_Var Demo.z), snd (build_block true Demo.three_bindings Demo.start))
  /\ LookupBinding (vid Demo.z) (snd (build_block true Demo.three_bindings Demo.start)) =
       (OK Demo.add_x_x, snd (build_block true Demo.three_bindings Demo.start)).
Proof.
  destruct (build_block_returns_bindings Demo.Func Demo.start true Demo.three_bindings)
    as [Hrun Hlookup].
  { intros _. repeat constructor. }
  split; [exact Hrun|]. split.
  - apply (Hlookup 2 (mkVarBinding Demo.y (Expr_of_Var Demo.z))); [reflexivity|].
    intros j b' Hj Hb'. destruct j as [|[|[|j]]]; [lia|lia|lia|discriminate Hb'].
  - apply (Hlookup 1 (mkVarBinding Demo.z Demo.add_x_x)); [reflexivity|].
    intros j b' Hj Hb'. destruct j as [|[|[|j]]]; [lia|lia| |discriminate Hb'].
    injection Hb' as <-. discriminate.
Defined.

(** X4 on the instance: inside a module scope only, and [EmitOutput]
    inside a binding block. *)
Lemma emission_outside_block_witness :
  ((forall b, EmitOutput b Demo.in_module =
                (Throw (LOG_FATAL "Invalid scope: "), Demo.in_module))
   /\ (forall output h,
         EmitOutput_expr Demo.FInferShape_map Demo.FInferType_map output h Demo.in_module =
           (Throw (LOG_FATAL "Invalid scope: "), Demo.in_module)))
  /\ ((forall b, Emit b Demo.in_module =
                   (Throw (LOG_FATAL "Invalid scope: "), Demo.in_module))
      /\ (forall b, EmitMatchShape b Demo.in_module =
                      (Throw (LOG_FATAL "Invalid scope: "), Demo.in_module))
      /\ (forall expr h,
            Emit_expr Demo.FInferShape_map Demo.FInferType_map expr h Demo.in_module =
              (Throw (LOG_FATAL "Invalid scope: "), Demo.in_module))
      /\ (forall value pattern h,
            EmitMatchShape_expr value pattern h Demo.in_module =
              (Throw (LOG_FATAL "Invalid scope: "), Demo.in_module)))
  /\ (forall b, EmitOutput b Demo.in_binding =
                  (Throw (LOG_FATAL "Invalid scope: "), Demo.in_binding)).
Proof.
  destruct (emission_outside_block Demo.Func Demo.FInferShape_map Demo.FInferType_map
              Demo.in_module (IRModuleScope_new Demo.Func) eq_refl) as [Hout Hall].
  destruct (emission_outside_block Demo.Func Demo.FInferShape_map Demo.FInferType_map
              Demo.in_binding (NonDataflowScope_new Demo.Func) eq_refl) as [Hout' _].
  split; [exact (Hout eq_refl)|]. split; [exact (Hall eq_refl)|].
  exact (proj1 (Hout' eq_refl)).
Defined.

(** X5 on the instance: the shape of [x] is matched to the global variable
    [s] and to the local variable [y], inside a binding block and inside a
    dataflow block. *)
Lemma EmitMatchShape_scope_discipline_witness :
  (exists self',
     EmitMatchShape (mkMatchShape (Expr_of_Var Demo.x) [tir_Var "n"] Demo.s)
       Demo.in_binding = (OK Demo.s, self')
     /\ scopes self' =
          [mkBaseScope [] []
             (NonDataflowScopeNode
                [Binding_MatchShape
                   (mkMatchShape (Expr_of_Var Demo.x) [tir_Var "n"] Demo.s)])]
     /\ id2bind self' = ∅)
  /\ EmitMatchShape (mkMatchShape (Expr_of_Var Demo.x) [tir_Var "n"] Demo.s)
       Demo.in_dataflow =
       (Throw (ICHECK_failed
          "EmitMatchShape can only be used for local bindings in a dataflow block."),
        Demo.in_dataflow)
  /\ EmitMatchShape (mkMatchShape (Expr_of_Var Demo.x) [tir_Var "n"] Demo.y)
       Demo.in_binding =
       (Throw (ICHECK_failed "cannot emit dataflow vars outside a dataflow block: "),
        Demo.in_binding)
  /\ exists self',
       Emit (mkVarBinding Demo.y (Expr_of_Var Demo.x)) Demo.in_binding =
         (OK Demo.y, self').
Proof.
  destruct (EmitMatchShape_scope_discipline Demo.Func Demo.in_binding
              (NonDataflowScope_new Demo.Func)
              (mkMatchShape (Expr_of_Var Demo.x) [tir_Var "n"] Demo.s)
              eq_refl eq_refl) as (Hok & _ & _).
  destruct (EmitMatchShape_scope_discipline Demo.Func Demo.in_dataflow
              (DataflowScope_new Demo.Func)
              (mkMatchShape (Expr_of_Var Demo.x) [tir_Var "n"] Demo.s)
              eq_refl eq_refl) as (_ & Hglobal & _).
  destruct (EmitMatchShape_scope_discipline Demo.Func Demo.in_binding
              (NonDataflowScope_new Demo.Func)
              (mkMatchShape (Expr_of_Var Demo.x) [tir_Var "n"] Demo.y)
              eq_refl eq_refl) as (_ & _ & Hlocal).
  destruct (Hok eq_refl) as (self' & He & Hs & _ & Hi).
  destruct (Hlocal eq_refl eq_refl) as [Hthrow Hemit].
  split; [exists self'; split_and!; [exact He|exact Hs|exact Hi]|].
  split; [exact (Hglobal eq_refl eq_refl)|]. split; [exact Hthrow|exact Hemit].
Defined.

(** X6 on the instance: [EmitOutput] of [relax.add(x, x)] inside a
    dataflow block. *)
Lemma EmitOutput_expr_always_fails_witness :
  exists self',
    EmitOutput_expr Demo.FInferShape_map Demo.FInferType_map Demo.add_x_x None
      Demo.in_dataflow =
      (Throw (ICHECK_failed
         "Emit can only be used for local bindings in a dataflow block, use EmitOutput for output bindings instead"),
       self')
    /\ scopes self' = scopes Demo.in_dataflow
    /\ id2bind self' = id2bind Demo.in_dataflow
    /\ name2value self' = name2value Demo.in_dataflow.
Proof.
  destruct (EmitOutput_expr_always_fails Demo.Func Demo.FInferShape_map
              Demo.FInferType_map Demo.in_dataflow Demo.add_x_x None)
    as (e & self' & He & Hs & Hi & Hn & Herr).
  rewrite (Herr (DataflowScope_new Demo.Func)) in He;
    [|reflexivity|reflexivity|vm_compute; discriminate|reflexivity].
  exists self'. split_and!; [exact He|exact Hs|exact Hi|exact Hn].
Defined.

(** X7 on the instance: the name [lv0] is registered, the name [lv1] is
    not. *)
Lemma AddVars_registers_witness :
  AddVars "lv0" 5 7 Demo.with_lv0 =
    (Throw (LOG_FATAL "Variable already exists: "), Demo.with_lv0)
  /\ exists self',
       AddVars "lv1" 5 0 Demo.with_lv0 = (OK tt, self')
       /\ GetVar self' "lv1" = Some 5
       /\ GetVar self' "lv0" = Some 0
       /\ scopes self' !! 0 = Some (mkBaseScope ["lv0"; "lv1"] [] (DataflowScopeNode []))
       /\ length (scopes self') = 1
       /\ id2bind self' = ∅.
Proof.
  destruct (AddVars_registers Demo.Func Demo.with_lv0 "lv0" 5 7) as [Hdup _].
  destruct (AddVars_registers Demo.Func Demo.with_lv0 "lv1" 5 0) as [_ Hnew].
  split; [apply (Hdup 0); reflexivity|].
  destruct (Hnew eq_refl) as (self' & Hadd & Hget & Hother & Hscopes & Hlen & Hid).
  exists self'. split_and!; [exact Hadd|exact Hget| | |exact Hlen|exact Hid].
  - rewrite Hother; [reflexivity|discriminate].
  - apply (Hscopes 0 (mkBaseScope ["lv0"] [] (DataflowScopeNode []))). reflexivity.
Defined.

(** X8 on the instance: with [lv0] registered, the name drawn for the
    prefix [lv] is [lv1]. *)
Lemma GetUniqueName_can_be_registered_witness :
  exists k self',
    "lv1" = candidate "lv" k
    /\ AddVars "lv1" 5 0 Demo.with_lv0 = (OK tt, self')
    /\ GetVar self' "lv1" = Some 5
    /\ (forall name', GetUniqueName self' "lv" = OK name' ->
          exists k', name' = candidate "lv" k' /\ k < k').
Proof.
  apply (GetUniqueName_can_be_registered Demo.Func Demo.with_lv0 "lv" "lv1" 5 0).
  vm_compute. reflexivity.
Defined.

(** X9 on the instance: the module scope under a dataflow block, and a
    stack without a module scope. *)
Lemma GetScope_innermost_witness :
  (exists s, scopes Demo.block_in_module !! 0 = Some s
     /\ is_IRModuleScope s = true
     /\ forall j s', 0 < j -> scopes Demo.block_in_module !! j = Some s' ->
                     is_IRModuleScope s' = false)
  /\ (forall s, s ∈ scopes Demo.in_dataflow -> is_IRModuleScope s = false).
Proof.
  assert (Hmodule : GetScope is_IRModuleScope Demo.block_in_module = Some 0)
    by (vm_compute; reflexivity).
  assert (Hnone : GetScope is_IRModuleScope Demo.in_dataflow = None)
    by (vm_compute; reflexivity).
  pose proof (GetScope_innermost Demo.Func is_IRModuleScope Demo.block_in_module)
    as Hinner.
  pose proof (GetScope_innermost Demo.Func is_IRModuleScope Demo.in_dataflow)
    as Hall.
  rewrite Hmodule in Hinner. rewrite Hnone in Hall.
  split; [apply Hinner|apply Hall]; vm_compute; discriminate.
Defined.

(** X10 on the instance: two scopes are opened, names are registered to
    both, and the scopes are closed. *)
Lemma registry_owned_invariant_witness :
  registry_owned (snd (run_ScopeOps Demo.balanced_ops Demo.start))
  /\ (scopes (snd (run_ScopeOps Demo.balanced_ops Demo.start)) = [] ->
      name2value (snd (run_ScopeOps Demo.balanced_ops Demo.start)) = ∅).
Proof.
  apply (registry_owned_invariant Demo.Func Demo.balanced_ops Demo.start _ (OK tt)).
  - split; [apply NoDup_nil_2|]. intros k. split.
    + intros [v Hv]. discriminate Hv.
    + intros Hk. by apply not_elem_of_nil in Hk.
  - vm_compute. repeat split; lia.
  - vm_compute. reflexivity.
Defined.

(** X11 on the instance: inside a dataflow block, without a module scope. *)
Lemma AddFuncToContext_without_module_witness :
  AddFuncToContext Demo.StructuralEqual Demo.f1 "f" Demo.in_dataflow =
    (Throw (ICHECK_failed "No IRModuleScope in context"), Demo.in_dataflow)
  /\ GetContextIRModule Demo.IRModule_new Demo.in_dataflow =
       (Throw (ICHECK_failed "No IRModuleScope in context"), Demo.in_dataflow).
Proof.
  apply (AddFuncToContext_without_module Demo.Func Demo.StructuralEqual
           Demo.IRModule Demo.IRModule_new Demo.in_dataflow Demo.f1 "f").
  intros s Hs. apply list_elem_of_singleton in Hs. rewrite Hs. reflexivity.
Defined.

(** X12 on the instance: a function is added from inside a dataflow block
    that is inside a module scope. *)
Lemma AddFuncToContext_round_trip_witness :
  exists gv self' m',
    AddFuncToContext Demo.StructuralEqual Demo.f1 "f" Demo.block_in_module = (OK gv, self')
    /\ Add Demo.StructuralEqual "f" Demo.f1 10 (mkIRModuleScopeNode ∅ []) =
         (gv, (next_addr self', m'))
    /\ scopes self' !! 0 = Some (mkBaseScope [] [] (IRModuleScope_ m'))
    /\ (forall j, j <> 0 -> scopes self' !! j = scopes Demo.block_in_module !! j)
    /\ id2bind self' = id2bind Demo.block_in_module
    /\ name2value self' = name2value Demo.block_in_module
    /\ GetContextIRModule Demo.IRModule_new self' = (OK (func_map m'), self')
    /\ (exists f, func_map m' !! gv = Some f /\ Demo.StructuralEqual f Demo.f1 = true)
    /\ func_map (mkIRModuleScopeNode (BaseFunc := Demo.Func) ∅ []) ⊆ func_map m'
    /\ (forall func2 hint2, Demo.StructuralEqual Demo.f1 func2 = true ->
          AddFuncToContext Demo.StructuralEqual func2 hint2 self' = (OK gv, self')).
Proof.
  apply (AddFuncToContext_round_trip Demo.Func Demo.StructuralEqual
           Demo.IRModule Demo.IRModule_new
           Demo_StructuralEqual_refl Demo_StructuralEqual_sym Demo_StructuralEqual_trans
           Demo.block_in_module 0 [] [] (mkIRModuleScopeNode ∅ []) Demo.f1 "f").
  - vm_compute. discriminate.
  - reflexivity.
  - intros j s Hj Hs. destruct j as [|[|j]]; [lia| |discriminate Hs].
    injection Hs as <-. reflexivity.
  - apply wf_empty.
Defined.

(** X13 on the instance: three calls, the first two with structurally
    equal functions. *)
Lemma Add_all_keeps_entries_witness :
  exists gvs h' m',
    Add_all Demo.StructuralEqual [("f", Demo.f1); ("g", Demo.f2); ("f", Demo.f3)] 10
      (mkIRModuleScopeNode ∅ []) = (gvs, (h', m'))
    /\ length gvs = 3
    /\ func_map (mkIRModuleScopeNode (BaseFunc := Demo.Func) ∅ []) ⊆ func_map m'
    /\ (forall i name func gv,
          [("f", Demo.f1); ("g", Demo.f2); ("f", Demo.f3)] !! i = Some (name, func) ->
          gvs !! i = Some gv ->
          exists f, func_map m' !! gv = Some f /\ Demo.StructuralEqual f func = true)
    /\ size (func_map m') <=
         size (func_map (mkIRModuleScopeNode (BaseFunc := Demo.Func) ∅ [])) + 3
    /\ 10 <= h' <= 10 + 3.
Proof.
  apply (Add_all_keeps_entries Demo.Func Demo.StructuralEqual
           Demo_StructuralEqual_refl Demo_StructuralEqual_sym
           [("f", Demo.f1); ("g", Demo.f2); ("f", Demo.f3)] 10
           (mkIRModuleScopeNode ∅ [])).
  apply wf_empty.
Defined.

(** X14 on the instance: a variable is made inside a dataflow block. *)
Lemma CreateScopedVar_fresh_var_witness :
  CurrentBlockIsDataFlow Demo.in_dataflow =
    (OK (var_is_dataflow Demo.fresh_lv0), Demo.in_dataflow)
  /\ id_addr (vid Demo.fresh_lv0) = next_addr Demo.in_dataflow
  /\ next_addr (set_next_addr S Demo.in_dataflow) = S (next_addr Demo.in_dataflow)
  /\ var_shape_ Demo.fresh_lv0 = None
  /\ var_checked_type_ Demo.fresh_lv0 = None
  /\ GetVar Demo.in_dataflow (name_hint (vid Demo.fresh_lv0)) = None
  /\ GetVar (set_next_addr S Demo.in_dataflow) (name_hint (vid Demo.fresh_lv0)) = None
  /\ scopes (set_next_addr S Demo.in_dataflow) = scopes Demo.in_dataflow.
Proof.
  apply (CreateScopedVar_fresh_var Demo.Func Demo.in_dataflow
           (set_next_addr S Demo.in_dataflow) None Demo.fresh_lv0).
  vm_compute. reflexivity.
Defined.

(** X15 on the instance: [relax.add(x, x)] is emitted twice inside a
    dataflow block; the two variables are both named [lv0]. *)
Lemma Emit_expr_twice_same_name_witness :
  name_hint (vid (Demo.lv 10)) = name_hint (vid (Demo.lv 11))
  /\ id_addr (vid (Demo.lv 11)) = S (id_addr (vid (Demo.lv 10)))
  /\ vid (Demo.lv 10) <> vid (Demo.lv 11)
  /\ LookupBinding (vid (Demo.lv 10)) Demo.emitted_twice =
       (OK Demo.add_x_x, Demo.emitted_twice)
  /\ LookupBinding (vid (Demo.lv 11)) Demo.emitted_twice =
       (OK Demo.add_x_x, Demo.emitted_twice).
Proof.
  apply (Emit_expr_twice_same_name Demo.Func Demo.FInferShape_map Demo.FInferType_map
           Demo.in_dataflow Demo.emitted_once Demo.emitted_twice
           Demo.add_x_x Demo.add_x_x None (Demo.lv 10) (Demo.lv 11));
    vm_compute; reflexivity.
Defined.

(** X16 on the instance: a reference to [x] is emitted inside a dataflow
    block. *)
Lemma Emit_expr_var_reference_witness :
  exists v b self',
    Emit_expr Demo.FInferShape_map Demo.FInferType_map (Expr_of_Var Demo.x) None
      Demo.in_dataflow = (OK v, self')
    /\ vb_var b = v /\ vb_value b = Expr_of_Var Demo.x
    /\ scopes self' =
         pop_back (scopes Demo.in_dataflow) ++
         [bindings_push_back (Binding_VarBinding b) (DataflowScope_new Demo.Func)]
    /\ var_is_dataflow v = true
    /\ id2bind self' = <[vid v := Expr_of_Var Demo.x]> (id2bind Demo.in_dataflow)
    /\ (forall rhs_var, as_VarNode (Expr_of_Var Demo.x) = Some rhs_var ->
          var_shape_ v = var_shape_ rhs_var
          /\ var_checked_type_ v = var_checked_type_ rhs_var)
    /\ (as_VarNode (Expr_of_Var Demo.x) = None ->
          var_shape_ v = None /\ var_checked_type_ v = None).
Proof.
  apply (Emit_expr_var_reference Demo.Func Demo.FInferShape_map Demo.FInferType_map
           Demo.in_dataflow (DataflowScope_new Demo.Func) (Expr_of_Var Demo.x) None);
    try reflexivity.
  vm_compute. discriminate.
Defined.

(** X17 on the instance: after two blocks, the name registry is empty and
    the next variable is named [gv0] again. *)
Lemma builder_never_registers_names_witness :
  only_blocks (snd (run_BuilderOps Demo.FInferShape_map Demo.FInferType_map
                      Demo.two_blocks Demo.start))
  /\ (forall expr h v s,
        Emit_expr Demo.FInferShape_map Demo.FInferType_map expr h
          (snd (run_BuilderOps Demo.FInferShape_map Demo.FInferType_map
                  Demo.two_blocks Demo.start)) = (OK v, s) ->
        name_hint (vid v) =
          value_or h (if var_is_dataflow v then "lv" else "gv") +:+ "0")
  /\ (forall value pattern h v s,
        EmitMatchShape_expr value pattern h
          (snd (run_BuilderOps Demo.FInferShape_map Demo.FInferType_map
                  Demo.two_blocks Demo.start)) = (OK v, s) ->
        name_hint (vid v) =
          value_or h (if var_is_dataflow v then "lv" else "gv") +:+ "0").
Proof.
  apply (builder_never_registers_names Demo.Func Demo.FInferShape_map Demo.FInferType_map
           Demo.two_blocks Demo.start _ [mkId 10 "lv0"; mkId 11 "lv0"]).
  - split; [reflexivity|constructor].
  - vm_compute. reflexivity.
Defined.

(** X18 on the instance: [y] = [x] is emitted, another binding follows and
    the block is ended. *)
Lemma LookupBinding_after_emit_witness :
  Demo.y = vb_var (mkVarBinding Demo.y (Expr_of_Var Demo.x))
  /\ LookupBinding (vid Demo.y)
       (snd (run_BuilderOps Demo.FInferShape_map Demo.FInferType_map
               [Op_Emit_expr Demo.add_x_x None; Op_EndBlock] Demo.emitted_y)) =
     (OK (Expr_of_Var Demo.x),
      snd (run_BuilderOps Demo.FInferShape_map Demo.FInferType_map
             [Op_Emit_expr Demo.add_x_x None; Op_EndBlock] Demo.emitted_y)).
Proof.
  apply (LookupBinding_after_emit Demo.Func Demo.FInferShape_map Demo.FInferType_map
           Demo.in_dataflow Demo.emitted_y _ (mkVarBinding Demo.y (Expr_of_Var Demo.x))
           Demo.y [Op_Emit_expr Demo.add_x_x None; Op_EndBlock] [mkId 10 "lv0"]).
  - left. reflexivity.
  - vm_compute. reflexivity.
  - intros Hin. apply list_elem_of_singleton in Hin. discriminate Hin.
Defined.

(** X19 on the instance: the dataflow block with two emitted bindings. *)
Lemma dataflow_blocks_bind_local_vars_witness :
  dataflow_local (snd (run_BuilderOps Demo.FInferShape_map Demo.FInferType_map
                         Demo.two_emits Demo.start))
  /\ (forall bindings s,
        EndBlock (snd (run_BuilderOps Demo.FInferShape_map Demo.FInferType_map
                         Demo.two_emits Demo.start)) =
          (OK (mkDataflowBlock bindings), s) ->
        Forall (fun b => var_is_dataflow (binding_var b) = true) bindings)
  /\ (forall b, var_is_dataflow (vb_var b) = false ->
        exists e,
          EmitOutput b (snd (run_BuilderOps Demo.FInferShape_map Demo.FInferType_map
                               Demo.two_emits Demo.start)) =
            (Throw e, snd (run_BuilderOps Demo.FInferShape_map Demo.FInferType_map
                             Demo.two_emits Demo.start))).
Proof.
  apply (dataflow_blocks_bind_local_vars Demo.Func Demo.FInferShape_map
           Demo.FInferType_map Demo.two_emits Demo.start _
           [mkId 10 "lv0"; mkId 11 "lv0"]).
  - constructor.
  - vm_compute. reflexivity.
Defined.
